(** * DeepHAR replication: the tensor model of [general_models.py] and
      [action_recognition.py]

    Tensors are nested lists of real numbers, outermost dimension first: a
    [B x C x H x W] tensor is a list of [B] batch items, each a list of [C]
    channel maps, each a list of [H] rows of [W] reals.  Floating-point
    numbers are idealised as reals; an operation that raises in the numeric
    framework returns [None]. *)

From Stdlib Require Import List Arith ZArith Reals Lia Lra Bool.
Import ListNotations.

(* ------------------------------------------------------------------ *)
(** ** The error monad *)

Definition bind {A B : Type} (m : option A) (f : A -> option B) : option B :=
  match m with
  | Some a => f a
  | None => None
  end.

Notation "x <- m ;; k" := (bind m (fun x => k))
  (at level 61, m at next level, right associativity).
Notation "' pat <- m ;; k" := (bind m (fun x => match x with pat => k end))
  (at level 61, pat pattern, m at next level, right associativity).

Definition guard (b : bool) : option unit := if b then Some tt else None.

Fixpoint mapM {A B : Type} (f : A -> option B) (l : list A) : option (list B) :=
  match l with
  | [] => Some []
  | a :: t => b <- f a ;; r <- mapM f t ;; Some (b :: r)
  end.

(** Element-wise combination of two lists of the same length. *)
Fixpoint zipM {A B C : Type} (f : A -> B -> option C)
         (l1 : list A) (l2 : list B) : option (list C) :=
  match l1, l2 with
  | [], [] => Some []
  | a :: t1, b :: t2 => c <- f a b ;; r <- zipM f t1 t2 ;; Some (c :: r)
  | _, _ => None
  end.

(** One dimension of a broadcasting binary operation: equal sizes are
    combined position by position, a size-1 side is repeated along the other,
    anything else is a shape error. *)
Definition bzip {A B C : Type} (f : A -> B -> option C)
           (l1 : list A) (l2 : list B) : option (list C) :=
  if length l1 =? length l2 then zipM f l1 l2
  else match l1, l2 with
       | [a], _ => mapM (f a) l2
       | _, [b] => mapM (fun a => f a b) l1
       | _, _ => None
       end.

(* ------------------------------------------------------------------ *)
(** ** Tensors *)

Abbreviation tensor1 := (list R).
Abbreviation tensor2 := (list (list R)).
Abbreviation tensor3 := (list (list (list R))).
Abbreviation tensor4 := (list (list (list (list R)))).
Abbreviation tensor5 := (list (list (list (list (list R))))).

Definition shape1 (n : nat) (t : tensor1) : Prop := length t = n.
Definition shape2 (n m : nat) (t : tensor2) : Prop :=
  length t = n /\ Forall (shape1 m) t.
Definition shape3 (c h w : nat) (t : tensor3) : Prop :=
  length t = c /\ Forall (shape2 h w) t.
Definition shape4 (b c h w : nat) (t : tensor4) : Prop :=
  length t = b /\ Forall (shape3 c h w) t.
Definition shape5 (b c d h w : nat) (t : tensor5) : Prop :=
  length t = b /\ Forall (shape4 c d h w) t.

Definition get1 (t : tensor1) (i : nat) : R := nth i t 0%R.
Definition get2 (t : tensor2) (i j : nat) : R := get1 (nth i t []) j.
Definition get3 (t : tensor3) (i j k : nat) : R := get2 (nth i t []) j k.
Definition get4 (t : tensor4) (n i h w : nat) : R := get3 (nth n t []) i h w.
Definition get5 (t : tensor5) (n i j h w : nat) : R := get4 (nth n t []) i j h w.

(** [x.shape[d]] read off the nested list. *)
Definition size0 {A : Type} (x : list A) : nat := length x.
Definition size1 {A : Type} (x : list (list A)) : nat := length (hd [] x).
Definition size2 {A : Type} (x : list (list (list A))) : nat := size1 (hd [] x).
Definition size3 {A : Type} (x : list (list (list (list A)))) : nat :=
  size2 (hd [] x).

(** [t.tile] along one dimension: [r] copies laid end to end. *)
Definition tile_dim {A : Type} (r : nat) (l : list A) : list A :=
  concat (repeat l r).

Definition tile5 (r0 r1 r2 r3 r4 : nat) (x : tensor5) : tensor5 :=
  tile_dim r0 (map (fun x1 =>
    tile_dim r1 (map (fun x2 =>
      tile_dim r2 (map (fun x3 =>
        tile_dim r3 (map (tile_dim r4) x3)) x2)) x1)) x).

(** Broadcasting element-wise product of two 5-D tensors. *)
Definition mul1 : tensor1 -> tensor1 -> option tensor1 :=
  bzip (fun x y => Some (x * y)%R).
Definition mul2 : tensor2 -> tensor2 -> option tensor2 := bzip mul1.
Definition mul3 : tensor3 -> tensor3 -> option tensor3 := bzip mul2.
Definition mul4 : tensor4 -> tensor4 -> option tensor4 := bzip mul3.
Definition mul5 : tensor5 -> tensor5 -> option tensor5 := bzip mul4.

(* ------------------------------------------------------------------ *)
(** ** [kronecker_prod] (general_models.py) *)

(** [a.unsqueeze(-3)] on a 4-D tensor: [B x C1 x 1 x H x W]. *)
Definition unsqueeze_m3 (a : tensor4) : tensor5 :=
  map (map (fun m => [m])) a.

(** [b.unsqueeze(-4)] on a 4-D tensor: [B x 1 x C2 x H x W]. *)
Definition unsqueeze_m4 (b : tensor4) : tensor5 :=
  map (fun bn => [bn]) b.

Definition kronecker_prod (a b : tensor4) : option tensor5 :=
  let C1 := size1 a in
  let C2 := size1 b in
  let a := unsqueeze_m3 a in
  let b := unsqueeze_m4 b in
  let a := tile5 1 1 C2 1 1 a in
  let b := tile5 1 C1 1 1 1 b in
  mul5 a b.

(* ------------------------------------------------------------------ *)
(** ** Views, sums and element-wise maps *)

Definition rsum (l : list R) : R := fold_right Rplus 0%R l.

(** Sum of all entries of a matrix, row by row. *)
Definition sum2 (m : tensor2) : R := rsum (map rsum m).

Definition map2d {A B : Type} (f : A -> B) : list (list A) -> list (list B) :=
  map (map f).
Definition map4d {A B : Type} (f : A -> B) :
  list (list (list (list A))) -> list (list (list (list B))) :=
  map (map (map (map f))).

(** Unary minus on a tensor. *)
Definition neg4 : tensor4 -> tensor4 := map4d Ropp.

(** Row-major contents of a tensor. *)
Definition flatten2 {A : Type} (x : list (list A)) : list A := concat x.
Definition flatten3 {A : Type} (x : list (list (list A))) : list A :=
  concat (concat x).
Definition flatten4 {A : Type} (x : list (list (list (list A)))) : list A :=
  concat (concat (concat x)).

(** [n] consecutive chunks of [k] elements. *)
Fixpoint chunks {A : Type} (n k : nat) (l : list A) : list (list A) :=
  match n with
  | 0 => []
  | S n' => firstn k l :: chunks n' k (skipn k l)
  end.

(** The size that a [-1] stands for in [t.view(...)]: [numel] elements are to
    fill a shape whose other sizes multiply to [known].  A zero [known] leaves
    the size ambiguous and is refused, as is a [numel] that [known] does not
    divide. *)
Definition infer_dim (numel known : nat) : option nat :=
  if known =? 0 then None
  else if numel mod known =? 0 then Some (numel / known)
  else None.

Definition view3 {A : Type} (d0 d1 d2 : nat) (flat : list A) : list (list (list A)) :=
  map (chunks d1 d2) (chunks d0 (d1 * d2) flat).
Definition view4 {A : Type} (d0 d1 d2 d3 : nat) (flat : list A) :
  list (list (list (list A))) :=
  map (view3 d1 d2 d3) (chunks d0 (d1 * d2 * d3) flat).

(** [nn.Softmax] along one dimension. *)
Definition softmax1 (l : tensor1) : tensor1 :=
  let s := rsum (map exp l) in
  map (fun v => (exp v / s)%R) l.

(* ------------------------------------------------------------------ *)
(** ** [spacial_softmax] (general_models.py) *)

Definition spacial_softmax (x : tensor4) : option tensor4 :=
  let H := size2 x in
  let W := size3 x in
  let numel := length (flatten4 x) in
  (* x.view(x.shape[0], x.shape[1], -1) *)
  n <- infer_dim numel (size0 x * size1 x) ;;
  let x_collapsed := view3 (size0 x) (size1 x) n (flatten4 x) in
  let x_soft := map2d softmax1 x_collapsed in
  (* .view(-1, x.shape[1], H, W) *)
  b <- infer_dim numel (size1 x * H * W) ;;
  Some (view4 b (size1 x) H W (flatten3 x_soft)).

(* ------------------------------------------------------------------ *)
(** ** [SoftArgMax] (general_models.py) *)

(** A number that may have left the finite range: [NonFinite] stands for the
    [nan] and [inf] values that a division by zero produces and that every
    later product or sum carries along. *)
Inductive xreal : Type :=
  | Finite (r : R)
  | NonFinite.

Definition xmul (a b : xreal) : xreal :=
  match a, b with
  | Finite x, Finite y => Finite (x * y)
  | _, _ => NonFinite
  end.

Definition xadd (a b : xreal) : xreal :=
  match a, b with
  | Finite x, Finite y => Finite (x + y)
  | _, _ => NonFinite
  end.

Definition xsum (l : list xreal) : xreal := fold_right xadd (Finite 0) l.

(** An integer tensor entry divided by a Python integer (true division). *)
Definition div_int (v d : Z) : xreal :=
  if (d =? 0)%Z then NonFinite else Finite (IZR v / IZR d).

Definition arange (n : nat) : list Z := map Z.of_nat (seq 0 n).

Definition tile2 {A : Type} (r0 r1 : nat) (x : list (list A)) : list (list A) :=
  tile_dim r0 (map (tile_dim r1) x).

(** Each row holds its row index over [H - 1]. *)
Definition height_tensor (H W : nat) : list (list xreal) :=
  let height_values := map (fun v => [v]) (arange H) in
  map2d (fun v => div_int v (Z.of_nat H - 1)) (tile2 1 W height_values).

(** Each column holds its column index over [W - 1]. *)
Definition width_tensor (H W : nat) : list (list xreal) :=
  let width_values := [arange W] in
  map2d (fun v => div_int v (Z.of_nat W - 1)) (tile2 H 1 width_values).

(** [x_prob * weights]: the [H x W] weights broadcast over batch and channel. *)
Definition mul_weights (x_prob : tensor4) (weights : list (list xreal)) :
  option (list (list (list (list xreal)))) :=
  mapM (mapM (fun m =>
    bzip (bzip (fun p t => Some (xmul (Finite p) t))) m weights)) x_prob.

(** [t.sum((2, 3))]. *)
Definition xsum23 (t : list (list (list (list xreal)))) : list (list xreal) :=
  map2d (fun m => xsum (flatten2 m)) t.

(** [torch.cat((a.unsqueeze(-1), b.unsqueeze(-1)), dim=-1)] on [B x C] tensors. *)
Definition cat_pairs (a b : list (list xreal)) : option (list (list (list xreal))) :=
  zipM (zipM (fun u v => Some ([u] ++ [v]))) a b.

(** The argument of [SoftArgMax.forward]: a 3-D or a 4-D tensor. *)
Inductive heatmaps : Type :=
  | Maps1D (x : tensor3)
  | Maps2D (x : tensor4).

(** [x.unsqueeze(-1)] on a 3-D tensor. *)
Definition unsqueeze_last (x : tensor3) : tensor4 :=
  map (map (map (fun v => [v]))) x.

Definition SoftArgMax_forward (x : heatmaps) (apply_softmax : bool) :
  option (list (list (list xreal))) :=
  let '(dim1, x) :=
    match x with
    | Maps1D x => (true, unsqueeze_last x)
    | Maps2D x => (false, x)
    end in
  let H := size2 x in
  let W := size3 x in
  x_prob <- (if apply_softmax then spacial_softmax x else Some x) ;;
  let height_tensor := height_tensor H W in
  let width_tensor := width_tensor H W in
  height_out <- option_map xsum23 (mul_weights x_prob height_tensor) ;;
  width_out <- option_map xsum23 (mul_weights x_prob width_tensor) ;;
  out <- cat_pairs width_out height_out ;;
  if dim1 then Some (map2d (fun e => [nth 1 e NonFinite]) out)
  else Some out.

(* ------------------------------------------------------------------ *)
(** ** [nn.MaxPool2d] and [MaxPlusMinPooling] (general_models.py) *)

(** Maximum and minimum of a non-empty list ([0] on the empty list, which no
    pooling window is). *)
Definition rmax_list (l : list R) : R :=
  match l with
  | [] => 0%R
  | a :: t => fold_left Rmax t a
  end.

Definition rmin_list (l : list R) : R :=
  match l with
  | [] => 0%R
  | a :: t => fold_left Rmin t a
  end.

(** Number of window positions along a dimension of size [n]. *)
Definition pool_out (n k s p : nat) : option nat :=
  if n + 2 * p <? k then None else Some ((n + 2 * p - k) / s + 1).

(** The cells of [l] under window number [i]: positions
    [i * s - p, ..., i * s - p + k - 1] that fall inside [l].  The padding
    cells hold minus infinity for a maximum, so they are left out. *)
Definition window {A : Type} (k s p i : nat) (l : list A) : list A :=
  flat_map (fun d =>
    let r := i * s + d in
    if p <=? r then
      match nth_error l (r - p) with
      | Some a => [a]
      | None => []
      end
    else []) (seq 0 k).

(** The cells of a channel map under the window at output position [(i, j)]. *)
Definition window_cells (k s p : nat) (m : tensor2) (i j : nat) : list R :=
  flatten2 (map (window k s p j) (window k s p i m)).

(** A pooling layer on one channel map, [red] reducing each window. *)
Definition pool2d (red : list R -> R) (k s p : nat) (m : tensor2) : option tensor2 :=
  let H := length m in
  let W := length (hd [] m) in
  _ <- guard ((1 <=? k) && (1 <=? s) && (p <=? k / 2) && (1 <=? H) && (1 <=? W)) ;;
  oh <- pool_out H k s p ;;
  ow <- pool_out W k s p ;;
  Some (map (fun i => map (fun j => red (window_cells k s p m i j)) (seq 0 ow))
            (seq 0 oh)).

Definition pool4d (red : list R -> R) (k s p : nat) (x : tensor4) : option tensor4 :=
  mapM (fun xb =>
    _ <- guard (1 <=? length xb) ;;
    mapM (pool2d red k s p) xb) x.

(** [nn.MaxPool2d(kernel_size, stride, padding=padding)]. *)
Record MaxPool2d : Type := {
  mp_kernel_size : nat;
  mp_stride : nat;
  mp_padding : nat
}.

Definition MaxPool2d_forward (self : MaxPool2d) : tensor4 -> option tensor4 :=
  pool4d rmax_list (mp_kernel_size self) (mp_stride self) (mp_padding self).

(** Broadcasting element-wise sum and difference of 4-D tensors. *)
Definition bop1 (f : R -> R -> R) : tensor1 -> tensor1 -> option tensor1 :=
  bzip (fun x y => Some (f x y)).
Definition bop2 (f : R -> R -> R) : tensor2 -> tensor2 -> option tensor2 :=
  bzip (bop1 f).
Definition bop3 (f : R -> R -> R) : tensor3 -> tensor3 -> option tensor3 :=
  bzip (bop2 f).
Definition bop4 (f : R -> R -> R) : tensor4 -> tensor4 -> option tensor4 :=
  bzip (bop3 f).

Definition add4 : tensor4 -> tensor4 -> option tensor4 := bop4 Rplus.
Definition sub4 : tensor4 -> tensor4 -> option tensor4 := bop4 Rminus.
Definition sub2 : tensor2 -> tensor2 -> option tensor2 := bop2 Rminus.

Record MaxPlusMinPooling : Type := {
  mpm_kernel_size : nat;
  mpm_stride : nat;
  mpm_maxpool : MaxPool2d;
  mpm_minpool : MaxPool2d
}.

(** [MaxPlusMinPooling.__init__(kernel_size, stride=2, padding=0)]. *)
Definition MaxPlusMinPooling_init (kernel_size stride padding : nat) : MaxPlusMinPooling :=
  {| mpm_kernel_size := kernel_size;
     mpm_stride := stride;
     mpm_maxpool := {| mp_kernel_size := kernel_size; mp_stride := stride;
                       mp_padding := padding |};
     mpm_minpool := {| mp_kernel_size := kernel_size; mp_stride := stride;
                       mp_padding := padding |} |}.

Definition MaxPlusMinPooling_forward (self : MaxPlusMinPooling) (x : tensor4) :
  option tensor4 :=
  a <- MaxPool2d_forward (mpm_maxpool self) x ;;
  b <- MaxPool2d_forward (mpm_minpool self) (neg4 x) ;;
  sub4 a b.

(** Minimum pooling, the layer the max-plus-min closed form is stated with:
    the minimum over the cells of each window. *)
Definition MinPool2d_forward (self : MaxPool2d) : tensor4 -> option tensor4 :=
  pool4d rmin_list (mp_kernel_size self) (mp_stride self) (mp_padding self).

(* ------------------------------------------------------------------ *)
(** ** [GlobalMaxPlusMinPooling] (general_models.py) *)

(** [torch.amax] over a list; an empty reduction raises. *)
Definition amax_list (l : list R) : option R :=
  match l with
  | [] => None
  | a :: t => Some (fold_left Rmax t a)
  end.

(** [torch.amax(x, dim=(2, 3))]. *)
Definition amax23 (x : tensor4) : option tensor2 :=
  mapM (mapM (fun m => amax_list (flatten2 m))) x.

Definition GlobalMaxPlusMinPooling_forward (x : tensor4) : option tensor2 :=
  max_pool <- amax23 x ;;
  min_pool <- amax23 (neg4 x) ;;
  sub2 max_pool min_pool.

(* ------------------------------------------------------------------ *)
(** ** [nn.Conv2d], [nn.BatchNorm2d], [nn.ReLU] *)

Inductive padding_mode : Type :=
  | PadSame                    (* padding='same' *)
  | PadZeros (ph pw : nat).    (* padding=ph or (ph, pw) *)

(** A convolution layer: its configuration and its learned parameters
    ([weight] is [out_channels x in_channels/groups x kh x kw]). *)
Record Conv2d : Type := {
  in_channels : nat;
  out_channels : nat;
  kernel_size : nat * nat;
  stride : nat;
  padding : padding_mode;
  groups : nat;
  weight : tensor4;
  bias : tensor1
}.

(** Entry [(r, c)] of a channel map padded with [pt] rows above and [pl]
    columns to the left, zero outside the map. *)
Definition padded_at (m : tensor2) (pt pl r c : nat) : R :=
  if (pt <=? r) && (pl <=? c) then get2 m (r - pt) (c - pl) else 0%R.

(** Cross-correlation of one channel map with one kernel at output [(i, j)]. *)
Definition corr2d (ker m : tensor2) (kh kw s pt pl i j : nat) : R :=
  rsum (map (fun di =>
    rsum (map (fun dj =>
      (get2 ker di dj * padded_at m pt pl (i * s + di) (j * s + dj))%R)
      (seq 0 kw)))
    (seq 0 kh)).

(** Output size and leading padding along one dimension. *)
Definition conv_out (pad : padding_mode) (vertical : bool) (n k s : nat) :
  option (nat * nat) :=
  match pad with
  | PadSame =>
      _ <- guard ((s =? 1) && (1 <=? n)) ;; Some (n, (k - 1) / 2)
  | PadZeros ph pw =>
      let p := if vertical then ph else pw in
      if n + 2 * p <? k then None else Some ((n + 2 * p - k) / s + 1, p)
  end.

Definition Conv2d_forward (self : Conv2d) (x : tensor4) : option tensor4 :=
  let '(kh, kw) := kernel_size self in
  let g := groups self in
  let cin_g := in_channels self / g in
  let cout_g := out_channels self / g in
  _ <- guard ((1 <=? g) && (in_channels self mod g =? 0)
              && (out_channels self mod g =? 0)
              && (1 <=? kh) && (1 <=? kw) && (1 <=? stride self)) ;;
  _ <- guard (forallb (fun xb => length xb =? in_channels self) x) ;;
  match x with
  | [] => Some []
  | _ =>
    '(oh, pt) <- conv_out (padding self) true (size2 x) kh (stride self) ;;
    '(ow, pl) <- conv_out (padding self) false (size3 x) kw (stride self) ;;
    Some (map (fun xb =>
      map (fun o =>
        let ins := firstn cin_g (skipn (o / cout_g * cin_g) xb) in
        map (fun i =>
          map (fun j =>
            (get1 (bias self) o +
             rsum (map (fun c =>
               corr2d (nth c (nth o (weight self) []) []) (nth c ins [])
                      kh kw (stride self) pt pl i j)
               (seq 0 cin_g)))%R)
            (seq 0 ow))
          (seq 0 oh))
        (seq 0 (out_channels self)))
      x)
  end.

Record BatchNorm2d : Type := {
  num_features : nat;
  eps : R;
  bn_weight : tensor1;
  bn_bias : tensor1;
  running_mean : tensor1;
  running_var : tensor1;
  training : bool
}.

(** All values of channel [c], over the batch and the channel map. *)
Definition channel_values (x : tensor4) (c : nat) : list R :=
  flat_map (fun xb => flatten2 (nth c xb [])) x.

Definition mean (l : list R) : R := (rsum l / INR (length l))%R.

(** Biased variance, as batch normalisation uses it. *)
Definition variance (l : list R) : R :=
  let mu := mean l in
  (rsum (map (fun v => (v - mu) * (v - mu)) l) / INR (length l))%R.

(** The value returned by [nn.BatchNorm2d]: batch statistics when training,
    running statistics otherwise.  (The update of the running statistics
    when training is a write to buffers that the returned tensor does not
    depend on.) *)
Definition BatchNorm2d_forward (self : BatchNorm2d) (x : tensor4) : option tensor4 :=
  _ <- guard (forallb (fun xb => length xb =? num_features self) x) ;;
  _ <- guard (negb (training self) ||
              negb (length x * (size2 x * size3 x) =? 1)) ;;
  Some (map (fun xb =>
    map (fun '(c, m) =>
      let mu := if training self then mean (channel_values x c)
                else get1 (running_mean self) c in
      let var := if training self then variance (channel_values x c)
                 else get1 (running_var self) c in
      map2d (fun v =>
        ((v - mu) / sqrt (var + eps self) * get1 (bn_weight self) c
         + get1 (bn_bias self) c)%R) m)
      (combine (seq 0 (length xb)) xb))
    x).

(** [nn.ReLU]. *)
Definition relu : tensor4 -> tensor4 := map4d (Rmax 0).

(** The parameters a constructor would initialise. *)
Record conv_params : Type := {
  cp_weight : tensor4;
  cp_bias : tensor1
}.

Record bn_params : Type := {
  bp_weight : tensor1;
  bp_bias : tensor1;
  bp_running_mean : tensor1;
  bp_running_var : tensor1;
  bp_training : bool
}.

(** [nn.Conv2d(in_channels, out_channels, kernel_size, stride, padding, groups)]. *)
Definition Conv2d_init (n_in n_out : nat) (k : nat * nat) (s : nat)
           (pad : padding_mode) (g : nat) (p : conv_params) : Conv2d :=
  {| in_channels := n_in; out_channels := n_out; kernel_size := k;
     stride := s; padding := pad; groups := g;
     weight := cp_weight p; bias := cp_bias p |}.

(** [nn.BatchNorm2d(num_features)], with the default [eps = 1e-5]. *)
Definition BatchNorm2d_init (n : nat) (p : bn_params) : BatchNorm2d :=
  {| num_features := n; eps := (1 / 100000)%R;
     bn_weight := bp_weight p; bn_bias := bp_bias p;
     running_mean := bp_running_mean p; running_var := bp_running_var p;
     training := bp_training p |}.

(** A kernel size given as one integer. *)
Definition square (k : nat) : nat * nat := (k, k).

(* ------------------------------------------------------------------ *)
(** ** [ConvBlock], [SCBlock], [SRBlock] (general_models.py) *)

Record ConvBlock : Type := {
  cb_conv : Conv2d;
  cb_batch_norm : BatchNorm2d
}.

Definition ConvBlock_init (input_dim output_dim : nat) (kernel_size : nat * nat)
           (stride : nat) (padding : padding_mode)
           (p : conv_params * bn_params) : ConvBlock :=
  {| cb_conv := Conv2d_init input_dim output_dim kernel_size stride padding 1 (fst p);
     cb_batch_norm := BatchNorm2d_init output_dim (snd p) |}.

Definition ConvBlock_forward (self : ConvBlock) (x : tensor4) : option tensor4 :=
  out <- Conv2d_forward (cb_conv self) x ;;
  out <- BatchNorm2d_forward (cb_batch_norm self) out ;;
  Some (relu out).

Record SCBlock : Type := {
  sc_n_in : nat;
  sc_n_out : nat;
  sc_include_batch_relu : bool;
  sc_depthwise_conv : Conv2d;
  sc_pointwise_conv : Conv2d;
  sc_batch_norm : BatchNorm2d
}.

Record SCBlock_params : Type := {
  scp_depthwise : conv_params;
  scp_pointwise : conv_params;
  scp_batch_norm : bn_params
}.

Definition SCBlock_init (n_in n_out s : nat) (include_batch_relu : bool)
           (p : SCBlock_params) : SCBlock :=
  {| sc_n_in := n_in;
     sc_n_out := n_out;
     sc_include_batch_relu := include_batch_relu;
     sc_depthwise_conv :=
       Conv2d_init n_in n_in (square s) 1 PadSame n_in (scp_depthwise p);
     sc_pointwise_conv :=
       Conv2d_init n_in n_out (square 1) 1 (PadZeros 0 0) 1 (scp_pointwise p);
     sc_batch_norm := BatchNorm2d_init n_out (scp_batch_norm p) |}.

Definition SCBlock_forward (self : SCBlock) (x : tensor4) : option tensor4 :=
  out <- Conv2d_forward (sc_depthwise_conv self) x ;;
  out <- Conv2d_forward (sc_pointwise_conv self) out ;;
  if sc_include_batch_relu self then
    out <- BatchNorm2d_forward (sc_batch_norm self) out ;;
    Some (relu out)
  else Some out.

Record SRBlock : Type := {
  sr_n_in : nat;
  sr_n_out : nat;
  sr_include_batch_relu : bool;
  sr_conv : Conv2d;
  sr_sc : SCBlock;
  sr_batch_norm : BatchNorm2d
}.

Record SRBlock_params : Type := {
  srp_conv : conv_params;
  srp_sc : SCBlock_params;
  srp_batch_norm : bn_params
}.

Definition SRBlock_init (n_in n_out s : nat) (include_batch_relu : bool)
           (p : SRBlock_params) : SRBlock :=
  {| sr_n_in := n_in;
     sr_n_out := n_out;
     sr_include_batch_relu := include_batch_relu;
     sr_conv := Conv2d_init n_in n_out (square 1) 1 (PadZeros 0 0) 1 (srp_conv p);
     sr_sc := SCBlock_init n_in n_out s true (srp_sc p);
     sr_batch_norm := BatchNorm2d_init n_out (srp_batch_norm p) |}.

Definition SRBlock_forward (self : SRBlock) (x : tensor4) : option tensor4 :=
  out1 <- Conv2d_forward (sr_conv self) x ;;
  if sr_n_in self =? sr_n_out self then
    out <- add4 x out1 ;;
    if sr_include_batch_relu self then
      out <- BatchNorm2d_forward (sr_batch_norm self) out ;;
      let out := relu out1 in
      Some out
    else Some out
  else
    out2 <- SCBlock_forward (sr_sc self) x ;;
    out <- add4 out1 out2 ;;
    if sr_include_batch_relu self then
      out <- BatchNorm2d_forward (sr_batch_norm self) out ;;
      let out := relu out in
      Some out
    else Some out.

(* ------------------------------------------------------------------ *)
(** ** Further layers of the numeric framework *)

(** [torch.cat((a, b), dim=1)]: the batch and the spatial sizes must agree. *)
Definition cat_dim1 (a b : tensor4) : option tensor4 :=
  _ <- guard ((size2 a =? size2 b) && (size3 a =? size3 b)) ;;
  zipM (fun xa xb => Some (xa ++ xb)) a b.

(** [nn.Upsample(scale_factor=2, mode='nearest')]. *)
Definition upsample_row {A : Type} (l : list A) : list A :=
  flat_map (fun v => [v; v]) l.
Definition Upsample_forward (x : tensor4) : tensor4 :=
  map (map (fun m => upsample_row (map upsample_row m))) x.

(** [nn.Softmax()] without a dimension: dimension 1 of a 2-D tensor,
    dimension 0 of a 1-D tensor. *)
Definition Softmax_forward2 (x : tensor2) : tensor2 := map softmax1 x.
Definition Softmax_forward1 (x : tensor1) : tensor1 := softmax1 x.

(** [nn.Linear]: [weight] is [out_features x in_features]. *)
Record Linear : Type := {
  in_features : nat;
  out_features : nat;
  lin_weight : tensor2;
  lin_bias : tensor1
}.

Definition dot (u v : tensor1) : R := rsum (map (fun '(a, b) => (a * b)%R) (combine u v)).

Definition Linear_forward (self : Linear) (x : tensor1) : option tensor1 :=
  _ <- guard (length x =? in_features self) ;;
  Some (map (fun i => (dot (nth i (lin_weight self) []) x + get1 (lin_bias self) i)%R)
            (seq 0 (out_features self))).

(** A 4-D tensor plus a Python number. *)
Definition add_scalar4 (x : tensor4) (s : R) : tensor4 := map4d (fun v => (v + s)%R) x.

(* ------------------------------------------------------------------ *)
(** ** [ActionStart] (action_recognition.py) *)

Abbreviation ConvBlock_params := (conv_params * bn_params)%type.

Record ActionStart : Type := {
  as_pose_rec : bool;
  as_dim : nat;
  as_conv_left1 : ConvBlock;
  as_conv_middle1 : ConvBlock;
  as_conv_right1 : ConvBlock;
  as_conv_left2 : ConvBlock;
  as_conv_right2 : ConvBlock * ConvBlock;   (* nn.Sequential of two blocks *)
  as_maxplusmin : MaxPlusMinPooling
}.

Record ActionStart_params : Type := {
  asp_left1 : ConvBlock_params;
  asp_middle1 : ConvBlock_params;
  asp_right1 : ConvBlock_params;
  asp_left2 : ConvBlock_params;
  asp_right2a : ConvBlock_params;
  asp_right2b : ConvBlock_params
}.

Definition ActionStart_init (pose_rec : bool) (p : ActionStart_params) : ActionStart :=
  let dim := if pose_rec then 3 else 576 in
  if pose_rec then
    {| as_pose_rec := pose_rec;
       as_dim := dim;
       as_conv_left1 := ConvBlock_init dim 6 (3, 1) 1 PadSame (asp_left1 p);
       as_conv_middle1 := ConvBlock_init dim 12 (square 3) 1 PadSame (asp_middle1 p);
       as_conv_right1 := ConvBlock_init dim 18 (3, 5) 1 PadSame (asp_right1 p);
       as_conv_left2 := ConvBlock_init 36 56 (square 3) 1 PadSame (asp_left2 p);
       as_conv_right2 :=
         (ConvBlock_init 36 32 (square 1) 1 PadSame (asp_right2a p),
          ConvBlock_init 32 56 (square 3) 1 PadSame (asp_right2b p));
       as_maxplusmin := MaxPlusMinPooling_init 2 2 0 |}
  else
    {| as_pose_rec := pose_rec;
       as_dim := dim;
       as_conv_left1 := ConvBlock_init dim 12 (3, 1) 1 PadSame (asp_left1 p);
       as_conv_middle1 := ConvBlock_init dim 24 (square 3) 1 PadSame (asp_middle1 p);
       as_conv_right1 := ConvBlock_init dim 36 (3, 5) 1 PadSame (asp_right1 p);
       as_conv_left2 := ConvBlock_init 72 112 (square 3) 1 PadSame (asp_left2 p);
       as_conv_right2 :=
         (ConvBlock_init 72 64 (square 1) 1 PadSame (asp_right2a p),
          ConvBlock_init 64 112 (square 3) 1 PadSame (asp_right2b p));
       as_maxplusmin := MaxPlusMinPooling_init 2 2 0 |}.

(** The [print] calls of the forward passes write to standard output only and
    are left out. *)
Definition ActionStart_forward (self : ActionStart) (x : tensor4) : option tensor4 :=
  out_left <- ConvBlock_forward (as_conv_left1 self) x ;;
  out_middle <- ConvBlock_forward (as_conv_middle1 self) x ;;
  out_right <- ConvBlock_forward (as_conv_right1 self) x ;;
  out <- (lm <- cat_dim1 out_left out_middle ;; cat_dim1 lm out_right) ;;
  out_left1 <- ConvBlock_forward (as_conv_left2 self) out ;;
  out_right1 <- (t <- ConvBlock_forward (fst (as_conv_right2 self)) out ;;
                 ConvBlock_forward (snd (as_conv_right2 self)) t) ;;
  out1 <- cat_dim1 out_left1 out_right1 ;;
  out1 <- MaxPlusMinPooling_forward (as_maxplusmin self) out1 ;;
  Some out1.

(* ------------------------------------------------------------------ *)
(** ** [ActionBlock] (action_recognition.py) *)

Record ActionBlock : Type := {
  ab_N_a : nat;
  ab_conv1 : ConvBlock;
  ab_conv2 : ConvBlock;
  ab_conv3 : ConvBlock;
  ab_maxplusmin : MaxPlusMinPooling;
  ab_conv4 : ConvBlock;
  ab_conv5 : ConvBlock
}.

Record ActionBlock_params : Type := {
  abp_conv1 : ConvBlock_params;
  abp_conv2 : ConvBlock_params;
  abp_conv3 : ConvBlock_params;
  abp_conv4 : ConvBlock_params;
  abp_conv5 : ConvBlock_params
}.

Definition ActionBlock_init (pose_rec : bool) (N_a : nat) (p : ActionBlock_params) :
  ActionBlock :=
  let dim := if pose_rec then 112 else 224 in
  {| ab_N_a := N_a;
     ab_conv1 := ConvBlock_init dim (dim / 2) (square 1) 1 PadSame (abp_conv1 p);
     ab_conv2 := ConvBlock_init (dim / 2) dim (square 3) 1 PadSame (abp_conv2 p);
     ab_conv3 := ConvBlock_init dim dim (square 3) 1 PadSame (abp_conv3 p);
     ab_maxplusmin := MaxPlusMinPooling_init 2 2 0;
     ab_conv4 := ConvBlock_init dim N_a (square 3) 1 PadSame (abp_conv4 p);
     ab_conv5 := ConvBlock_init N_a dim (square 3) 1 PadSame (abp_conv5 p) |}.

Definition ActionBlock_forward (self : ActionBlock) (x : tensor4) :
  option (tensor2 * tensor4) :=
  out <- (t <- ConvBlock_forward (ab_conv1 self) x ;;
          ConvBlock_forward (ab_conv2 self) t) ;;
  out <- add4 x out ;;
  out1 <- ConvBlock_forward (ab_conv3 self) out ;;
  out2 <- MaxPlusMinPooling_forward (ab_maxplusmin self) out1 ;;
  heatmaps <- ConvBlock_forward (ab_conv4 self) out2 ;;
  let out2 := Upsample_forward heatmaps in
  out2 <- ConvBlock_forward (ab_conv5 self) out2 ;;
  out2 <- add4 out2 out1 ;;
  out <- add4 out out2 ;;
  actions <- GlobalMaxPlusMinPooling_forward heatmaps ;;
  let actions := Softmax_forward2 actions in
  Some (actions, out).

(* ------------------------------------------------------------------ *)
(** ** [ActionCombined] (action_recognition.py) *)

Record ActionCombined : Type := {
  ac_N_a : nat;
  ac_K : nat;
  ac_action_start : ActionStart;
  ac_action_blocks : list ActionBlock
}.

Definition ActionCombined_init (pose_rec : bool) (N_a K : nat)
           (p_start : ActionStart_params) (p_block : nat -> ActionBlock_params) :
  ActionCombined :=
  {| ac_N_a := N_a;
     ac_K := K;
     ac_action_start := ActionStart_init pose_rec p_start;
     ac_action_blocks :=
       map (fun i => ActionBlock_init pose_rec N_a (p_block i)) (seq 0 K) |}.

(** What [prev_out] holds: the Python number it starts as, or a tensor. *)
Inductive operand : Type :=
  | Number (r : R)
  | Tensor (t : tensor4).

(** [out + prev_out]. *)
Definition add_operand (out : tensor4) (prev_out : operand) : option tensor4 :=
  match prev_out with
  | Number r => Some (add_scalar4 out r)
  | Tensor t => add4 out t
  end.

(** The value of an assignment [row[...] = value] where [row] has [n]
    entries and [value] is 2-D: leading dimensions of size 1 are dropped and
    the rest is expanded to [n] entries. *)
Definition expand_row (n : nat) (value : tensor2) : option tensor1 :=
  match value with
  | [row] =>
      if length row =? n then Some row
      else match row with
           | [v] => Some (repeat v n)
           | _ => None
           end
  | _ => None
  end.

Definition set_nth {A : Type} (k : nat) (v : A) (l : list A) : list A :=
  firstn k l ++ v :: skipn (S k) l.

(** [all_actions[k] = actions]. *)
Definition setitem_row (all_actions : tensor2) (k : nat) (actions : tensor2) :
  option tensor2 :=
  _ <- guard (k <? length all_actions) ;;
  row <- expand_row (length (nth k all_actions [])) actions ;;
  Some (set_nth k row all_actions).

(** The sub-module calls of one forward pass, in the order they are made. *)
Inductive call : Type :=
  | Call_action_start (x : tensor4)
  | Call_action_block (k : nat) (input : tensor4).

(** The variables of the loop of [ActionCombined.forward], with the calls
    made so far. *)
Record loop_state : Type := {
  ls_all_actions : tensor2;
  ls_prev_out : operand;
  ls_out : tensor4;
  ls_calls : list call
}.

Fixpoint foldM {S A : Type} (f : S -> A -> option S) (l : list A) (s : S) : option S :=
  match l with
  | [] => Some s
  | a :: t => s' <- f s a ;; foldM f t s'
  end.

Definition enumerate {A : Type} (l : list A) : list (nat * A) :=
  combine (seq 0 (length l)) l.

Definition loop_body (st : loop_state) (kb : nat * ActionBlock) : option loop_state :=
  let '(k, block) := kb in
  input <- add_operand (ls_out st) (ls_prev_out st) ;;
  '(actions, new_out) <- ActionBlock_forward block input ;;
  let prev_out := Tensor (ls_out st) in
  let out := new_out in
  all_actions <- setitem_row (ls_all_actions st) k actions ;;
  Some {| ls_all_actions := all_actions;
          ls_prev_out := prev_out;
          ls_out := out;
          ls_calls := ls_calls st ++ [Call_action_block k input] |}.

(** [ActionCombined.forward], returning the calls it made besides its result. *)
Definition ActionCombined_forward_calls (self : ActionCombined) (x : tensor4) :
  option (tensor2 * tensor4 * list call) :=
  let all_actions := repeat (repeat 0%R (ac_N_a self)) (ac_K self) in
  out <- ActionStart_forward (ac_action_start self) x ;;
  let prev_out := Number 0 in
  st <- foldM loop_body (enumerate (ac_action_blocks self))
          {| ls_all_actions := all_actions;
             ls_prev_out := prev_out;
             ls_out := out;
             ls_calls := [Call_action_start x] |} ;;
  Some (ls_all_actions st, ls_out st, ls_calls st).

Definition ActionCombined_forward (self : ActionCombined) (x : tensor4) :
  option (tensor2 * tensor4) :=
  option_map fst (ActionCombined_forward_calls self x).

(* ------------------------------------------------------------------ *)
(** ** [appearance_extract] and [ActionRecognition] (action_recognition.py) *)

Abbreviation tensor6 := (list (list (list (list (list (list R)))))).

Definition tile6 (r0 r1 r2 r3 r4 r5 : nat) (x : tensor6) : tensor6 :=
  tile_dim r0 (map (tile5 r1 r2 r3 r4 r5) x).

Definition mul6 : tensor6 -> tensor6 -> option tensor6 := bzip mul5.

(** [kronecker_prod] on 5-D arguments, the rank at which the appearance
    branch hands a 4-D tensor to its action blocks: the negative dimension
    indices count from the end, and a five-entry [tile] of a 6-D tensor
    leaves its first dimension alone. *)
Definition kronecker_prod5 (a b : tensor5) : option tensor6 :=
  let C1 := size2 a in
  let C2 := size2 b in
  let a : tensor6 := map (map (map (fun m => [m]))) a in   (* a.unsqueeze(-3) *)
  let b : tensor6 := map (map (fun bn => [bn])) b in       (* b.unsqueeze(-4) *)
  let a := tile6 1 1 1 C2 1 1 a in
  let b := tile6 1 1 C1 1 1 1 b in
  mul6 a b.

Definition appearance_extract (entry_input prob_maps : tensor5) : option tensor4 :=
  out <- kronecker_prod5 entry_input prob_maps ;;
  (* torch.sum(out, dim=(-2, -1)) *)
  let out := map4d sum2 out in
  Some out.

Record ActionRecognition : Type := {
  ar_N_a : nat;
  ar_K : nat;
  ar_pose_rec : ActionCombined;
  ar_action_rec : ActionCombined;
  ar_fc : Linear
}.

Record ActionRecognition_params : Type := {
  arp_pose_start : ActionStart_params;
  arp_pose_block : nat -> ActionBlock_params;
  arp_action_start : ActionStart_params;
  arp_action_block : nat -> ActionBlock_params;
  arp_fc_weight : tensor2;
  arp_fc_bias : tensor1
}.

(** [ActionRecognition.__init__(N_a, K=4)]. *)
Definition ActionRecognition_init (N_a K : nat) (p : ActionRecognition_params) :
  ActionRecognition :=
  {| ar_N_a := N_a;
     ar_K := K;
     ar_pose_rec := ActionCombined_init true N_a K (arp_pose_start p) (arp_pose_block p);
     ar_action_rec :=
       ActionCombined_init false N_a K (arp_action_start p) (arp_action_block p);
     ar_fc := {| in_features := 2 * N_a; out_features := N_a;
                 lin_weight := arp_fc_weight p; lin_bias := arp_fc_bias p |} |}.

(** [t[-1]] on the first dimension. *)
Definition last_row {A : Type} (t : list A) : option A :=
  match rev t with
  | [] => None
  | r :: _ => Some r
  end.

Definition ActionRecognition_forward (self : ActionRecognition)
           (pose_input : tensor4) (entry_input prob_maps : tensor5) : option tensor1 :=
  appearance_input <- appearance_extract entry_input prob_maps ;;
  '(pose_actions, pose_out) <- ActionCombined_forward (ar_pose_rec self) pose_input ;;
  '(appearance_actions, appearance_out) <-
     ActionCombined_forward (ar_action_rec self) appearance_input ;;
  pose_last <- last_row pose_actions ;;
  appearance_last <- last_row appearance_actions ;;
  let fc_input := pose_last ++ appearance_last in
  out <- Linear_forward (ar_fc self) fc_input ;;
  Some (Softmax_forward1 out).

(* ------------------------------------------------------------------ *)
(** ** Specification predicates *)

(** The element-wise product of two tensors of one shape has that shape and
    the products as entries. *)
Definition prod1 (n : nat) (x y z : tensor1) : Prop :=
  shape1 n z /\ forall i, i < n -> get1 z i = (get1 x i * get1 y i)%R.
Definition prod2 (n m : nat) (x y z : tensor2) : Prop :=
  shape2 n m z /\
  forall i j, i < n -> j < m -> get2 z i j = (get2 x i j * get2 y i j)%R.
Definition prod3 (c h w : nat) (x y z : tensor3) : Prop :=
  shape3 c h w z /\
  forall i j k, i < c -> j < h -> k < w ->
    get3 z i j k = (get3 x i j k * get3 y i j k)%R.
Definition prod4 (b c h w : nat) (x y z : tensor4) : Prop :=
  shape4 b c h w z /\
  forall n i j k, n < b -> i < c -> j < h -> k < w ->
    get4 z n i j k = (get4 x n i j k * get4 y n i j k)%R.
Definition prod5 (b c d h w : nat) (x y z : tensor5) : Prop :=
  shape5 b c d h w z /\
  forall n i j k l, n < b -> i < c -> j < d -> k < h -> l < w ->
    get5 z n i j k l = (get5 x n i j k l * get5 y n i j k l)%R.



(** Every item of a 3-D array is [d1 x d2]. *)
Definition uniform3 {A : Type} (d1 d2 : nat) (t : list (list (list A))) : Prop :=
  Forall (fun tb => length tb = d1 /\ Forall (fun r => length r = d2) tb) t.

(** The sum over all [(h, w)] of [m[h, w] * wt h w], in the reals and in the
    numbers that may be non-finite. *)
Definition weighted_sum (H W : nat) (m : tensor2) (wt : nat -> nat -> R) : R :=
  rsum (map (fun h =>
    rsum (map (fun w => (get2 m h w * wt h w)%R) (seq 0 W))) (seq 0 H)).

Definition xweighted_sum (H W : nat) (m : tensor2) (wt : nat -> nat -> xreal) : xreal :=
  xsum (map (fun h =>
    xsum (map (fun w => xmul (Finite (get2 m h w)) (wt h w)) (seq 0 W))) (seq 0 H)).

(** The divisors of the two weight tensors of [SoftArgMax.forward]:
    [H - 1] and [W - 1] of the (unsqueezed) input. *)
Definition SoftArgMax_divisors (x : heatmaps) : Z * Z :=
  let x := match x with
           | Maps1D x => unsqueeze_last x
           | Maps2D x => x
           end in
  ((Z.of_nat (size2 x) - 1)%Z, (Z.of_nat (size3 x) - 1)%Z).

(** The shape of the argument of [SoftArgMax.forward]: [B x C x H] with
    the width [W = 1] that the added dimension has, or [B x C x H x W]. *)
Definition heatmaps_shape (x : heatmaps) (B C H W : nat) : Prop :=
  match x with
  | Maps1D x => shape3 B C H x /\ W = 1
  | Maps2D x => shape4 B C H W x
  end.

(* ------------------------------------------------------------------ *)
(** ** Sample parameters, for the concrete instances *)

(** One [1 x 1] kernel of weight 1 on one channel, no bias. *)
Definition unit_conv_params : conv_params :=
  {| cp_weight := [[[[1%R]]]]; cp_bias := [0%R] |}.

(** One-channel batch normalisation in evaluation mode with the initial
    statistics. *)
Definition eval_bn_params : bn_params :=
  {| bp_weight := [1%R]; bp_bias := [0%R];
     bp_running_mean := [0%R]; bp_running_var := [1%R];
     bp_training := false |}.

Definition unit_SCBlock_params : SCBlock_params :=
  {| scp_depthwise := unit_conv_params;
     scp_pointwise := unit_conv_params;
     scp_batch_norm := eval_bn_params |}.

Definition unit_SRBlock_params : SRBlock_params :=
  {| srp_conv := unit_conv_params;
     srp_sc := unit_SCBlock_params;
     srp_batch_norm := eval_bn_params |}.

Definition unit_ConvBlock_params : ConvBlock_params :=
  (unit_conv_params, eval_bn_params).

Definition unit_ActionStart_params : ActionStart_params :=
  {| asp_left1 := unit_ConvBlock_params;
     asp_middle1 := unit_ConvBlock_params;
     asp_right1 := unit_ConvBlock_params;
     asp_left2 := unit_ConvBlock_params;
     asp_right2a := unit_ConvBlock_params;
     asp_right2b := unit_ConvBlock_params |}.



(* ------------------------------------------------------------------ *)
(** ** The stacked architecture, stage by stage *)

(** The feature output of the stage before stage [j], where [feats] lists
    the feature outputs from stage 0 on and [first] is what precedes stage 0. *)
Definition prev_stage (first : operand) (feats : list tensor4) (j : nat) : operand :=
  match j with
  | 0 => first
  | S i => Tensor (nth i feats [])
  end.

(** The calls of blocks [k0, k0 + 1, ...] on the inputs [ins], in order. *)
Definition block_calls (k0 : nat) (ins : list tensor4) : list call :=
  map (fun j => Call_action_block (k0 + j) (nth j ins [])) (seq 0 (length ins)).

(** Every block of the list predicts [N_a] actions. *)
Definition predicts_N_a (N_a : nat) (blocks : list ActionBlock) : Prop :=
  forall blk input actions out,
    In blk blocks -> ActionBlock_forward blk input = Some (actions, out) ->
    Forall (fun r => length r = N_a) actions.

(** What the loop of [ActionCombined.forward] has done once it is through
    [blocks], started at index [k0] in state [st]: [feats], [ins] and [rows]
    are the feature outputs, the inputs and the action predictions of the
    blocks. *)
Definition loop_result (N_a K : nat) (blocks : list ActionBlock) (k0 : nat)
           (st st' : loop_state) (feats ins : list tensor4) (rows : tensor2) : Prop :=
  length feats = length blocks /\ length ins = length blocks /\
  length rows = length blocks /\
  Forall (fun r => length r = N_a) rows /\
  (forall j, j < length blocks -> k0 + j < K) /\
  (forall j blk, nth_error blocks j = Some blk ->
     add_operand (nth j (ls_out st :: feats) [])
                 (prev_stage (ls_prev_out st) (ls_out st :: feats) j)
       = Some (nth j ins []) /\
     ActionBlock_forward blk (nth j ins []) = Some ([nth j rows []], nth j feats [])) /\
  shape2 K N_a (ls_all_actions st') /\
  (forall i, nth i (ls_all_actions st') [] =
     if (k0 <=? i) && (i <? k0 + length blocks) then nth (i - k0) rows []
     else nth i (ls_all_actions st) []) /\
  ls_out st' = nth (length blocks) (ls_out st :: feats) [] /\
  ls_calls st' = ls_calls st ++ block_calls k0 ins.

(* ------------------------------------------------------------------ *)
(** ** States that differ in running statistics only *)







(** [M] is the largest (smallest) element of a list. *)
Definition list_max_is (l : list R) (M : R) : Prop :=
  In M l /\ forall v, In v l -> (v <= M)%R.

Definition list_min_is (l : list R) (m : R) : Prop :=
  In m l /\ forall v, In v l -> (m <= v)%R.

(* ------------------------------------------------------------------ *)
(** ** Inputs of the further properties *)


(** No entry of a 4-D tensor is negative. *)
Definition nonneg4 (y : tensor4) : Prop :=
  Forall (Forall (Forall (Forall (fun v => (0 <= v)%R)))) y.

(* ================================================================== *)
(** * Properties *)

(** Evaluation of a layer on a concrete tensor, leaving the real-number
    operations as they are. *)
Ltac compute_layers :=
  cbv -[Rplus Rmult Rminus Ropp Rdiv Rinv Rmax Rmin IZR INR sqrt exp].

(* ------------------------------------------------------------------ *)
(** ** Lists *)

Lemma nth_map_lt {A B : Type} (f : A -> B) (l : list A) (i : nat) (d : A) (d' : B) :
  i < length l -> nth i (map f l) d' = f (nth i l d).
Proof.
  revert i; induction l as [|a l IH]; intros [|i] Hi; simpl in *; try lia; auto.
  apply IH; lia.
Qed.

Lemma tile_dim_one {A : Type} (l : list A) : tile_dim 1 l = l.
Proof. unfold tile_dim; simpl; apply app_nil_r. Qed.

Lemma tile_dim_singleton {A : Type} (r : nat) (a : A) :
  tile_dim r [a] = repeat a r.
Proof. unfold tile_dim; induction r; simpl; congruence. Qed.

Lemma nth_repeat_lt {A : Type} (a d : A) (r i : nat) :
  i < r -> nth i (repeat a r) d = a.
Proof.
  revert i; induction r; intros [|i] Hi; simpl; try lia; auto.
  apply IHr; lia.
Qed.

Lemma Forall_nth_lt {A : Type} (P : A -> Prop) (l : list A) (i : nat) (d : A) :
  Forall P l -> i < length l -> P (nth i l d).
Proof. intros H Hi; rewrite Forall_forall in H; apply H, nth_In, Hi. Qed.

Lemma hd_nth0 {A : Type} (l : list A) (d : A) : hd d l = nth 0 l d.
Proof. destruct l; reflexivity. Qed.

(* ------------------------------------------------------------------ *)
(** ** Broadcasting on equal shapes *)

Section BzipSame.
Variables (X Y Z : Type) (f : X -> Y -> option Z).
Variables (P : X -> Prop) (Q : Y -> Prop) (S : X -> Y -> Z -> Prop).
Hypothesis f_ok : forall x y, P x -> Q y -> exists z, f x y = Some z /\ S x y z.

Lemma zipM_same (l1 : list X) (l2 : list Y) :
  length l1 = length l2 -> Forall P l1 -> Forall Q l2 ->
  exists l, zipM f l1 l2 = Some l /\ length l = length l1 /\
    forall i dx dy dz, i < length l1 ->
      S (nth i l1 dx) (nth i l2 dy) (nth i l dz).
Proof.
  revert l2; induction l1 as [|x l1 IH]; intros [|y l2] Hlen H1 H2;
    simpl in Hlen; try discriminate.
  - exists []; simpl; repeat split; intros; lia.
  - inversion H1 as [|? ? Hx H1']; inversion H2 as [|? ? Hy H2']; subst.
    destruct (f_ok _ _ Hx Hy) as (z & Hz & Sz).
    destruct (IH l2) as (l & Hl & Hlen' & Hnth); auto.
    exists (z :: l); simpl; rewrite Hz; simpl; rewrite Hl; simpl.
    repeat split; [lia|].
    intros [|i] dx dy dz Hi; simpl; auto. apply Hnth; lia.
Qed.

Lemma bzip_same (l1 : list X) (l2 : list Y) :
  length l1 = length l2 -> Forall P l1 -> Forall Q l2 ->
  exists l, bzip f l1 l2 = Some l /\ length l = length l1 /\
    forall i dx dy dz, i < length l1 ->
      S (nth i l1 dx) (nth i l2 dy) (nth i l dz).
Proof.
  intros Hlen H1 H2; unfold bzip.
  replace (length l1 =? length l2) with true by (symmetry; now apply Nat.eqb_eq).
  now apply zipM_same.
Qed.
End BzipSame.

Lemma Forall_of_nth {A : Type} (P : A -> Prop) (l : list A) (d : A) :
  (forall i, i < length l -> P (nth i l d)) -> Forall P l.
Proof.
  intros H; apply Forall_forall; intros x Hx.
  destruct (In_nth l x d Hx) as (i & Hi & <-); auto.
Qed.

Lemma mul1_same n x y :
  shape1 n x -> shape1 n y -> exists z, mul1 x y = Some z /\ prod1 n x y z.
Proof.
  intros Hx Hy; unfold shape1 in *.
  destruct (bzip_same R R R (fun a b => Some (a * b)%R)
              (fun _ => True) (fun _ => True) (fun a b c => c = (a * b)%R))
    with (l1 := x) (l2 := y) as (z & Hz & Hlen & Hnth).
  - intros a b _ _; eauto.
  - congruence.
  - apply Forall_forall; auto.
  - apply Forall_forall; auto.
  - exists z; split; [exact Hz|]. split; [unfold shape1; congruence|].
    intros i Hi; unfold get1; apply Hnth; lia.
Qed.

Lemma mul2_same n m x y :
  shape2 n m x -> shape2 n m y -> exists z, mul2 x y = Some z /\ prod2 n m x y z.
Proof.
  intros [Hx Fx] [Hy Fy].
  destruct (bzip_same _ _ _ mul1 (shape1 m) (shape1 m) (prod1 m)
              (mul1_same m) x y) as (z & Hz & Hlen & Hnth); auto; [congruence|].
  exists z; split; [exact Hz|]. split.
  - split; [congruence|]. apply Forall_of_nth with (d := []).
    intros i Hi; apply (Hnth i [] [] []); lia.
  - intros i j Hi Hj; unfold get2. apply (Hnth i [] [] []); lia.
Qed.

Lemma mul3_same c h w x y :
  shape3 c h w x -> shape3 c h w y ->
  exists z, mul3 x y = Some z /\ prod3 c h w x y z.
Proof.
  intros [Hx Fx] [Hy Fy].
  destruct (bzip_same _ _ _ mul2 (shape2 h w) (shape2 h w) (prod2 h w)
              (mul2_same h w) x y) as (z & Hz & Hlen & Hnth); auto; [congruence|].
  exists z; split; [exact Hz|]. split.
  - split; [congruence|]. apply Forall_of_nth with (d := []).
    intros i Hi; apply (Hnth i [] [] []); lia.
  - intros i j k Hi Hj Hk; unfold get3. apply (Hnth i [] [] []); lia.
Qed.

Lemma mul4_same b c h w x y :
  shape4 b c h w x -> shape4 b c h w y ->
  exists z, mul4 x y = Some z /\ prod4 b c h w x y z.
Proof.
  intros [Hx Fx] [Hy Fy].
  destruct (bzip_same _ _ _ mul3 (shape3 c h w) (shape3 c h w) (prod3 c h w)
              (mul3_same c h w) x y) as (z & Hz & Hlen & Hnth); auto; [congruence|].
  exists z; split; [exact Hz|]. split.
  - split; [congruence|]. apply Forall_of_nth with (d := []).
    intros i Hi; apply (Hnth i [] [] []); lia.
  - intros n i j k Hn Hi Hj Hk; unfold get4. apply (Hnth n [] [] []); lia.
Qed.

Lemma mul5_same b c d h w x y :
  shape5 b c d h w x -> shape5 b c d h w y ->
  exists z, mul5 x y = Some z /\ prod5 b c d h w x y z.
Proof.
  intros [Hx Fx] [Hy Fy].
  destruct (bzip_same _ _ _ mul4 (shape4 c d h w) (shape4 c d h w)
              (prod4 c d h w) (mul4_same c d h w) x y)
    as (z & Hz & Hlen & Hnth); auto; [congruence|].
  exists z; split; [exact Hz|]. split.
  - split; [congruence|]. apply Forall_of_nth with (d := []).
    intros i Hi; apply (Hnth i [] [] []); lia.
  - intros n i j k l Hn Hi Hj Hk Hl; unfold get5. apply (Hnth n [] [] []); lia.
Qed.

(* ------------------------------------------------------------------ *)
(** ** [kronecker_prod] *)

Lemma map_tile_dim_one {A : Type} (l : list (list A)) : map (tile_dim 1) l = l.
Proof.
  rewrite <- (map_id l) at 2; apply map_ext; intros; apply tile_dim_one.
Qed.

Lemma tile5_unsqueeze_m3 (a : tensor4) (C2 : nat) :
  tile5 1 1 C2 1 1 (unsqueeze_m3 a) = map (map (fun m => repeat m C2)) a.
Proof.
  unfold tile5, unsqueeze_m3; rewrite tile_dim_one, map_map.
  apply map_ext; intros x1; rewrite tile_dim_one, map_map.
  apply map_ext; intros m; simpl.
  now rewrite map_tile_dim_one, tile_dim_one, tile_dim_singleton.
Qed.

Lemma tile5_unsqueeze_m4 (b : tensor4) (C1 : nat) :
  tile5 1 C1 1 1 1 (unsqueeze_m4 b) = map (fun bn => repeat bn C1) b.
Proof.
  unfold tile5, unsqueeze_m4; rewrite tile_dim_one, map_map.
  apply map_ext; intros bn; simpl.
  rewrite tile_dim_one.
  replace (map _ bn) with bn; [apply tile_dim_singleton|].
  rewrite <- (map_id bn) at 1; apply map_ext; intros x3.
  now rewrite map_tile_dim_one, tile_dim_one.
Qed.

Lemma Forall_repeat {A : Type} (P : A -> Prop) (a : A) (n : nat) :
  P a -> Forall P (repeat a n).
Proof. intros; induction n; simpl; auto. Qed.

Lemma shape4_dim1 b c h w (x : tensor4) :
  shape4 b c h w x -> 0 < b -> size1 x = c.
Proof.
  intros [Hb F] Hpos; unfold size1; rewrite hd_nth0.
  apply (Forall_nth_lt _ _ 0 [] F); lia.
Qed.

Lemma shape4_nth b c h w (x : tensor4) n :
  shape4 b c h w x -> n < b -> shape3 c h w (nth n x []).
Proof. intros [Hb F] Hn; apply Forall_nth_lt; auto; lia. Qed.

Lemma shape3_nth c h w (x : tensor3) i :
  shape3 c h w x -> i < c -> shape2 h w (nth i x []).
Proof. intros [Hb F] Hn; apply Forall_nth_lt; auto; lia. Qed.

Lemma shape2_nth h w (x : tensor2) i :
  shape2 h w x -> i < h -> shape1 w (nth i x []).
Proof. intros [Hb F] Hn; apply Forall_nth_lt; auto; lia. Qed.

Lemma kron_left_shape B C1 C2 H W (a : tensor4) :
  shape4 B C1 H W a ->
  shape5 B C1 C2 H W (map (map (fun m => repeat m C2)) a) /\
  forall n i j h w, n < B -> i < C1 -> j < C2 ->
    get5 (map (map (fun m => repeat m C2)) a) n i j h w = get4 a n i h w.
Proof.
  intros [Hb F]; split.
  - split; [now rewrite length_map|].
    apply Forall_map; eapply Forall_impl; [|exact F].
    intros x1 [Hc F1]; split; [now rewrite length_map|].
    apply Forall_map; eapply Forall_impl; [|exact F1].
    intros m Hm; split; [apply repeat_length|]. now apply Forall_repeat.
  - intros n i j h w Hn Hi Hj; unfold get5, get4, get3.
    rewrite (nth_map_lt _ a _ []) by lia.
    pose proof (Forall_nth_lt _ _ n [] F ltac:(lia)) as [Hc _].
    rewrite (nth_map_lt _ _ _ []) by lia.
    now rewrite nth_repeat_lt.
Qed.

Lemma kron_right_shape B C1 C2 H W (b : tensor4) :
  shape4 B C2 H W b ->
  shape5 B C1 C2 H W (map (fun bn => repeat bn C1) b) /\
  forall n i j h w, n < B -> i < C1 -> j < C2 ->
    get5 (map (fun bn => repeat bn C1) b) n i j h w = get4 b n j h w.
Proof.
  intros [Hb F]; split.
  - split; [now rewrite length_map|].
    apply Forall_map; eapply Forall_impl; [|exact F].
    intros bn Hbn; split; [apply repeat_length|]. now apply Forall_repeat.
  - intros n i j h w Hn Hi Hj; unfold get5, get4, get3.
    rewrite (nth_map_lt _ b _ []) by lia.
    now rewrite nth_repeat_lt.
Qed.

(** C4: on [a : B x C1 x H x W] and [b : B x C2 x H x W], [kronecker_prod]
    returns a [B x C1 x C2 x H x W] tensor whose entry [n, i, j, h, w] is
    [a[n, i, h, w] * b[n, j, h, w]]. *)
Theorem kronecker_prod_entries (B C1 C2 H W : nat) (a b : tensor4) :
  shape4 B C1 H W a -> shape4 B C2 H W b ->
  exists k, kronecker_prod a b = Some k /\
    shape5 B C1 C2 H W k /\
    forall n i j h w, n < B -> i < C1 -> j < C2 -> h < H -> w < W ->
      get5 k n i j h w = (get4 a n i h w * get4 b n j h w)%R.
Proof.
  intros Ha Hb; unfold kronecker_prod.
  rewrite tile5_unsqueeze_m3, tile5_unsqueeze_m4.
  destruct (Nat.eq_dec B 0) as [-> | HB].
  - destruct Ha as [Ha _], Hb as [Hb _].
    apply length_zero_iff_nil in Ha, Hb; subst; simpl.
    exists []; repeat split; auto; intros; lia.
  - rewrite (shape4_dim1 _ _ _ _ _ Ha), (shape4_dim1 _ _ _ _ _ Hb) by lia.
    destruct (kron_left_shape _ _ C2 _ _ _ Ha) as [Sa Ga].
    destruct (kron_right_shape _ C1 _ _ _ _ Hb) as [Sb Gb].
    destruct (mul5_same _ _ _ _ _ _ _ Sa Sb) as (k & Hk & Sk & Gk).
    exists k; repeat split; auto; try apply Sk.
    intros n i j h w Hn Hi Hj Hh Hw.
    rewrite Gk, Ga, Gb by lia; reflexivity.
Qed.

(** A concrete instance of C4: [1 x 2 x 1 x 1] with [1 x 1 x 1 x 1]. *)
Lemma kronecker_prod_entries_witness :
  exists k, kronecker_prod [[[[2%R]]; [[3%R]]]] [[[[5%R]]]] = Some k /\
    shape5 1 2 1 1 1 k /\
    forall n i j h w, n < 1 -> i < 2 -> j < 1 -> h < 1 -> w < 1 ->
      get5 k n i j h w =
      (get4 [[[[2%R]]; [[3%R]]]] n i h w * get4 [[[[5%R]]]] n j h w)%R.
Proof.
  apply (kronecker_prod_entries 1 2 1 1 1);
    repeat (constructor; simpl; auto).
Defined.

(* ------------------------------------------------------------------ *)
(** ** The error monad on lists *)

Lemma bind_Some {A B : Type} (m : option A) (f : A -> option B) (b : B) :
  bind m f = Some b -> exists a, m = Some a /\ f a = Some b.
Proof. destruct m; simpl; [eauto | discriminate]. Qed.

Lemma guard_Some (c : bool) (u : unit) : guard c = Some u -> c = true.
Proof. destruct c; [auto | discriminate]. Qed.

Lemma guard_true (c : bool) {A : Type} (k : unit -> option A) :
  c = true -> (u <- guard c ;; k u) = k tt.
Proof. intros ->; reflexivity. Qed.

Lemma mapM_map_Some {A B : Type} (f : A -> option B) (g : A -> B) (l : list A) :
  Forall (fun a => f a = Some (g a)) l -> mapM f l = Some (map g l).
Proof.
  induction 1 as [|a l Ha _ IH]; simpl; auto.
  now rewrite Ha; simpl; rewrite IH.
Qed.

Lemma mapM_ext {A B : Type} (f g : A -> option B) (l : list A) :
  (forall a, f a = g a) -> mapM f l = mapM g l.
Proof. intros E; induction l; simpl; auto. now rewrite E, IHl. Qed.

Lemma mapM_map {A B C : Type} (f : B -> option C) (g : A -> B) (l : list A) :
  mapM f (map g l) = mapM (fun a => f (g a)) l.
Proof. induction l; simpl; auto. now rewrite IHl. Qed.

Lemma zipM_ext {A B C : Type} (f g : A -> B -> option C) l1 l2 :
  (forall a b, f a b = g a b) -> zipM f l1 l2 = zipM g l1 l2.
Proof.
  intros E; revert l2; induction l1; intros [|b l2]; simpl; auto.
  now rewrite E, IHl1.
Qed.

Lemma zipM_map_r {A B B' C : Type} (f : A -> B' -> option C) (g : B -> B') l1 l2 :
  zipM f l1 (map g l2) = zipM (fun a b => f a (g b)) l1 l2.
Proof.
  revert l2; induction l1; intros [|b l2]; simpl; auto.
  now rewrite IHl1.
Qed.

Lemma zipM_diag {A B C D : Type} (f : B -> C -> option D) (g1 : A -> B) (g2 : A -> C)
      (l : list A) :
  zipM f (map g1 l) (map g2 l) = mapM (fun a => f (g1 a) (g2 a)) l.
Proof. induction l; simpl; auto. now rewrite IHl. Qed.

Lemma bzip_ext {A B C : Type} (f g : A -> B -> option C) l1 l2 :
  (forall a b, f a b = g a b) -> bzip f l1 l2 = bzip g l1 l2.
Proof.
  intros E; unfold bzip.
  destruct (length l1 =? length l2); [now apply zipM_ext|].
  destruct l1 as [|a [|a' l1]]; destruct l2 as [|b [|b' l2]]; auto;
    apply mapM_ext; intros; apply E.
Qed.

Lemma bzip_map_r {A B B' C : Type} (f : A -> B' -> option C) (g : B -> B') l1 l2 :
  bzip f l1 (map g l2) = bzip (fun a b => f a (g b)) l1 l2.
Proof.
  unfold bzip; rewrite length_map.
  destruct (length l1 =? length l2); [apply zipM_map_r|].
  destruct l1 as [|a [|a' l1]]; destruct l2 as [|b [|b' l2]]; simpl; auto;
    try (now rewrite mapM_map).
Qed.

Lemma bzip_diag {A B C D : Type} (f : B -> C -> option D) (g1 : A -> B) (g2 : A -> C)
      (l : list A) :
  bzip f (map g1 l) (map g2 l) = mapM (fun a => f (g1 a) (g2 a)) l.
Proof.
  unfold bzip; rewrite !length_map, Nat.eqb_refl; apply zipM_diag.
Qed.

Lemma mapM_Forall2 {A B : Type} (f : A -> option B) (l : list A) (l' : list B) :
  mapM f l = Some l' -> Forall2 (fun a b => f a = Some b) l l'.
Proof.
  revert l'; induction l as [|a l IH]; simpl; intros l' E.
  - injection E as <-; constructor.
  - apply bind_Some in E as (b & Eb & E).
    apply bind_Some in E as (r & Er & E); injection E as <-.
    constructor; auto.
Qed.

Lemma zipM_Forall {A B C : Type} (f : A -> B -> option C) (P : C -> Prop)
      (l1 : list A) (l2 : list B) (l : list C) :
  zipM f l1 l2 = Some l ->
  (forall a b c, In a l1 -> In b l2 -> f a b = Some c -> P c) ->
  Forall P l.
Proof.
  revert l2 l; induction l1 as [|a l1 IH]; intros [|b l2] l E HP;
    simpl in E; try discriminate.
  - injection E as <-; constructor.
  - apply bind_Some in E as (c & Ec & E).
    apply bind_Some in E as (r & Er & E); injection E as <-.
    constructor; [eapply HP; eauto; now left|].
    eapply IH; eauto. intros; eapply HP; eauto; now right.
Qed.

Lemma zipM_length {A B C : Type} (f : A -> B -> option C)
      (l1 : list A) (l2 : list B) (l : list C) :
  zipM f l1 l2 = Some l -> length l = length l1 /\ length l = length l2.
Proof.
  revert l2 l; induction l1 as [|a l1 IH]; intros [|b l2] l E;
    simpl in E; try discriminate.
  - injection E as <-; auto.
  - apply bind_Some in E as (c & Ec & E).
    apply bind_Some in E as (r & Er & E); injection E as <-.
    destruct (IH _ _ Er); simpl; lia.
Qed.

Lemma bzip_eq_length {A B C : Type} (f : A -> B -> option C) l1 l2 :
  length l1 = length l2 -> bzip f l1 l2 = zipM f l1 l2.
Proof. intros E; unfold bzip; rewrite E, Nat.eqb_refl; reflexivity. Qed.

Lemma mapM_nth {A B : Type} (f : A -> option B) (l : list A) (l' : list B) :
  mapM f l = Some l' ->
  length l' = length l /\
  forall i d d', i < length l -> f (nth i l d) = Some (nth i l' d').
Proof.
  intros E; apply mapM_Forall2 in E.
  induction E as [|a b l l' Hab _ [IHl IHn]]; simpl; split; auto; try lia.
  intros [|i] d d' Hi; auto. apply IHn; lia.
Qed.

Lemma zipM_nth {A B C : Type} (f : A -> B -> option C)
      (l1 : list A) (l2 : list B) (l : list C) :
  zipM f l1 l2 = Some l ->
  length l = length l1 /\ length l = length l2 /\
  forall i d1 d2 d, i < length l ->
    f (nth i l1 d1) (nth i l2 d2) = Some (nth i l d).
Proof.
  revert l2 l; induction l1 as [|a l1 IH]; intros [|b l2] l E;
    simpl in E; try discriminate.
  - injection E as <-; simpl; repeat split; auto; intros; lia.
  - apply bind_Some in E as (c & Ec & E).
    apply bind_Some in E as (r & Er & E); injection E as <-.
    destruct (IH _ _ Er) as (L1 & L2 & Hn); simpl.
    repeat split; try lia.
    intros [|i] d1 d2 d Hi; auto. apply Hn; lia.
Qed.

(* ------------------------------------------------------------------ *)
(** ** Maxima and minima of lists *)

Lemma fold_left_Rmax_Ropp (t : list R) (a : R) :
  fold_left Rmax (map Ropp t) (- a)%R = (- fold_left Rmin t a)%R.
Proof.
  revert a; induction t as [|b t IH]; intros a; simpl; auto.
  now rewrite <- Ropp_Rmin, IH.
Qed.

Lemma rmax_list_Ropp (l : list R) : rmax_list (map Ropp l) = (- rmin_list l)%R.
Proof.
  destruct l as [|a t]; simpl; [now rewrite Ropp_0 | apply fold_left_Rmax_Ropp].
Qed.

Lemma fold_left_Rmax_spec (t : list R) (a : R) :
  In (fold_left Rmax t a) (a :: t) /\
  forall v, In v (a :: t) -> (v <= fold_left Rmax t a)%R.
Proof.
  revert a; induction t as [|b t IH]; intros a; simpl.
  - split; auto. intros v [<- | []]; apply Rle_refl.
  - destruct (IH (Rmax a b)) as [Hin Hle]; split.
    + destruct Hin as [E | Hin]; [|now auto].
      rewrite <- E; unfold Rmax; destruct (Rle_dec a b); auto.
    + intros v [<- | [<- | Hv]].
      * eapply Rle_trans; [apply Rmax_l | apply Hle; now left].
      * eapply Rle_trans; [apply Rmax_r | apply Hle; now left].
      * apply Hle; now right.
Qed.

Lemma fold_left_Rmin_spec (t : list R) (a : R) :
  In (fold_left Rmin t a) (a :: t) /\
  forall v, In v (a :: t) -> (fold_left Rmin t a <= v)%R.
Proof.
  revert a; induction t as [|b t IH]; intros a; simpl.
  - split; auto. intros v [<- | []]; apply Rle_refl.
  - destruct (IH (Rmin a b)) as [Hin Hle]; split.
    + destruct Hin as [E | Hin]; [|now auto].
      rewrite <- E; unfold Rmin; destruct (Rle_dec a b); auto.
    + intros v [<- | [<- | Hv]].
      * eapply Rle_trans; [apply Hle; now left | apply Rmin_l].
      * eapply Rle_trans; [apply Hle; now left | apply Rmin_r].
      * apply Hle; now right.
Qed.

Lemma rmax_list_spec (l : list R) :
  l <> [] -> In (rmax_list l) l /\ forall v, In v l -> (v <= rmax_list l)%R.
Proof. destruct l; [congruence | intros _; apply fold_left_Rmax_spec]. Qed.

Lemma rmin_list_spec (l : list R) :
  l <> [] -> In (rmin_list l) l /\ forall v, In v l -> (rmin_list l <= v)%R.
Proof. destruct l; [congruence | intros _; apply fold_left_Rmin_spec]. Qed.

Lemma amax_list_rmax (l : list R) : l <> [] -> amax_list l = Some (rmax_list l).
Proof. destruct l; [congruence | reflexivity]. Qed.

(* ------------------------------------------------------------------ *)
(** ** [MaxPlusMinPooling] *)

Lemma window_map {A B : Type} (f : A -> B) (k s p i : nat) (l : list A) :
  window k s p i (map f l) = map f (window k s p i l).
Proof.
  unfold window; induction (seq 0 k) as [|d ds IH]; simpl; auto.
  rewrite map_app, IH; f_equal.
  destruct (p <=? i * s + d); auto.
  rewrite nth_error_map; destruct (nth_error l (i * s + d - p)); reflexivity.
Qed.

Lemma pool2d_neg (k s p : nat) (m : tensor2) :
  pool2d rmax_list k s p (map (map Ropp) m) =
  option_map (map (map Ropp)) (pool2d rmin_list k s p m).
Proof.
  unfold pool2d; rewrite length_map.
  replace (length (hd [] (map (map Ropp) m))) with (length (hd [] m))
    by (destruct m; simpl; now rewrite ?length_map).
  destruct (guard _); simpl; auto.
  destruct (pool_out (length m) k s p) as [oh|]; simpl; auto.
  destruct (pool_out (length (hd [] m)) k s p) as [ow|]; simpl; auto.
  f_equal; rewrite map_map; apply map_ext; intros i.
  rewrite map_map; apply map_ext; intros j.
  unfold window_cells; rewrite window_map, map_map; unfold flatten2.
  rewrite (map_ext _ (fun r => map Ropp (window k s p j r)))
    by (intros; apply window_map).
  rewrite <- (map_map (window k s p j) (map Ropp)), <- concat_map.
  apply rmax_list_Ropp.
Qed.

Lemma window_In {A : Type} (k s p i : nat) (l : list A) (a : A) :
  In a (window k s p i l) -> In a l.
Proof.
  unfold window; rewrite in_flat_map; intros (d & _ & Ha).
  destruct (p <=? i * s + d); [|contradiction].
  destruct (nth_error l (i * s + d - p)) eqn:E; [|contradiction].
  destruct Ha as [<- | []]; eapply nth_error_In; eauto.
Qed.

(** Under the checks of the pooling layer every window covers a cell. *)
Lemma window_nonempty {A : Type} (k s p i o : nat) (l : list A) :
  1 <= k -> p <= k / 2 -> 1 <= length l ->
  pool_out (length l) k s p = Some o -> i < o ->
  window k s p i l <> [].
Proof.
  intros Hk Hp Hl Eo Hi; unfold pool_out in Eo.
  destruct (Nat.ltb_spec (length l + 2 * p) k) as [|Hfit]; [discriminate|].
  injection Eo as <-.
  replace (p + (p + 0)) with (2 * p) in Hi by lia.
  assert (H2p : 2 * p <= k)
    by (pose proof (Nat.Div0.mul_div_le k 2); lia).
  assert (His : i * s <= length l + 2 * p - k).
  { apply Nat.le_trans with ((length l + 2 * p - k) / s * s);
      [apply Nat.mul_le_mono_r; lia|].
    rewrite Nat.mul_comm; apply Nat.Div0.mul_div_le. }
  set (d := if i * s <? p then p - i * s else 0).
  assert (Hd : d < k /\ p <= i * s + d /\ i * s + d - p < length l)
    by (unfold d; destruct (Nat.ltb_spec (i * s) p); lia).
  destruct Hd as (Hd1 & Hd2 & Hd3).
  destruct (nth_error l (i * s + d - p)) as [a|] eqn:Ea;
    [|apply nth_error_None in Ea; lia].
  assert (Hin : In a (window k s p i l)).
  { unfold window; apply in_flat_map; exists d; split; [apply in_seq; lia|].
    destruct (Nat.leb_spec p (i * s + d)); [|lia].
    rewrite Ea; now left. }
  intros E; rewrite E in Hin; contradiction.
Qed.

(** Each output entry of a pooling layer reduces the cells of its window,
    of which there is at least one. *)
Lemma pool2d_entries (red : list R -> R) (k s p H W : nat) (m y : tensor2) :
  shape2 H W m -> pool2d red k s p m = Some y ->
  exists oh ow,
    pool_out H k s p = Some oh /\ pool_out W k s p = Some ow /\
    shape2 oh ow y /\
    forall i j, i < oh -> j < ow ->
      get2 y i j = red (window_cells k s p m i j) /\
      window_cells k s p m i j <> [].
Proof.
  intros [HlH F] E; unfold pool2d in E.
  apply bind_Some in E as ([] & G & E); apply guard_Some in G.
  rewrite !andb_true_iff, !Nat.leb_le in G.
  destruct G as ((((Gk & Gs) & Gp) & GH) & GW).
  apply bind_Some in E as (oh & Eh & E).
  apply bind_Some in E as (ow & Ew & E); injection E as <-.
  assert (EW : length (hd [] m) = W).
  { rewrite hd_nth0; apply (Forall_nth_lt _ _ 0 [] F); lia. }
  rewrite HlH in Eh; rewrite EW in Ew.
  exists oh, ow; repeat split; auto.
  - now rewrite length_map, length_seq.
  - apply Forall_map, Forall_forall; intros i _.
    unfold shape1; now rewrite length_map, length_seq.
  - unfold get2, get1.
    rewrite (nth_map_lt _ _ _ 0) by (rewrite length_seq; lia).
    rewrite (nth_map_lt _ _ _ 0) by (rewrite length_seq; lia).
    now rewrite !seq_nth by lia.
  - unfold window_cells, flatten2.
    destruct (window k s p i m) as [|r rows] eqn:Er.
    + exfalso; revert Er; apply (window_nonempty k s p i oh); auto; try lia.
      now rewrite HlH.
    + assert (Hr : length r = W).
      { rewrite Forall_forall in F; apply F.
        apply (window_In k s p i); rewrite Er; now left. }
      simpl; intros E; apply app_eq_nil in E as [E _]; revert E.
      apply (window_nonempty k s p j ow); auto; rewrite Hr; auto; lia.
Qed.

Lemma mapM_conj {A A' B B' : Type} (f : A' -> option B') (f' : A -> option B)
      (g : A -> A') (h : B -> B') (l : list A) :
  (forall a, f (g a) = option_map h (f' a)) ->
  mapM f (map g l) = option_map (map h) (mapM f' l).
Proof.
  intros E; induction l as [|a l IH]; simpl; auto.
  rewrite E, IH; destruct (f' a); simpl; auto.
  destruct (mapM f' l); reflexivity.
Qed.

Lemma pool4d_neg (k s p : nat) (x : tensor4) :
  pool4d rmax_list k s p (neg4 x) = option_map neg4 (pool4d rmin_list k s p x).
Proof.
  unfold pool4d, neg4, map4d; apply mapM_conj; intros xb.
  rewrite length_map; destruct (guard _); simpl; auto.
  apply mapM_conj, pool2d_neg.
Qed.

Lemma bop1_sub_neg (a b : tensor1) : bop1 Rminus a (map Ropp b) = bop1 Rplus a b.
Proof.
  unfold bop1; rewrite bzip_map_r; apply bzip_ext; intros x y.
  f_equal; lra.
Qed.

Lemma bop2_sub_neg (a b : tensor2) :
  bop2 Rminus a (map (map Ropp) b) = bop2 Rplus a b.
Proof.
  unfold bop2; rewrite bzip_map_r; apply bzip_ext; intros; apply bop1_sub_neg.
Qed.

Lemma bop3_sub_neg (a b : tensor3) :
  bop3 Rminus a (map (map (map Ropp)) b) = bop3 Rplus a b.
Proof.
  unfold bop3; rewrite bzip_map_r; apply bzip_ext; intros; apply bop2_sub_neg.
Qed.

Lemma sub4_neg4 (a b : tensor4) : sub4 a (neg4 b) = add4 a b.
Proof.
  unfold sub4, add4, bop4, neg4, map4d.
  rewrite bzip_map_r; apply bzip_ext; intros; apply bop3_sub_neg.
Qed.

Lemma bzip_nth {A B C : Type} (f : A -> B -> option C)
      (l1 : list A) (l2 : list B) (l : list C) :
  length l1 = length l2 -> bzip f l1 l2 = Some l ->
  length l = length l1 /\
  forall i d1 d2 d, i < length l1 ->
    f (nth i l1 d1) (nth i l2 d2) = Some (nth i l d).
Proof.
  intros El E; rewrite bzip_eq_length in E by exact El.
  destruct (zipM_nth _ _ _ _ E) as (L1 & _ & Hn); split; auto.
  intros; apply Hn; lia.
Qed.

Lemma bzip_shape {X : Type} (f : X -> X -> option X) (P : X -> Prop)
      (l1 l2 : list X) :
  (forall x y, P x -> P y -> exists z, f x y = Some z /\ P z) ->
  length l1 = length l2 -> Forall P l1 -> Forall P l2 ->
  exists l, bzip f l1 l2 = Some l /\ length l = length l1 /\ Forall P l.
Proof.
  intros Hf El F1 F2.
  destruct (bzip_same X X X f P P (fun _ _ z => P z) Hf l1 l2 El F1 F2)
    as (l & E & L & Hn).
  exists l; repeat split; auto.
  destruct l1 as [|x1 l1]; [destruct l; [constructor | discriminate]|].
  apply Forall_of_nth with (d := x1); intros i Hi.
  apply (Hn i x1 x1 x1); simpl in *; lia.
Qed.

Lemma bop1_shape (f : R -> R -> R) (n : nat) (a b : tensor1) :
  shape1 n a -> shape1 n b -> exists z, bop1 f a b = Some z /\ shape1 n z.
Proof.
  unfold shape1; intros La Lb.
  destruct (bzip_shape (fun u v => Some (f u v)) (fun _ => True) a b)
    as (z & E & L & _); eauto using Forall_forall.
  - congruence.
  - apply Forall_forall; auto.
  - apply Forall_forall; auto.
  - exists z; split; [exact E | congruence].
Qed.

Lemma bop2_shape (f : R -> R -> R) (n m : nat) (a b : tensor2) :
  shape2 n m a -> shape2 n m b -> exists z, bop2 f a b = Some z /\ shape2 n m z.
Proof.
  intros [La Fa] [Lb Fb].
  destruct (bzip_shape (bop1 f) (shape1 m) a b (bop1_shape f m))
    as (z & E & L & F); auto; [congruence|].
  exists z; split; [exact E|]. split; [congruence | exact F].
Qed.

Lemma bop3_shape (f : R -> R -> R) (c h w : nat) (a b : tensor3) :
  shape3 c h w a -> shape3 c h w b ->
  exists z, bop3 f a b = Some z /\ shape3 c h w z.
Proof.
  intros [La Fa] [Lb Fb].
  destruct (bzip_shape (bop2 f) (shape2 h w) a b (bop2_shape f h w))
    as (z & E & L & F); auto; [congruence|].
  exists z; split; [exact E|]. split; [congruence | exact F].
Qed.

(** Two tensors of one shape can be combined entry by entry. *)
Lemma bop4_shape (f : R -> R -> R) (n c h w : nat) (a b : tensor4) :
  shape4 n c h w a -> shape4 n c h w b ->
  exists z, bop4 f a b = Some z /\ shape4 n c h w z.
Proof.
  intros [La Fa] [Lb Fb].
  destruct (bzip_shape (bop3 f) (shape3 c h w) a b (bop3_shape f c h w))
    as (z & E & L & F); auto; [congruence|].
  exists z; split; [exact E|]. split; [congruence | exact F].
Qed.

Lemma bop2_entries (f : R -> R -> R) (n m : nat) (a b y : tensor2) :
  shape2 n m a -> shape2 n m b -> bop2 f a b = Some y ->
  shape2 n m y /\
  forall i j, i < n -> j < m -> get2 y i j = f (get2 a i j) (get2 b i j).
Proof.
  intros [La Fa] [Lb Fb] E.
  assert (Lab : length a = length b) by congruence.
  destruct (bzip_nth _ _ _ _ Lab E) as [Ly Hy].
  assert (Hrow : forall i, i < n ->
            length (nth i y []) = m /\
            forall j, j < m ->
              get1 (nth i y []) j = f (get2 a i j) (get2 b i j)).
  { intros i Hi.
    pose proof (Forall_nth_lt _ _ i [] Fa ltac:(lia)) as Ra.
    pose proof (Forall_nth_lt _ _ i [] Fb ltac:(lia)) as Rb.
    unfold shape1 in Ra, Rb.
    specialize (Hy i [] [] [] ltac:(lia)); unfold bop1 in Hy.
    assert (Lr' : length (nth i a []) = length (nth i b [])) by congruence.
    destruct (bzip_nth _ _ _ _ Lr' Hy) as [Lr Hr].
    split; [congruence|]. intros j Hj.
    specialize (Hr j 0%R 0%R 0%R ltac:(lia)).
    unfold get2, get1; congruence. }
  split; [split; [congruence|]|].
  - apply Forall_of_nth with (d := []); intros i Hi.
    apply Hrow; lia.
  - intros i j Hi Hj; unfold get2 at 1; now apply Hrow.
Qed.

Lemma pool4d_nth (red : list R -> R) (k s p B C H W : nat) (x a : tensor4) :
  shape4 B C H W x -> pool4d red k s p x = Some a ->
  length a = B /\
  forall b, b < B ->
    length (nth b a []) = C /\
    forall c, c < C ->
      pool2d red k s p (nth c (nth b x []) []) = Some (nth c (nth b a []) []).
Proof.
  intros Hx E; unfold pool4d in E.
  destruct (mapM_nth _ _ _ E) as [La Ha].
  pose proof Hx as [HlB _].
  split; [congruence|]. intros b Hb.
  pose proof (shape4_nth _ _ _ _ _ b Hx Hb) as [HlC _].
  specialize (Ha b [] [] ltac:(lia)).
  apply bind_Some in Ha as ([] & _ & Ha).
  destruct (mapM_nth _ _ _ Ha) as [Lb Hc].
  split; [congruence|]. intros c Hc'; apply Hc; lia.
Qed.

(** C2: [MaxPlusMinPooling.forward], which computes
    [maxpool(x) - maxpool(-x)], is the element-wise sum of the max-pool and
    the min-pool of [x] for the same kernel size, stride and padding (and
    raises exactly when they do): each entry of its output is the largest
    plus the smallest cell under the window of that entry. *)
Theorem MaxPlusMinPooling_forward_max_plus_min
        (kernel_size stride padding : nat) (x : tensor4) :
  let self := MaxPlusMinPooling_init kernel_size stride padding in
  let pool := {| mp_kernel_size := kernel_size; mp_stride := stride;
                 mp_padding := padding |} in
  MaxPlusMinPooling_forward self x =
    (a <- MaxPool2d_forward pool x ;;
     b <- MinPool2d_forward pool x ;;
     add4 a b) /\
  forall B C H W y,
    shape4 B C H W x -> MaxPlusMinPooling_forward self x = Some y ->
    length y = B /\
    forall b c, b < B -> c < C ->
      length (nth b y []) = C /\
      exists oh ow,
        pool_out H kernel_size stride padding = Some oh /\
        pool_out W kernel_size stride padding = Some ow /\
        shape2 oh ow (nth c (nth b y []) []) /\
        forall i j, i < oh -> j < ow ->
          let cells :=
            window_cells kernel_size stride padding (nth c (nth b x []) []) i j in
          exists M m, list_max_is cells M /\ list_min_is cells m /\
                      get4 y b c i j = (M + m)%R.
Proof.
  intros self pool.
  assert (Eq : MaxPlusMinPooling_forward self x =
               (a <- MaxPool2d_forward pool x ;;
                b <- MinPool2d_forward pool x ;;
                add4 a b)).
  { unfold MaxPlusMinPooling_forward, self, MaxPlusMinPooling_init; simpl.
    fold pool; unfold MaxPool2d_forward, MinPool2d_forward.
    destruct (pool4d rmax_list _ _ _ x) as [a|]; simpl; auto.
    rewrite pool4d_neg.
    destruct (pool4d rmin_list _ _ _ x) as [b|]; simpl; auto.
    apply sub4_neg4. }
  split; [exact Eq|].
  intros B C H W y Hx E; rewrite Eq in E.
  apply bind_Some in E as (a & Ea & E).
  apply bind_Some in E as (mn & Em & E).
  unfold MaxPool2d_forward, MinPool2d_forward, pool in Ea, Em; simpl in Ea, Em.
  destruct (pool4d_nth _ _ _ _ _ _ _ _ _ _ Hx Ea) as [La Ha].
  destruct (pool4d_nth _ _ _ _ _ _ _ _ _ _ Hx Em) as [Lm Hm].
  unfold add4, bop4 in E.
  assert (Lam : length a = length mn) by congruence.
  destruct (bzip_nth _ _ _ _ Lam E) as [Ly Hy].
  split; [congruence|]. intros b c Hb Hc.
  destruct (Ha b Hb) as [Lab Hab], (Hm b Hb) as [Lmb Hmb].
  specialize (Hy b [] [] [] ltac:(lia)); unfold bop3 in Hy.
  assert (Lbb : length (nth b a []) = length (nth b mn [])) by congruence.
  destruct (bzip_nth _ _ _ _ Lbb Hy) as [Lyb Hyb].
  split; [congruence|].
  specialize (Hyb c [] [] [] ltac:(lia)).
  pose proof (shape3_nth _ _ _ _ c (shape4_nth _ _ _ _ _ b Hx Hb) Hc) as Hs.
  destruct (pool2d_entries _ _ _ _ _ _ _ _ Hs (Hab c Hc))
    as (oh & ow & Eh & Ew & Sa & Ga).
  destruct (pool2d_entries _ _ _ _ _ _ _ _ Hs (Hmb c Hc))
    as (oh' & ow' & Eh' & Ew' & Sm & Gm).
  assert (oh' = oh) by congruence; assert (ow' = ow) by congruence; subst.
  destruct (bop2_entries _ _ _ _ _ _ Sa Sm Hyb) as [Sy Gy].
  exists oh, ow; repeat split; auto; try apply Sy.
  intros i j Hi Hj cells.
  destruct (Ga i j Hi Hj) as [Va Ne], (Gm i j Hi Hj) as [Vm _].
  exists (rmax_list cells), (rmin_list cells).
  split; [now apply rmax_list_spec|]. split; [now apply rmin_list_spec|].
  unfold get4, get3; rewrite Gy by auto. now rewrite Va, Vm.
Qed.

(** C2 on a [1 x 1 x 2 x 2] input, with a [2 x 2] window. *)
Lemma MaxPlusMinPooling_forward_max_plus_min_witness :
  exists y,
    MaxPlusMinPooling_forward (MaxPlusMinPooling_init 2 2 0)
      [[[[1; 2]; [3; 4]]]]%R = Some y /\
    length y = 1 /\
    forall b c, b < 1 -> c < 1 ->
      length (nth b y []) = 1 /\
      exists oh ow,
        pool_out 2 2 2 0 = Some oh /\ pool_out 2 2 2 0 = Some ow /\
        shape2 oh ow (nth c (nth b y []) []) /\
        forall i j, i < oh -> j < ow ->
          let cells :=
            window_cells 2 2 0 (nth c (nth b [[[[1; 2]; [3; 4]]]]%R []) []) i j in
          exists M m, list_max_is cells M /\ list_min_is cells m /\
                      get4 y b c i j = (M + m)%R.
Proof.
  eexists; split; [compute_layers; reflexivity|].
  apply (proj2 (MaxPlusMinPooling_forward_max_plus_min 2 2 0
                  [[[[1; 2]; [3; 4]]]]%R) 1 1 2 2);
    [repeat (constructor; simpl; auto) | compute_layers; reflexivity].
Defined.

(* ------------------------------------------------------------------ *)
(** ** [GlobalMaxPlusMinPooling] *)


Lemma flatten2_nonempty (H W : nat) (m : tensor2) :
  shape2 H W m -> 1 <= H -> 1 <= W -> flatten2 m <> [].
Proof.
  intros [Hlen F] HH HW; destruct m as [|r m]; simpl in *; [lia|].
  inversion F as [|? ? Hr _]; subst; unfold shape1 in Hr.
  destruct r; simpl in *; [lia | discriminate].
Qed.

Lemma flatten2_neg (m : tensor2) :
  flatten2 (map (map Ropp) m) = map Ropp (flatten2 m).
Proof. unfold flatten2; now rewrite concat_map. Qed.

Lemma shape4_In b c h w (x : tensor4) xb m :
  shape4 b c h w x -> In xb x -> In m xb -> shape2 h w m.
Proof.
  intros [_ F] Hxb Hm; rewrite Forall_forall in F.
  destruct (F _ Hxb) as [_ F']; rewrite Forall_forall in F'; auto.
Qed.



(** Otherwise each entry is the largest plus the smallest cell. *)
Lemma GlobalMaxPlusMinPooling_forward_Some (B C H W : nat) (x : tensor4) :
  shape4 B C H W x -> B = 0 \/ C = 0 \/ (1 <= H /\ 1 <= W) ->
  GlobalMaxPlusMinPooling_forward x =
  Some (map (map (fun m =>
    (rmax_list (flatten2 m) - - rmin_list (flatten2 m))%R)) x).
Proof.
  intros Hx Hd.
  assert (Hne : forall xb m, In xb x -> In m xb -> flatten2 m <> []).
  { intros xb m Hxb Hm.
    pose proof (shape4_In _ _ _ _ _ _ _ Hx Hxb Hm) as Hs.
    destruct Hx as [HlB F]; rewrite Forall_forall in F.
    destruct (F _ Hxb) as [HlC _].
    assert (1 <= B) by (destruct x; [contradiction | simpl in HlB; lia]).
    assert (1 <= C) by (destruct xb; [contradiction | simpl in HlC; lia]).
    apply (flatten2_nonempty H W); auto; lia. }
  set (g1 := fun m : tensor2 => rmax_list (flatten2 m)).
  set (g2 := fun m : tensor2 => (- rmin_list (flatten2 m))%R).
  assert (E1 : amax23 x = Some (map (map g1) x)).
  { unfold amax23; apply mapM_map_Some, Forall_forall; intros xb Hxb.
    apply mapM_map_Some, Forall_forall; intros m Hm.
    apply amax_list_rmax; now apply (Hne xb). }
  assert (E2 : amax23 (neg4 x) = Some (map (map g2) x)).
  { unfold amax23, neg4, map4d; rewrite mapM_map.
    apply mapM_map_Some, Forall_forall; intros xb Hxb.
    rewrite mapM_map; apply mapM_map_Some, Forall_forall; intros m Hm.
    rewrite flatten2_neg, amax_list_rmax.
    - unfold g2; now rewrite rmax_list_Ropp.
    - intros E; apply map_eq_nil in E; revert E; now apply (Hne xb). }
  unfold GlobalMaxPlusMinPooling_forward; rewrite E1, E2; simpl.
  unfold sub2, bop2; rewrite bzip_diag.
  apply mapM_map_Some, Forall_forall; intros xb _.
  unfold bop1; rewrite bzip_diag.
  apply mapM_map_Some, Forall_forall; auto.
Qed.



(* ------------------------------------------------------------------ *)
(** ** Views *)

Lemma concat_concat {A : Type} (l : list (list (list A))) :
  concat (concat l) = concat (map (@concat A) l).
Proof.
  induction l as [|a l IH]; simpl; auto.
  now rewrite concat_app, IH.
Qed.

Lemma length_concat_uniform {A : Type} (k : nat) (l : list (list A)) :
  Forall (fun r => length r = k) l -> length (concat l) = length l * k.
Proof.
  induction 1 as [|r l Hr _ IH]; simpl; auto.
  rewrite length_app, IH; lia.
Qed.

Lemma chunks_concat {A : Type} (k : nat) (l : list (list A)) :
  Forall (fun r => length r = k) l -> chunks (length l) k (concat l) = l.
Proof.
  induction 1 as [|r l Hr _ IH]; simpl; auto.
  subst k; rewrite firstn_app, skipn_app, Nat.sub_diag; simpl.
  rewrite firstn_all, skipn_all, app_nil_r; simpl; now rewrite IH.
Qed.

Lemma length_chunks {A : Type} (n k : nat) (l : list A) :
  length (chunks n k l) = n.
Proof. revert l; induction n; intros; simpl; auto. Qed.

Lemma chunks_uniform {A : Type} (n k : nat) (l : list A) :
  length l = n * k -> Forall (fun r => length r = k) (chunks n k l).
Proof.
  revert l; induction n as [|n IH]; intros l Hl; simpl; constructor.
  - rewrite length_firstn; simpl in Hl; lia.
  - apply IH; rewrite length_skipn; simpl in Hl; lia.
Qed.


Lemma infer_dim_mul (n k : nat) : 1 <= k -> infer_dim (n * k) k = Some n.
Proof.
  intros Hk; unfold infer_dim.
  destruct (Nat.eqb_spec k 0); [lia|].
  rewrite Nat.Div0.mod_mul; simpl. now rewrite Nat.div_mul.
Qed.

(** Sizes and contents of a well-shaped 4-D tensor. *)
Lemma shape3_flatten (C H W : nat) (xb : tensor3) :
  shape3 C H W xb ->
  Forall (fun r => length r = H * W) (map flatten2 xb) /\
  length (flatten3 xb) = C * (H * W) /\
  flatten3 xb = concat (map flatten2 xb).
Proof.
  intros [HC F].
  assert (U : Forall (fun r => length r = H * W) (map flatten2 xb)).
  { apply Forall_map; eapply Forall_impl; [|exact F].
    intros m [HH Fm]; unfold flatten2.
    rewrite (length_concat_uniform W) by exact Fm. now rewrite HH. }
  assert (E : flatten3 xb = concat (map flatten2 xb))
    by apply concat_concat.
  repeat split; auto.
  rewrite E, (length_concat_uniform (H * W)) by exact U.
  now rewrite length_map, HC.
Qed.

Lemma shape4_flatten (B C H W : nat) (x : tensor4) :
  shape4 B C H W x ->
  Forall (fun r => length r = C * (H * W)) (map flatten3 x) /\
  length (flatten4 x) = B * (C * (H * W)) /\
  flatten4 x = concat (map flatten3 x).
Proof.
  intros [HB F].
  assert (U : Forall (fun r => length r = C * (H * W)) (map flatten3 x)).
  { apply Forall_map; eapply Forall_impl; [|exact F].
    intros xb Hxb; now apply shape3_flatten. }
  assert (E : flatten4 x = concat (map flatten3 x)).
  { unfold flatten4, flatten3.
    rewrite (concat_concat x), (concat_concat (map _ x)).
    now rewrite map_map. }
  repeat split; auto.
  rewrite E, (length_concat_uniform (C * (H * W))) by exact U.
  now rewrite length_map, HB.
Qed.

Lemma shape4_sizes (B C H W : nat) (x : tensor4) :
  shape4 B C H W x -> 1 <= B -> 1 <= C -> 1 <= H ->
  size0 x = B /\ size1 x = C /\ size2 x = H /\ size3 x = W.
Proof.
  intros Hx HB HC HH.
  pose proof (shape4_nth _ _ _ _ _ 0 Hx ltac:(lia)) as H0.
  pose proof (shape3_nth _ _ _ _ 0 H0 ltac:(lia)) as H1.
  pose proof (shape2_nth _ _ _ 0 H1 ltac:(lia)) as H2.
  unfold size3, size2, size1, size0; rewrite !hd_nth0.
  destruct Hx as [? _], H0 as [? _], H1 as [? _]; auto.
Qed.

Lemma chunks_flatten3 {A : Type} (d0 d1 d2 : nat) (t : list (list (list A))) :
  length t = d0 -> uniform3 d1 d2 t ->
  chunks d0 (d1 * d2) (flatten3 t) = map (@concat A) t.
Proof.
  intros <- U; unfold flatten3; rewrite concat_concat.
  rewrite <- (length_map (@concat A) t); apply chunks_concat.
  apply Forall_map; eapply Forall_impl; [|exact U].
  intros tb [<- F]; now apply length_concat_uniform.
Qed.

Lemma view3_flatten3 {A : Type} (d0 d1 d2 : nat) (t : list (list (list A))) :
  length t = d0 -> uniform3 d1 d2 t -> view3 d0 d1 d2 (flatten3 t) = t.
Proof.
  intros Hl U; unfold view3; rewrite chunks_flatten3, map_map by auto.
  rewrite <- (map_id t) at 2; apply map_ext_in; intros tb Htb.
  unfold uniform3 in U; rewrite Forall_forall in U.
  destruct (U _ Htb) as [<- F]; now apply chunks_concat.
Qed.

Lemma flatten4_collapse {A : Type} (x : list (list (list (list A)))) :
  flatten4 x = flatten3 (map (map (@flatten2 A)) x).
Proof.
  unfold flatten4, flatten3, flatten2.
  now rewrite (concat_concat (concat x)), concat_map.
Qed.

(* ------------------------------------------------------------------ *)
(** ** Softmax *)





Lemma length_softmax1 (l : list R) : length (softmax1 l) = length l.
Proof. unfold softmax1; apply length_map. Qed.



(* ------------------------------------------------------------------ *)
(** ** [spacial_softmax] *)

(** The softmax of each flattened channel map, cut back into [H] rows. *)
Lemma spacial_softmax_eq (B C H W : nat) (x : tensor4) :
  shape4 B C H W x -> 1 <= B -> 1 <= C -> 1 <= H -> 1 <= W ->
  spacial_softmax x =
  Some (map (map (fun m => chunks H W (softmax1 (flatten2 m)))) x).
Proof.
  intros Hx HB HC HH HW; unfold spacial_softmax.
  destruct (shape4_sizes _ _ _ _ _ Hx HB HC HH) as (-> & -> & -> & ->).
  destruct (shape4_flatten _ _ _ _ _ Hx) as (_ & L & _); rewrite L.
  replace (B * (C * (H * W))) with (H * W * (B * C)) at 1 by lia.
  rewrite infer_dim_mul by nia; simpl.
  replace (B * (C * (H * W))) with (B * (C * H * W)) by lia.
  rewrite infer_dim_mul by nia; simpl; f_equal.
  assert (U : uniform3 C (H * W) (map (map (@flatten2 R)) x)).
  { destruct Hx as [_ F]; apply Forall_map; eapply Forall_impl; [|exact F].
    intros xb Hxb; split; [rewrite length_map; apply Hxb|].
    now apply (shape3_flatten C). }
  rewrite flatten4_collapse, view3_flatten3; auto;
    [| rewrite length_map; apply Hx].
  unfold map2d, view4; rewrite !map_map.
  set (sm := fun m : tensor2 => softmax1 (flatten2 m)).
  assert (U' : uniform3 C (H * W) (map (map sm) x)).
  { destruct Hx as [_ F]; apply Forall_map; eapply Forall_impl; [|exact F].
    intros xb Hxb; split; [rewrite length_map; apply Hxb|].
    apply Forall_map.
    destruct (shape3_flatten C H W xb Hxb) as (Uxb & _ & _).
    rewrite Forall_map in Uxb; eapply Forall_impl; [|exact Uxb].
    intros m Hm; unfold sm; now rewrite length_softmax1. }
  rewrite (map_ext _ (fun xb => map sm xb))
    by (intros; rewrite map_map; reflexivity).
  replace (C * H * W) with (C * (H * W)) by lia.
  rewrite chunks_flatten3; auto; [| rewrite length_map; apply Hx].
  rewrite !map_map; apply map_ext_in; intros xb Hxb.
  unfold view3.
  destruct Hx as [_ F]; rewrite Forall_forall in F.
  pose proof (F _ Hxb) as Hs.
  destruct (shape3_flatten C H W xb Hs) as (Uxb & _ & _).
  replace C with (length (map sm xb)) by (rewrite length_map; apply Hs).
  rewrite chunks_concat, map_map; [reflexivity|].
  apply Forall_map; rewrite Forall_map in Uxb.
  eapply Forall_impl; [|exact Uxb].
  intros m Hm; unfold sm; now rewrite length_softmax1.
Qed.

Lemma shape2_chunks (H W : nat) (l : list R) :
  length l = H * W -> shape2 H W (chunks H W l).
Proof.
  intros Hl; split; [apply length_chunks | now apply chunks_uniform].
Qed.

Lemma softmax_maps_shape (B C H W : nat) (x : tensor4) :
  shape4 B C H W x ->
  shape4 B C H W (map (map (fun m => chunks H W (softmax1 (flatten2 m)))) x).
Proof.
  intros [HlB F]; split; [now rewrite length_map|].
  apply Forall_map; eapply Forall_impl; [|exact F].
  intros xb [HlC Fb]; split; [now rewrite length_map|].
  apply Forall_map; eapply Forall_impl; [|exact Fb].
  intros m Hs; apply shape2_chunks.
  rewrite length_softmax1; unfold flatten2.
  rewrite (length_concat_uniform W) by apply Hs.
  destruct Hs as [E _]; now rewrite E.
Qed.




(* ------------------------------------------------------------------ *)
(** ** [SoftArgMax] *)

Lemma map_nth_seq {A : Type} (l : list A) (d : A) :
  map (fun i => nth i l d) (seq 0 (length l)) = l.
Proof.
  induction l as [|a l IH]; simpl; auto.
  now rewrite <- seq_shift, map_map, IH.
Qed.

Lemma xadd_0_l (a : xreal) : xadd (Finite 0) a = a.
Proof. destruct a; simpl; auto. now rewrite Rplus_0_l. Qed.

Lemma xadd_assoc (a b c : xreal) : xadd a (xadd b c) = xadd (xadd a b) c.
Proof. destruct a, b, c; simpl; auto. now rewrite Rplus_assoc. Qed.

Lemma xsum_app (l1 l2 : list xreal) : xsum (l1 ++ l2) = xadd (xsum l1) (xsum l2).
Proof.
  induction l1 as [|a l1 IH].
  - change (xsum l2 = xadd (Finite 0) (xsum l2)); now rewrite xadd_0_l.
  - change (xadd a (xsum (l1 ++ l2)) = xadd (xadd a (xsum l1)) (xsum l2)).
    now rewrite IH, xadd_assoc.
Qed.

Lemma xsum_concat (l : list (list xreal)) : xsum (concat l) = xsum (map xsum l).
Proof.
  induction l as [|a l IH]; auto.
  change (xsum (a ++ concat l) = xadd (xsum a) (xsum (map xsum l))).
  now rewrite xsum_app, IH.
Qed.

Lemma xsum_Finite (l : list R) : xsum (map Finite l) = Finite (rsum l).
Proof. induction l; simpl; auto. now rewrite IHl. Qed.

Lemma xweighted_sum_Finite (H W : nat) (m : tensor2) (wt : nat -> nat -> R) :
  xweighted_sum H W m (fun h w => Finite (wt h w)) =
  Finite (weighted_sum H W m wt).
Proof.
  unfold xweighted_sum, weighted_sum.
  rewrite <- xsum_Finite, map_map; f_equal; apply map_ext; intros h.
  now rewrite <- xsum_Finite, map_map.
Qed.

Lemma xweighted_sum_ext (H W : nat) (m : tensor2) (wt wt' : nat -> nat -> xreal) :
  (forall h w, h < H -> w < W -> wt h w = wt' h w) ->
  xweighted_sum H W m wt = xweighted_sum H W m wt'.
Proof.
  intros E; unfold xweighted_sum; f_equal.
  apply map_ext_in; intros h Hh; apply in_seq in Hh; f_equal.
  apply map_ext_in; intros w Hw; apply in_seq in Hw.
  rewrite E; auto; lia.
Qed.

Lemma xsum_NonFinite (l : list xreal) : In NonFinite l -> xsum l = NonFinite.
Proof.
  induction l as [|a l IH]; simpl; [tauto|].
  intros [-> | Hin]; auto. rewrite IH by auto; now destruct a.
Qed.

Lemma xweighted_sum_NonFinite (H W : nat) (m : tensor2) (wt : nat -> nat -> xreal) :
  1 <= H -> 1 <= W -> (forall h w, h < H -> w < W -> wt h w = NonFinite) ->
  xweighted_sum H W m wt = NonFinite.
Proof.
  intros HH HW E; unfold xweighted_sum; apply xsum_NonFinite, in_map_iff.
  exists 0; split; [|apply in_seq; lia].
  apply xsum_NonFinite, in_map_iff.
  exists 0; split; [|apply in_seq; lia].
  rewrite E by lia; reflexivity.
Qed.

Lemma height_tensor_eq (H W : nat) :
  height_tensor H W =
  map (fun h => repeat (div_int (Z.of_nat h) (Z.of_nat H - 1)) W) (seq 0 H).
Proof.
  unfold height_tensor, tile2, arange, map2d.
  rewrite tile_dim_one, !map_map; apply map_ext; intros h.
  now rewrite tile_dim_singleton, map_repeat.
Qed.

Lemma width_tensor_eq (H W : nat) :
  width_tensor H W =
  repeat (map (fun w => div_int (Z.of_nat w) (Z.of_nat W - 1)) (seq 0 W)) H.
Proof.
  unfold width_tensor, tile2, arange, map2d; simpl.
  now rewrite tile_dim_one, tile_dim_singleton, map_repeat, map_map.
Qed.

Lemma height_tensor_nth (H W h w : nat) :
  h < H -> w < W ->
  nth w (nth h (height_tensor H W) []) NonFinite =
  div_int (Z.of_nat h) (Z.of_nat H - 1).
Proof.
  intros Hh Hw; rewrite height_tensor_eq.
  rewrite (nth_map_lt _ _ _ 0) by (rewrite length_seq; lia).
  now rewrite nth_repeat_lt, seq_nth by lia.
Qed.

Lemma width_tensor_nth (H W h w : nat) :
  h < H -> w < W ->
  nth w (nth h (width_tensor H W) []) NonFinite =
  div_int (Z.of_nat w) (Z.of_nat W - 1).
Proof.
  intros Hh Hw; rewrite width_tensor_eq, nth_repeat_lt by lia.
  rewrite (nth_map_lt _ _ _ 0) by (rewrite length_seq; lia).
  now rewrite seq_nth by lia.
Qed.

Lemma height_tensor_shape (H W : nat) :
  length (height_tensor H W) = H /\
  Forall (fun r => length r = W) (height_tensor H W).
Proof.
  rewrite height_tensor_eq; split; [now rewrite length_map, length_seq|].
  apply Forall_map, Forall_forall; intros; apply repeat_length.
Qed.

Lemma width_tensor_shape (H W : nat) :
  length (width_tensor H W) = H /\
  Forall (fun r => length r = W) (width_tensor H W).
Proof.
  rewrite width_tensor_eq; split; [apply repeat_length|].
  apply Forall_repeat; now rewrite length_map, length_seq.
Qed.

(** One channel map times a weight tensor, summed. *)
Lemma weighted_reduce (H W : nat) (m : tensor2) (wt : list (list xreal)) :
  shape2 H W m -> length wt = H -> Forall (fun r => length r = W) wt ->
  option_map (fun t => xsum (flatten2 t))
    (bzip (bzip (fun p t => Some (xmul (Finite p) t))) m wt) =
  Some (xweighted_sum H W m (fun h w => nth w (nth h wt []) NonFinite)).
Proof.
  intros [Hm Fm] Hwt Fwt.
  destruct (bzip_same _ _ _
              (bzip (fun p t => Some (xmul (Finite p) t)))
              (fun r : list R => length r = W)
              (fun t : list xreal => length t = W)
              (fun r t z => z = map (fun w =>
                 xmul (Finite (nth w r 0%R)) (nth w t NonFinite)) (seq 0 W)))
    with (l1 := m) (l2 := wt) as (Z & HZ & HlZ & HnZ); auto; [|congruence|].
  - intros r t Hr Ht.
    destruct (bzip_same _ _ _ (fun p t => Some (xmul (Finite p) t))
                (fun _ : R => True) (fun _ : xreal => True)
                (fun a b c => c = xmul (Finite a) b))
      with (l1 := r) (l2 := t) as (z & Hz & Hlz & Hnz);
      eauto; try congruence; try (apply Forall_forall; auto).
    exists z; split; auto.
    rewrite <- (map_nth_seq z NonFinite), Hlz, Hr.
    apply map_ext_in; intros w Hw; apply in_seq in Hw.
    apply Hnz; lia.
  - rewrite HZ; simpl; f_equal.
    unfold flatten2; rewrite xsum_concat.
    rewrite <- (map_nth_seq Z []), HlZ, Hm, map_map.
    unfold xweighted_sum; f_equal.
    apply map_ext_in; intros h Hh; apply in_seq in Hh.
    rewrite (HnZ h [] [] []) by lia; reflexivity.
Qed.

Lemma mapM_option_map {A B C : Type} (f : A -> option B) (g : B -> C) (l : list A) :
  option_map (map g) (mapM f l) = mapM (fun a => option_map g (f a)) l.
Proof.
  induction l as [|a l IH]; simpl; auto.
  destruct (f a); simpl; auto. rewrite <- IH; now destruct (mapM f l).
Qed.

Lemma weighted_out (B C H W : nat) (p : tensor4) (wt : list (list xreal)) :
  shape4 B C H W p -> length wt = H -> Forall (fun r => length r = W) wt ->
  option_map xsum23 (mul_weights p wt) =
  Some (map (map (fun m =>
    xweighted_sum H W m (fun h w => nth w (nth h wt []) NonFinite))) p).
Proof.
  intros Hp Hl Fl; unfold xsum23, mul_weights, map2d.
  rewrite mapM_option_map.
  apply mapM_map_Some, Forall_forall; intros xb Hxb.
  rewrite mapM_option_map.
  apply mapM_map_Some, Forall_forall; intros m Hm.
  apply weighted_reduce; auto. eapply shape4_In; eauto.
Qed.

Lemma cat_pairs_maps {A : Type} (gw gh : A -> xreal) (p : list (list A)) :
  cat_pairs (map (map gw) p) (map (map gh) p) =
  Some (map (map (fun m => [gw m; gh m])) p).
Proof.
  unfold cat_pairs; rewrite zipM_diag.
  apply mapM_map_Some, Forall_forall; intros xb _.
  rewrite zipM_diag; apply mapM_map_Some, Forall_forall; auto.
Qed.

(** The body of [SoftArgMax.forward] on a 4-D tensor, up to the
    concatenated [(x, y)] coordinates. *)
Lemma SoftArgMax_body (B C H W : nat) (x p : tensor4) (a : bool)
      {T : Type} (k : list (list (list xreal)) -> option T) :
  shape4 B C H W x -> 1 <= B -> 1 <= C -> 1 <= H ->
  (if a then spacial_softmax x else Some x) = Some p ->
  shape4 B C H W p ->
  (x_prob <- (if a then spacial_softmax x else Some x) ;;
   height_out <- option_map xsum23
     (mul_weights x_prob (height_tensor (size2 x) (size3 x))) ;;
   width_out <- option_map xsum23
     (mul_weights x_prob (width_tensor (size2 x) (size3 x))) ;;
   out <- cat_pairs width_out height_out ;;
   k out) =
  k (map (map (fun m =>
       [xweighted_sum H W m (fun h w => div_int (Z.of_nat w) (Z.of_nat W - 1));
        xweighted_sum H W m (fun h w => div_int (Z.of_nat h) (Z.of_nat H - 1))]))
       p).
Proof.
  intros Hx HB HC HH Ep Hp.
  destruct (shape4_sizes _ _ _ _ _ Hx HB HC HH) as (_ & _ & -> & ->).
  rewrite Ep; simpl.
  destruct (height_tensor_shape H W) as [Lh Fh].
  destruct (width_tensor_shape H W) as [Lw Fw].
  rewrite (weighted_out B C H W p _ Hp Lh Fh); simpl.
  rewrite (weighted_out B C H W p _ Hp Lw Fw); simpl.
  rewrite cat_pairs_maps; simpl; f_equal.
  apply map_ext; intros xb; apply map_ext; intros m; f_equal; [|f_equal];
    apply xweighted_sum_ext; intros h w Hh Hw.
  - now apply width_tensor_nth.
  - now apply height_tensor_nth.
Qed.

Lemma div_int_Finite (v n : nat) :
  2 <= n ->
  div_int (Z.of_nat v) (Z.of_nat n - 1) = Finite (INR v / INR (n - 1)).
Proof.
  intros Hn; unfold div_int.
  destruct (Z.eqb_spec (Z.of_nat n - 1) 0); [lia|].
  rewrite !INR_IZR_INZ; do 3 f_equal; lia.
Qed.




Lemma unsqueeze_last_shape (B C H : nat) (x : tensor3) :
  shape3 B C H x -> shape4 B C H 1 (unsqueeze_last x).
Proof.
  intros [HlB F]; split; [unfold unsqueeze_last; now rewrite length_map|].
  apply Forall_map; eapply Forall_impl; [|exact F].
  intros xb [HlC Fb]; split; [now rewrite length_map|].
  apply Forall_map; eapply Forall_impl; [|exact Fb].
  intros r Hr; split; [now rewrite length_map|].
  apply Forall_map, Forall_forall; intros; reflexivity.
Qed.

Lemma x_prob_shape (B C H W : nat) (x : tensor4) (a : bool) :
  shape4 B C H W x -> 1 <= B -> 1 <= C -> 1 <= H -> 1 <= W ->
  exists p, (if a then spacial_softmax x else Some x) = Some p /\
            shape4 B C H W p.
Proof.
  intros Hx HB HC HH HW; destruct a; [|eauto].
  rewrite (spacial_softmax_eq _ _ _ _ _ Hx) by lia.
  eexists; split; [reflexivity | now apply softmax_maps_shape].
Qed.

(** C10: [SoftArgMax.forward] divides by [H - 1] and [W - 1] without a
    check.  On every 3-D input the added dimension makes [W = 1], so the
    width weights are divisions by zero; on every input with [H = 1] so are
    the height weights.  The call still returns, and with [H = 1] each
    returned coordinate pair holds a non-finite number. *)
Theorem SoftArgMax_forward_unguarded_division
        (x : heatmaps) (apply_softmax : bool) (B C H W : nat) :
  heatmaps_shape x B C H W -> 1 <= B -> 1 <= C -> 1 <= H -> 1 <= W ->
  (forall x3, x = Maps1D x3 -> W = 1) /\
  SoftArgMax_divisors x = (Z.of_nat H - 1, Z.of_nat W - 1)%Z /\
  (W = 1 ->
     snd (SoftArgMax_divisors x) = 0%Z /\
     forall h w, h < H -> w < W ->
       nth w (nth h (width_tensor H W) []) NonFinite = NonFinite) /\
  (H = 1 ->
     fst (SoftArgMax_divisors x) = 0%Z /\
     forall h w, h < H -> w < W ->
       nth w (nth h (height_tensor H W) []) NonFinite = NonFinite) /\
  exists out, SoftArgMax_forward x apply_softmax = Some out /\
    (H = 1 -> forall b c, b < B -> c < C ->
       In NonFinite (nth c (nth b out []) [])).
Proof.
  intros Hs HB HC HH HW.
  set (x4 := match x with Maps1D x3 => unsqueeze_last x3 | Maps2D x4 => x4 end).
  assert (Hx : shape4 B C H W x4).
  { destruct x as [x3|x']; simpl in *; auto.
    destruct Hs as [Hs ->]; now apply unsqueeze_last_shape. }
  assert (Ed : SoftArgMax_divisors x = (Z.of_nat H - 1, Z.of_nat W - 1)%Z).
  { unfold SoftArgMax_divisors; fold x4.
    destruct (shape4_sizes _ _ _ _ _ Hx HB HC HH) as (_ & _ & -> & ->).
    reflexivity. }
  split; [intros x3 ->; apply Hs|]. split; [exact Ed|].
  split; [|split].
  - intros ->; rewrite Ed; split; [reflexivity|].
    intros h w Hh Hw; now rewrite width_tensor_nth.
  - intros ->; rewrite Ed; split; [reflexivity|].
    intros h w Hh Hw; now rewrite height_tensor_nth.
  - destruct (x_prob_shape _ _ _ _ _ apply_softmax Hx HB HC HH HW)
      as (p & Ep & Hp).
    set (gw := fun m : tensor2 =>
           xweighted_sum H W m (fun h w => div_int (Z.of_nat w) (Z.of_nat W - 1))).
    set (gh := fun m : tensor2 =>
           xweighted_sum H W m (fun h w => div_int (Z.of_nat h) (Z.of_nat H - 1))).
    assert (Hgh : H = 1 -> forall m, gh m = NonFinite).
    { intros -> m; unfold gh; now apply xweighted_sum_NonFinite. }
    pose proof Hp as [HlB Fp].
    assert (HlC : forall b, b < B -> length (nth b p []) = C)
      by (intros b Hb; apply (Forall_nth_lt _ _ b [] Fp); lia).
    destruct x as [x3|x'].
    + pose proof (SoftArgMax_body B C H W x4 p apply_softmax
                    (fun out => Some (map2d (fun e => [nth 1 e NonFinite]) out))
                    Hx HB HC HH Ep Hp) as E.
      cbv beta in E. eexists; split; [exact E|].
      intros H1 b c Hb Hc; unfold map2d.
      rewrite !map_map, (nth_map_lt _ p _ []) by lia.
      rewrite map_map, (nth_map_lt _ _ _ []) by (rewrite HlC; lia).
      simpl; left; now apply Hgh.
    + pose proof (SoftArgMax_body B C H W x4 p apply_softmax
                    (fun out => Some out) Hx HB HC HH Ep Hp) as E.
      cbv beta in E. eexists; split; [exact E|].
      intros H1 b c Hb Hc.
      rewrite (nth_map_lt _ p _ []) by lia.
      rewrite (nth_map_lt _ _ _ []) by (rewrite HlC; lia).
      simpl; right; left; now apply Hgh.
Qed.

(** C10 on the 3-D input [[[5]]], with the softmax applied. *)
Lemma SoftArgMax_forward_unguarded_division_witness :
  (forall x3, Maps1D [[[5%R]]] = Maps1D x3 -> 1 = 1) /\
  SoftArgMax_divisors (Maps1D [[[5%R]]]) = (Z.of_nat 1 - 1, Z.of_nat 1 - 1)%Z /\
  (1 = 1 ->
     snd (SoftArgMax_divisors (Maps1D [[[5%R]]])) = 0%Z /\
     forall h w, h < 1 -> w < 1 ->
       nth w (nth h (width_tensor 1 1) []) NonFinite = NonFinite) /\
  (1 = 1 ->
     fst (SoftArgMax_divisors (Maps1D [[[5%R]]])) = 0%Z /\
     forall h w, h < 1 -> w < 1 ->
       nth w (nth h (height_tensor 1 1) []) NonFinite = NonFinite) /\
  exists out, SoftArgMax_forward (Maps1D [[[5%R]]]) true = Some out /\
    (1 = 1 -> forall b c, b < 1 -> c < 1 ->
       In NonFinite (nth c (nth b out []) [])).
Proof.
  apply (SoftArgMax_forward_unguarded_division (Maps1D [[[5%R]]]) true 1 1 1 1);
    try lia.
  simpl; split; [repeat (constructor; simpl; auto) | reflexivity].
Defined.

(* ------------------------------------------------------------------ *)
(** ** Shapes through the layers *)

Lemma map4d_shape {A : Type} (f : R -> R) (B C H W : nat) (x : tensor4) :
  shape4 B C H W x -> shape4 B C H W (map4d f x).
Proof.
  intros [HlB F]; split; [unfold map4d; now rewrite length_map|].
  apply Forall_map; eapply Forall_impl; [|exact F].
  intros xb [HlC Fb]; split; [now rewrite length_map|].
  apply Forall_map; eapply Forall_impl; [|exact Fb].
  intros m [HlH Fm]; split; [now rewrite length_map|].
  apply Forall_map; eapply Forall_impl; [|exact Fm].
  intros r Hr; unfold shape1 in *; now rewrite length_map.
Qed.

Lemma relu_shape (B C H W : nat) (x : tensor4) :
  shape4 B C H W x -> shape4 B C H W (relu x).
Proof. apply (map4d_shape (A := R)). Qed.

Lemma grid_shape (oh ow : nat) (f : nat -> nat -> R) :
  shape2 oh ow (map (fun i => map (fun j => f i j) (seq 0 ow)) (seq 0 oh)).
Proof.
  split; [now rewrite length_map, length_seq|].
  apply Forall_map, Forall_forall; intros i _.
  unfold shape1; now rewrite length_map, length_seq.
Qed.

(** A convolution keeps the batch size, yields [out_channels] channels and
    the spatial sizes [conv_out] computes. *)
Lemma Conv2d_forward_shape (c : Conv2d) (x y : tensor4) :
  x <> [] -> Conv2d_forward c x = Some y ->
  Forall (fun xb => length xb = in_channels c) x /\
  1 <= groups c /\
  exists oh pt ow pl,
    conv_out (padding c) true (size2 x) (fst (kernel_size c)) (stride c)
      = Some (oh, pt) /\
    conv_out (padding c) false (size3 x) (snd (kernel_size c)) (stride c)
      = Some (ow, pl) /\
    shape4 (length x) (out_channels c) oh ow y.
Proof.
  intros Hne E; unfold Conv2d_forward in E.
  destruct (kernel_size c) as [kh kw]; simpl.
  apply bind_Some in E as ([] & G1 & E).
  apply bind_Some in E as ([] & G2 & E).
  apply guard_Some in G1, G2.
  rewrite !andb_true_iff in G1; destruct G1 as (((((G1 & _) & _) & _) & _) & _).
  apply Nat.leb_le in G1.
  split; [|split; [exact G1|]].
  { apply Forall_forall; intros xb Hxb.
    rewrite forallb_forall in G2; now apply Nat.eqb_eq, G2. }
  destruct x as [|xb0 xs]; [congruence|].
  apply bind_Some in E as ([oh pt] & Eh & E).
  apply bind_Some in E as ([ow pl] & Ew & E).
  injection E as <-.
  exists oh, pt, ow, pl; repeat split; auto.
  - cbn [length]; now rewrite length_map.
  - match goal with
    | |- Forall ?P (_ :: map ?F _) => change (Forall P (map F (xb0 :: xs)))
    end.
    apply Forall_map, Forall_forall; intros xb _.
    split; [now rewrite length_map, length_seq|].
    apply Forall_map, Forall_forall; intros o _.
    apply grid_shape.
Qed.

Lemma Conv2d_forward_nil (c : Conv2d) (y : tensor4) :
  Conv2d_forward c [] = Some y -> y = [].
Proof.
  unfold Conv2d_forward; destruct (kernel_size c); intros E.
  apply bind_Some in E as ([] & _ & E); simpl in E; congruence.
Qed.

Lemma BatchNorm2d_forward_shape (bn : BatchNorm2d) (B C H W : nat) (x y : tensor4) :
  shape4 B C H W x -> BatchNorm2d_forward bn x = Some y -> shape4 B C H W y.
Proof.
  intros [HlB F] E; unfold BatchNorm2d_forward in E.
  apply bind_Some in E as ([] & _ & E).
  apply bind_Some in E as ([] & _ & E).
  injection E as <-.
  split; [now rewrite length_map|].
  apply Forall_map; eapply Forall_impl; [|exact F].
  intros xb [HlC Fb]; split.
  - now rewrite length_map, length_combine, length_seq, Nat.min_id.
  - apply Forall_map, Forall_forall; intros [c m] Hcm.
    apply in_combine_r in Hcm; rewrite Forall_forall in Fb.
    destruct (Fb _ Hcm) as [HlH Fm].
    split; [unfold map2d; now rewrite length_map|].
    apply Forall_map; eapply Forall_impl; [|exact Fm].
    intros r Hr; unfold shape1 in *; now rewrite length_map.
Qed.

Lemma shape4_size2 (B C H W : nat) (x : tensor4) :
  shape4 B C H W x -> 1 <= B -> 1 <= C -> size2 x = H.
Proof.
  intros Hx HB HC.
  pose proof (shape4_nth _ _ _ _ _ 0 Hx ltac:(lia)) as H0.
  pose proof (shape3_nth _ _ _ _ 0 H0 ltac:(lia)) as H1.
  unfold size2, size1; rewrite !hd_nth0; apply H1.
Qed.

Lemma shape4_size3 (B C H W : nat) (x : tensor4) :
  shape4 B C H W x -> 1 <= B -> 1 <= C -> 1 <= H -> size3 x = W.
Proof. intros Hx HB HC HH; now apply (shape4_sizes B C H W). Qed.

Lemma forallb_lengths {A : Type} (n : nat) (x : list (list A)) :
  Forall (fun xb => length xb = n) x ->
  forallb (fun xb => length xb =? n) x = true.
Proof.
  intros F; apply forallb_forall; intros xb Hxb.
  rewrite Forall_forall in F; now apply Nat.eqb_eq, F.
Qed.

Lemma shape4_channels (B C H W : nat) (x : tensor4) :
  shape4 B C H W x -> Forall (fun xb => length xb = C) x.
Proof.
  intros [_ F]; eapply Forall_impl; [|exact F]. intros xb Hxb; apply Hxb.
Qed.

Lemma conv_out_same (vertical : bool) (n k : nat) :
  1 <= n -> conv_out PadSame vertical n k 1 = Some (n, (k - 1) / 2).
Proof.
  intros Hn; unfold conv_out; apply guard_true.
  rewrite andb_true_iff, Nat.leb_le; auto.
Qed.

Lemma conv_out_unit (vertical : bool) (n : nat) :
  1 <= n -> conv_out (PadZeros 0 0) vertical n 1 1 = Some (n, 0).
Proof.
  intros Hn; unfold conv_out.
  replace (if vertical then 0 else 0) with 0 by now destruct vertical.
  destruct (Nat.ltb_spec (n + 2 * 0) 1); [lia|].
  rewrite Nat.div_1_r; do 2 f_equal; lia.
Qed.

(** A convolution accepts every non-empty batch with the right number of
    channels that its kernel fits on. *)
Lemma Conv2d_forward_Some (c : Conv2d) (B H W oh pt ow pl : nat) (x : tensor4) :
  shape4 B (in_channels c) H W x ->
  1 <= B -> 1 <= in_channels c -> 1 <= H ->
  1 <= groups c ->
  in_channels c mod groups c = 0 -> out_channels c mod groups c = 0 ->
  1 <= fst (kernel_size c) -> 1 <= snd (kernel_size c) -> 1 <= stride c ->
  conv_out (padding c) true H (fst (kernel_size c)) (stride c) = Some (oh, pt) ->
  conv_out (padding c) false W (snd (kernel_size c)) (stride c) = Some (ow, pl) ->
  exists y, Conv2d_forward c x = Some y /\ shape4 B (out_channels c) oh ow y.
Proof.
  intros Hx HB HC HH Hg Hi Ho Hkh Hkw Hs Eh Ew.
  assert (Ne : x <> [])
    by (destruct Hx as [Hl _]; intros ->; simpl in Hl; lia).
  assert (E : exists y, Conv2d_forward c x = Some y).
  { unfold Conv2d_forward; destruct (kernel_size c) as [kh kw]; cbn [fst snd] in *.
    rewrite guard_true.
    2:{ rewrite !andb_true_iff, !Nat.leb_le, !Nat.eqb_eq; auto 10. }
    rewrite guard_true
      by (apply forallb_lengths, (shape4_channels B _ H W), Hx).
    destruct x as [|xb xs]; [congruence|].
    rewrite (shape4_size2 _ _ _ _ _ Hx), (shape4_size3 _ _ _ _ _ Hx) by lia.
    rewrite Eh, Ew; simpl; eauto. }
  destruct E as (y & E); exists y; split; auto.
  destruct (Conv2d_forward_shape _ _ _ Ne E)
    as (_ & _ & oh' & pt' & ow' & pl' & Eh' & Ew' & S).
  rewrite (shape4_size2 _ _ _ _ _ Hx) in Eh' by lia.
  rewrite (shape4_size3 _ _ _ _ _ Hx) in Ew' by lia.
  destruct Hx as [Hl _]; rewrite Hl in S.
  congruence.
Qed.

(** Batch normalisation accepts every tensor with its number of channels,
    except a single value per channel in training mode. *)
Lemma BatchNorm2d_forward_Some (bn : BatchNorm2d) (B H W : nat) (x : tensor4) :
  shape4 B (num_features bn) H W x ->
  (training bn = true -> B * (H * W) <> 1) ->
  exists y, BatchNorm2d_forward bn x = Some y.
Proof.
  intros Hx Ht; unfold BatchNorm2d_forward.
  rewrite guard_true
    by (apply forallb_lengths, (shape4_channels B _ H W), Hx).
  rewrite guard_true; [eauto|].
  destruct (training bn); [simpl | reflexivity].
  apply negb_true_iff, Nat.eqb_neq.
  specialize (Ht eq_refl).
  destruct (Nat.eq_dec B 0) as [-> | HB];
    [destruct Hx as [-> _]; lia|].
  destruct (Nat.eq_dec (num_features bn) 0) as [E0 | HC].
  { pose proof (shape4_nth _ _ _ _ _ 0 Hx ltac:(lia)) as [Hl _].
    unfold size2, size1; rewrite (hd_nth0 x).
    rewrite E0 in Hl; apply length_zero_iff_nil in Hl; rewrite Hl; simpl; lia. }
  rewrite (shape4_size2 _ _ _ _ _ Hx) by lia.
  destruct (Nat.eq_dec H 0) as [-> | HH]; [lia|].
  rewrite (shape4_size3 _ _ _ _ _ Hx) by lia.
  destruct Hx as [-> _]; exact Ht.
Qed.

(* ------------------------------------------------------------------ *)
(** ** [SCBlock] *)




(* ------------------------------------------------------------------ *)
(** ** [SRBlock] *)

(** C9: with [n_in = n_out] and [include_batch_relu] set, [SRBlock.forward]
    computes the residual sum [x + conv(x)] and its batch normalisation but
    returns [relu(conv(x))]: the returned tensor is fixed by the [1 x 1]
    convolution alone, whatever the parameters of the other layers, and the
    call does return on every non-empty batch of [n]-channel maps that batch
    normalisation accepts. *)
Theorem SRBlock_forward_conv_branch_only
        (n s : nat) (p : SRBlock_params) (x : tensor4) :
  let self := SRBlock_init n n s true p in
  SRBlock_forward self x =
    (out1 <- Conv2d_forward (sr_conv self) x ;;
     out <- add4 x out1 ;;
     _ <- BatchNorm2d_forward (sr_batch_norm self) out ;;
     Some (relu out1)) /\
  (forall y, SRBlock_forward self x = Some y ->
     exists out1, Conv2d_forward (sr_conv self) x = Some out1 /\ y = relu out1) /\
  (forall p' y y',
     srp_conv p' = srp_conv p ->
     SRBlock_forward self x = Some y ->
     SRBlock_forward (SRBlock_init n n s true p') x = Some y' ->
     y = y') /\
  (forall B H W,
     shape4 B n H W x -> 1 <= B -> 1 <= n -> 1 <= H -> 1 <= W ->
     (bp_training (srp_batch_norm p) = true -> B * (H * W) <> 1) ->
     exists out1, Conv2d_forward (sr_conv self) x = Some out1 /\
                  SRBlock_forward self x = Some (relu out1)).
Proof.
  intros self.
  assert (E : forall q, SRBlock_forward (SRBlock_init n n s true q) x =
    (out1 <- Conv2d_forward (sr_conv (SRBlock_init n n s true q)) x ;;
     out <- add4 x out1 ;;
     _ <- BatchNorm2d_forward (sr_batch_norm (SRBlock_init n n s true q)) out ;;
     Some (relu out1))).
  { intros q; unfold SRBlock_forward; cbn [sr_n_in sr_n_out SRBlock_init
      sr_include_batch_relu].
    now rewrite Nat.eqb_refl. }
  assert (V : forall q y, SRBlock_forward (SRBlock_init n n s true q) x = Some y ->
    exists out1,
      Conv2d_forward (sr_conv (SRBlock_init n n s true q)) x = Some out1 /\
      y = relu out1).
  { intros q y Ey; rewrite E in Ey.
    apply bind_Some in Ey as (out1 & E1 & Ey).
    apply bind_Some in Ey as (out & _ & Ey).
    apply bind_Some in Ey as (bn & _ & Ey).
    injection Ey as <-; eauto. }
  split; [apply E|]. split; [apply V|]. split.
  - intros p' y y' Ep Ey Ey'.
    destruct (V p y Ey) as (o & Eo & ->).
    destruct (V p' y' Ey') as (o' & Eo' & ->).
    cbn [sr_conv SRBlock_init] in Eo, Eo'; rewrite Ep in Eo'.
    congruence.
  - intros B H W Hx HB Hn HH HW Ht.
    destruct (Conv2d_forward_Some (sr_conv self) B H W H 0 W 0 x
                Hx HB Hn HH (le_n 1) (Nat.mod_1_r n) (Nat.mod_1_r n)
                (le_n 1) (le_n 1) (le_n 1)
                (conv_out_unit true H HH) (conv_out_unit false W HW))
      as (out1 & E1 & S1).
    cbn in S1.
    destruct (bop4_shape Rplus B n H W x out1 Hx S1) as (out & Eo & So).
    destruct (BatchNorm2d_forward_Some (sr_batch_norm self) B H W out So Ht)
      as (y3 & E3).
    exists out1; split; [exact E1|].
    unfold self; rewrite E; fold self.
    rewrite E1; cbn [bind]. unfold add4; rewrite Eo; cbn [bind].
    now rewrite E3.
Qed.

(** C9 on a one-channel block in evaluation mode. *)
Lemma SRBlock_forward_conv_branch_only_witness :
  exists y,
    SRBlock_forward (SRBlock_init 1 1 1 true unit_SRBlock_params) [[[[1%R]]]]
      = Some y /\
    exists out1,
      Conv2d_forward (sr_conv (SRBlock_init 1 1 1 true unit_SRBlock_params))
        [[[[1%R]]]] = Some out1 /\
      y = relu out1.
Proof.
  eexists; split; [compute_layers; reflexivity|].
  apply (proj1 (proj2
           (SRBlock_forward_conv_branch_only 1 1 unit_SRBlock_params [[[[1%R]]]]))).
  compute_layers; reflexivity.
Defined.

(* ------------------------------------------------------------------ *)
(** ** The action prediction of a block has [N_a] columns *)

Lemma amax23_rows (n : nat) (h : tensor4) (a : tensor2) :
  amax23 h = Some a -> Forall (fun hb => length hb = n) h ->
  length a = length h /\ Forall (fun r => length r = n) a.
Proof.
  unfold amax23; intros E F; apply mapM_Forall2 in E.
  split; [symmetry; eapply Forall2_length; eauto|].
  induction E as [|hb r h a Er _ IH]; constructor.
  - inversion F; subst. apply mapM_Forall2, Forall2_length in Er; congruence.
  - apply IH; now inversion F.
Qed.

Lemma GlobalMaxPlusMinPooling_forward_rows (n : nat) (h : tensor4) (a : tensor2) :
  GlobalMaxPlusMinPooling_forward h = Some a ->
  Forall (fun hb => length hb = n) h ->
  Forall (fun r => length r = n) a.
Proof.
  unfold GlobalMaxPlusMinPooling_forward; intros E F.
  apply bind_Some in E as (mx & Emx & E).
  apply bind_Some in E as (mn & Emn & E).
  destruct (amax23_rows n _ _ Emx F) as [Lx Fx].
  assert (F' : Forall (fun hb => length hb = n) (neg4 h)).
  { unfold neg4, map4d; apply Forall_map; eapply Forall_impl; [|exact F].
    intros hb Hb; now rewrite length_map. }
  destruct (amax23_rows n _ _ Emn F') as [Ln Fn].
  unfold neg4, map4d in Ln; rewrite length_map in Ln.
  unfold sub2, bop2 in E; rewrite bzip_eq_length in E by congruence.
  eapply zipM_Forall; [exact E|].
  intros r1 r2 r H1 H2 Er; unfold bop1 in Er.
  rewrite Forall_forall in Fx, Fn.
  rewrite bzip_eq_length in Er by (rewrite (Fx _ H1), (Fn _ H2); reflexivity).
  apply zipM_length in Er as [-> _]; auto.
Qed.

Lemma ConvBlock_forward_channels (cb : ConvBlock) (x y : tensor4) :
  ConvBlock_forward cb x = Some y ->
  Forall (fun yb => length yb = out_channels (cb_conv cb)) y.
Proof.
  unfold ConvBlock_forward; intros E.
  apply bind_Some in E as (y1 & E1 & E).
  apply bind_Some in E as (y2 & E2 & E); injection E as <-.
  assert (S1 : exists oh ow,
            shape4 (length x) (out_channels (cb_conv cb)) oh ow y1).
  { destruct x as [|xb x].
    - apply Conv2d_forward_nil in E1; subst; exists 0, 0; split; auto.
    - assert (Hne : xb :: x <> []) by discriminate.
      destruct (Conv2d_forward_shape _ _ _ Hne E1)
        as (_ & _ & oh & _ & ow & _ & _ & _ & S1); eauto. }
  destruct S1 as (oh & ow & S1).
  pose proof (relu_shape _ _ _ _ _ (BatchNorm2d_forward_shape _ _ _ _ _ _ _ S1 E2))
    as [_ F].
  eapply Forall_impl; [|exact F]. intros yb Hy; apply Hy.
Qed.

Lemma ActionBlock_forward_rows (pose_rec : bool) (N_a : nat) (p : ActionBlock_params)
      (x : tensor4) (actions : tensor2) (out : tensor4) :
  ActionBlock_forward (ActionBlock_init pose_rec N_a p) x = Some (actions, out) ->
  Forall (fun r => length r = N_a) actions.
Proof.
  unfold ActionBlock_forward; intros E.
  apply bind_Some in E as (o1 & _ & E).
  apply bind_Some in E as (o2 & _ & E).
  apply bind_Some in E as (o3 & _ & E).
  apply bind_Some in E as (o4 & _ & E).
  apply bind_Some in E as (hm & Eh & E).
  apply bind_Some in E as (o5 & _ & E).
  apply bind_Some in E as (o6 & _ & E).
  apply bind_Some in E as (o7 & _ & E).
  apply bind_Some in E as (a & Ea & E).
  injection E as <- <-.
  apply ConvBlock_forward_channels in Eh; cbn in Eh.
  pose proof (GlobalMaxPlusMinPooling_forward_rows N_a _ _ Ea Eh) as F.
  unfold Softmax_forward2; apply Forall_map.
  eapply Forall_impl; [|exact F].
  intros r Hr; now rewrite length_softmax1.
Qed.

(* ------------------------------------------------------------------ *)
(** ** [ActionCombined] *)

Lemma length_set_nth {A : Type} (k : nat) (v : A) (l : list A) :
  k < length l -> length (set_nth k v l) = length l.
Proof.
  intros Hk; unfold set_nth.
  rewrite length_app, length_firstn; cbn [length]; rewrite length_skipn; lia.
Qed.

Lemma nth_set_nth {A : Type} (k i : nat) (v d : A) (l : list A) :
  k < length l ->
  nth i (set_nth k v l) d = if i =? k then v else nth i l d.
Proof.
  intros Hk; unfold set_nth.
  assert (Lf : length (firstn k l) = k) by (rewrite length_firstn; lia).
  destruct (Nat.eqb_spec i k) as [-> | Hik].
  - rewrite app_nth2, Lf, Nat.sub_diag by lia; reflexivity.
  - destruct (Nat.lt_ge_cases i k) as [Hlt | Hge].
    + rewrite app_nth1, nth_firstn by lia.
      destruct (Nat.ltb_spec i k); [reflexivity | lia].
    + rewrite app_nth2, Lf by lia.
      destruct (i - k) as [|m] eqn:Em; [lia|]; cbn [nth].
      rewrite nth_skipn; f_equal; lia.
Qed.

Lemma shape2_set_nth (K N : nat) (k : nat) (row : tensor1) (all : tensor2) :
  shape2 K N all -> k < K -> length row = N -> shape2 K N (set_nth k row all).
Proof.
  intros [Hl F] Hk Hr; split; [rewrite length_set_nth; lia|].
  apply Forall_of_nth with (d := []); intros i Hi.
  rewrite length_set_nth in Hi by lia.
  rewrite nth_set_nth by lia.
  destruct (i =? k); [exact Hr | now apply Forall_nth_lt].
Qed.

Lemma setitem_row_single (K N : nat) (all : tensor2) (k : nat) (row : tensor1) :
  shape2 K N all -> k < K -> length row = N ->
  setitem_row all k [row] = Some (set_nth k row all).
Proof.
  intros [Hl F] Hk Hr; unfold setitem_row.
  destruct (Nat.ltb_spec k (length all)); [simpl | lia].
  pose proof (Forall_nth_lt _ _ k [] F ltac:(lia)) as E; unfold shape1 in E.
  now rewrite E, Hr, Nat.eqb_refl.
Qed.

Lemma setitem_row_rows (K N : nat) (all all' : tensor2) (k : nat) (a : tensor2) :
  shape2 K N all -> Forall (fun r => length r = N) a ->
  setitem_row all k a = Some all' ->
  exists row, a = [row] /\ k < K /\ length row = N /\ all' = set_nth k row all.
Proof.
  intros [Hl F] Fa E; unfold setitem_row in E.
  apply bind_Some in E as ([] & G & E).
  apply guard_Some, Nat.ltb_lt in G.
  apply bind_Some in E as (r & Er & E); injection E as <-.
  pose proof (Forall_nth_lt _ _ k [] F G) as El; unfold shape1 in El.
  destruct a as [|row [|? ?]]; try discriminate.
  pose proof (Forall_inv Fa) as Hr; simpl in Hr.
  unfold expand_row in Er; rewrite El, Hr, Nat.eqb_refl in Er; injection Er as <-.
  exists row; repeat split; auto; lia.
Qed.

Lemma block_calls_cons (k0 : nat) (input : tensor4) (ins : list tensor4) :
  block_calls k0 (input :: ins) =
  Call_action_block k0 input :: block_calls (S k0) ins.
Proof.
  unfold block_calls; cbn [length seq map nth].
  rewrite Nat.add_0_r; f_equal.
  rewrite <- seq_shift, map_map; apply map_ext; intros j.
  cbn [nth]; f_equal; lia.
Qed.

Lemma loop_body_Some (st st' : loop_state) (k : nat) (blk : ActionBlock) :
  loop_body st (k, blk) = Some st' ->
  exists input actions new_out all',
    add_operand (ls_out st) (ls_prev_out st) = Some input /\
    ActionBlock_forward blk input = Some (actions, new_out) /\
    setitem_row (ls_all_actions st) k actions = Some all' /\
    st' = {| ls_all_actions := all';
             ls_prev_out := Tensor (ls_out st);
             ls_out := new_out;
             ls_calls := ls_calls st ++ [Call_action_block k input] |}.
Proof.
  unfold loop_body; intros E.
  apply bind_Some in E as (input & Ei & E).
  apply bind_Some in E as ([actions new_out] & Eb & E).
  apply bind_Some in E as (all' & Ea & E); injection E as <-.
  exists input, actions, new_out, all'; auto.
Qed.

Section Loop.
Variables (N_a K : nat).

Lemma loop_result_nil (k0 : nat) (st : loop_state) :
  shape2 K N_a (ls_all_actions st) ->
  loop_result N_a K [] k0 st st [] [] [].
Proof.
  intros Hs; unfold loop_result; cbn [length].
  do 4 (split; [auto|]). split; [intros; lia|].
  split; [intros [|j] blk' E'; discriminate|].
  split; [exact Hs|]. split; [|split; [reflexivity|]].
  - intros i; destruct (Nat.leb_spec k0 i), (Nat.ltb_spec i (k0 + 0));
      cbn [andb]; auto; lia.
  - unfold block_calls; simpl; now rewrite app_nil_r.
Qed.

Lemma loop_result_cons (blk : ActionBlock) (blocks : list ActionBlock) (k0 : nat)
      (st st' : loop_state) (input new_out : tensor4) (row : tensor1)
      (feats ins : list tensor4) (rows : tensor2) :
  shape2 K N_a (ls_all_actions st) -> k0 < K -> length row = N_a ->
  add_operand (ls_out st) (ls_prev_out st) = Some input ->
  ActionBlock_forward blk input = Some ([row], new_out) ->
  loop_result N_a K blocks (S k0)
    {| ls_all_actions := set_nth k0 row (ls_all_actions st);
       ls_prev_out := Tensor (ls_out st);
       ls_out := new_out;
       ls_calls := ls_calls st ++ [Call_action_block k0 input] |}
    st' feats ins rows ->
  loop_result N_a K (blk :: blocks) k0 st st'
    (new_out :: feats) (input :: ins) (row :: rows).
Proof.
  intros Hs Hk Hr Ei Eb
    (Lf & Li & Lr & Fr & Hb & Hst & Hs' & Hn & Ho & Hc).
  cbn [ls_all_actions ls_prev_out ls_out ls_calls] in *.
  unfold loop_result; cbn [length].
  split; [lia|]. split; [lia|]. split; [lia|]. split; [now constructor|].
  split; [intros [|j] Hj; [lia | specialize (Hb j); lia]|].
  split; [|split; [exact Hs'|split; [|split]]].
  - intros [|j] blk' E'.
    + injection E' as <-; cbn [nth prev_stage]; auto.
    + cbn [nth_error] in E'; destruct (Hst j blk' E') as [A1 A2].
      cbn [nth]; split; [|exact A2].
      destruct j; exact A1.
  - intros i; rewrite Hn, nth_set_nth by (destruct Hs; lia).
    destruct (Nat.leb_spec (S k0) i), (Nat.ltb_spec i (S k0 + length blocks)),
             (Nat.leb_spec k0 i), (Nat.ltb_spec i (k0 + S (length blocks)));
      cbn [andb]; try lia;
      destruct (Nat.eqb_spec i k0) as [-> | Hne]; try lia;
      first [ reflexivity
            | now rewrite Nat.sub_diag
            | replace (i - k0) with (S (i - S k0)) by lia; reflexivity ].
  - exact Ho.
  - rewrite Hc, block_calls_cons, <- app_assoc; reflexivity.
Qed.

(** If the loop finishes, its blocks were chained as [loop_result] says. *)
Lemma loop_sound (blocks : list ActionBlock) :
  predicts_N_a N_a blocks ->
  forall k0 st st',
    shape2 K N_a (ls_all_actions st) ->
    foldM loop_body (combine (seq k0 (length blocks)) blocks) st = Some st' ->
    exists feats ins rows, loop_result N_a K blocks k0 st st' feats ins rows.
Proof.
  induction blocks as [|blk blocks IH]; intros HN k0 st st' Hs E.
  - simpl in E; injection E as <-.
    exists [], [], []; now apply loop_result_nil.
  - cbn [length seq combine foldM] in E.
    apply bind_Some in E as (st1 & E1 & E).
    apply loop_body_Some in E1
      as (input & actions & new_out & all1 & Ei & Eb & Ea & ->).
    destruct (setitem_row_rows K N_a _ _ _ _ Hs
                (HN _ _ _ _ (or_introl eq_refl) Eb) Ea)
      as (row & -> & Hk & Hr & ->).
    pose proof (shape2_set_nth _ _ _ _ _ Hs Hk Hr) as Hs1.
    match type of E with
    | foldM _ _ ?s = _ =>
        destruct (IH (fun b i a o Hb => HN b i a o (or_intror Hb)) (S k0) s st'
                    Hs1 E) as (feats & ins & rows & HR)
    end.
    exists (new_out :: feats), (input :: ins), (row :: rows).
    now apply loop_result_cons.
Qed.

(** If every block accepts its input, the loop finishes. *)
Lemma loop_complete (blocks : list ActionBlock) :
  forall k0 st feats ins rows,
    shape2 K N_a (ls_all_actions st) ->
    length feats = length blocks -> length ins = length blocks ->
    length rows = length blocks ->
    Forall (fun r => length r = N_a) rows ->
    (forall j, j < length blocks -> k0 + j < K) ->
    (forall j blk, nth_error blocks j = Some blk ->
       add_operand (nth j (ls_out st :: feats) [])
                   (prev_stage (ls_prev_out st) (ls_out st :: feats) j)
         = Some (nth j ins []) /\
       ActionBlock_forward blk (nth j ins []) =
         Some ([nth j rows []], nth j feats [])) ->
    exists st',
      foldM loop_body (combine (seq k0 (length blocks)) blocks) st = Some st' /\
      loop_result N_a K blocks k0 st st' feats ins rows.
Proof.
  induction blocks as [|blk blocks IH];
    intros k0 st feats ins rows Hs Lf Li Lr Fr Hb Hst.
  - destruct feats, ins, rows; try discriminate.
    exists st; split; [reflexivity | now apply loop_result_nil].
  - destruct feats as [|new_out feats], ins as [|input ins],
             rows as [|row rows]; try discriminate.
    cbn [length] in *.
    destruct (Hst 0 blk eq_refl) as [Ei Eb]; cbn [nth prev_stage] in Ei, Eb.
    pose proof (Forall_inv Fr) as Hr; cbn beta in Hr.
    assert (Hk : k0 < K) by (specialize (Hb 0); lia).
    set (st1 := {| ls_all_actions := set_nth k0 row (ls_all_actions st);
                   ls_prev_out := Tensor (ls_out st);
                   ls_out := new_out;
                   ls_calls := ls_calls st ++ [Call_action_block k0 input] |}).
    destruct (IH (S k0) st1 feats ins rows) as (st' & E & HR); try lia.
    + apply shape2_set_nth; auto.
    + now apply Forall_inv_tail in Fr.
    + intros j Hj; specialize (Hb (S j)); lia.
    + intros j blk' E'; destruct (Hst (S j) blk' E') as [A1 A2].
      cbn [nth] in A1, A2; split; [|exact A2].
      destruct j; exact A1.
    + exists st'; split; [|now apply loop_result_cons].
      cbn [seq combine foldM]; unfold loop_body at 1.
      rewrite Ei; cbn [bind]. rewrite Eb; cbn [bind].
      rewrite (setitem_row_single K N_a) by auto; cbn [bind].
      exact E.
Qed.
End Loop.

Lemma nth_error_seq0 (n k : nat) : k < n -> nth_error (seq 0 n) k = Some k.
Proof.
  intros Hk; rewrite (nth_error_nth' _ 0) by (rewrite length_seq; lia).
  now rewrite seq_nth.
Qed.

Lemma nth_error_blocks (pose_rec : bool) (N_a K : nat)
      (pb : nat -> ActionBlock_params) (j : nat) (blk : ActionBlock) :
  nth_error (map (fun i => ActionBlock_init pose_rec N_a (pb i)) (seq 0 K)) j
    = Some blk <->
  j < K /\ blk = ActionBlock_init pose_rec N_a (pb j).
Proof.
  rewrite nth_error_map; split.
  - intros E.
    assert (Hj : j < K).
    { destruct (Nat.lt_ge_cases j K) as [|Hge]; auto.
      rewrite (proj2 (nth_error_None (seq 0 K) j)) in E
        by (rewrite length_seq; lia).
      discriminate. }
    rewrite nth_error_seq0 in E by auto; injection E as <-; auto.
  - intros [Hj ->]; now rewrite nth_error_seq0.
Qed.

Lemma zeros_shape (K N : nat) : shape2 K N (repeat (repeat 0%R N) K).
Proof.
  split; [apply repeat_length|]. apply Forall_repeat, repeat_length.
Qed.

(** C1: [ActionCombined.forward] returns [(all_actions, out)], having made
    the calls [calls], exactly when there are feature outputs
    [feats = f_0, ..., f_K] and block inputs [ins] such that [f_0] is the
    output of [ActionStart] on [x]; the input of block [k] is
    [f_k + f_(k-1)], with the number 0 in place of [f_(-1)]; block [k]
    returns the [1 x N_a] prediction that is row [k] of the [K x N_a] tensor
    [all_actions], and the feature output [f_(k+1)]; [out] is [f_K], the
    feature output of the last block; and the calls are [ActionStart] once,
    then blocks [0, ..., K - 1] in that order.  This holds for every [K]. *)
Theorem ActionCombined_forward_stacked
        (pose_rec : bool) (N_a K : nat) (ps : ActionStart_params)
        (pb : nat -> ActionBlock_params)
        (x : tensor4) (all_actions : tensor2) (out : tensor4) (calls : list call) :
  let self := ActionCombined_init pose_rec N_a K ps pb in
  (ActionCombined_forward self x =
     option_map fst (ActionCombined_forward_calls self x)) /\
  (ActionCombined_forward_calls self x = Some (all_actions, out, calls) <->
   exists feats ins,
     length feats = S K /\ length ins = K /\ shape2 K N_a all_actions /\
     ActionStart_forward (ac_action_start self) x = Some (nth 0 feats []) /\
     (forall k, k < K ->
        add_operand (nth k feats []) (prev_stage (Number 0) feats k)
          = Some (nth k ins []) /\
        ActionBlock_forward (ActionBlock_init pose_rec N_a (pb k)) (nth k ins [])
          = Some ([nth k all_actions []], nth (S k) feats [])) /\
     out = nth K feats [] /\
     calls = Call_action_start x :: block_calls 0 ins).
Proof.
  intros self; split; [reflexivity|].
  set (blocks := map (fun i => ActionBlock_init pose_rec N_a (pb i)) (seq 0 K)).
  assert (LB : length blocks = K)
    by (unfold blocks; now rewrite length_map, length_seq).
  assert (EF : forall s0,
            ActionStart_forward (ac_action_start self) x = Some s0 ->
            ActionCombined_forward_calls self x =
            (st <- foldM loop_body (combine (seq 0 (length blocks)) blocks)
                     {| ls_all_actions := repeat (repeat 0%R N_a) K;
                        ls_prev_out := Number 0;
                        ls_out := s0;
                        ls_calls := [Call_action_start x] |} ;;
             Some (ls_all_actions st, ls_out st, ls_calls st))).
  { intros s0 E0; unfold ActionCombined_forward_calls; rewrite E0; reflexivity. }
  split.
  - intros E.
    destruct (ActionStart_forward (ac_action_start self) x) as [s0|] eqn:E0;
      [|unfold ActionCombined_forward_calls in E; rewrite E0 in E; discriminate].
    rewrite (EF s0 eq_refl) in E.
    apply bind_Some in E as (st & Est & E); injection E as <- <- <-.
    apply (loop_sound N_a K) in Est as (feats & ins & rows & HR).
    + destruct HR as (Lf & Li & Lr & Fr & Hb & Hst & Hs' & Hn & Ho & Hc).
      cbn [ls_all_actions ls_prev_out ls_out ls_calls] in *.
      exists (s0 :: feats), ins.
      split; [cbn [length]; lia|]. split; [lia|]. split; [exact Hs'|].
      split; [reflexivity|]. split; [|split].
      * intros k Hk.
        destruct (Hst k (ActionBlock_init pose_rec N_a (pb k))) as [A1 A2];
          [now apply nth_error_blocks|].
        split; [exact A1|]. rewrite A2; cbn [nth]; do 3 f_equal.
        rewrite Hn.
        destruct (Nat.leb_spec 0 k), (Nat.ltb_spec k (0 + length blocks));
          cbn [andb]; try lia.
        now rewrite Nat.sub_0_r.
      * now rewrite Ho, LB.
      * exact Hc.
    + intros blk input actions o Hin Eb; unfold blocks in Hin.
      apply in_map_iff in Hin as (i & <- & _).
      eapply ActionBlock_forward_rows; eauto.
    + apply zeros_shape.
  - intros (feats & ins & Lf & Li & Hs & E0 & Hst & -> & ->).
    destruct feats as [|s0 feats]; [discriminate|]; cbn [nth] in E0.
    rewrite (EF s0 E0).
    destruct (loop_complete N_a K blocks 0
                {| ls_all_actions := repeat (repeat 0%R N_a) K;
                   ls_prev_out := Number 0;
                   ls_out := s0;
                   ls_calls := [Call_action_start x] |}
                feats ins all_actions) as (st' & Est & HR);
      try (cbn [length] in Lf; destruct Hs; lia).
    + apply zeros_shape.
    + apply Hs.
    + intros j blk Eb; apply nth_error_blocks in Eb as [Hj ->].
      cbn [ls_out ls_prev_out]. destruct (Hst j Hj) as [A1 A2]; auto.
    + rewrite Est; cbn [bind].
      destruct HR as (_ & _ & _ & _ & _ & _ & Hs' & Hn & Ho & Hc).
      cbn [ls_all_actions ls_prev_out ls_out ls_calls] in *.
      rewrite Ho, Hc, LB; do 3 f_equal.
      apply (nth_ext _ _ [] []); [destruct Hs, Hs'; lia|].
      intros i Hi; rewrite Hn.
      destruct (Nat.leb_spec 0 i), (Nat.ltb_spec i (0 + length blocks));
        cbn [andb]; try (destruct Hs'; lia).
      now rewrite Nat.sub_0_r.
Qed.

(* ------------------------------------------------------------------ *)
(** ** [ActionRecognition]: what the output depends on *)












(* ================================================================== *)
(** * Further properties of the layers *)

(* ------------------------------------------------------------------ *)
(** ** Element-wise maps commute with sizes, flattening and views *)






Lemma neg4_involutive (x : tensor4) : neg4 (neg4 x) = x.
Proof.
  unfold neg4, map4d; rewrite map_map; rewrite <- (map_id x) at 2.
  apply map_ext; intros xb; rewrite map_map; rewrite <- (map_id xb) at 2.
  apply map_ext; intros m; rewrite map_map; rewrite <- (map_id m) at 2.
  apply map_ext; intros r; rewrite map_map; rewrite <- (map_id r) at 2.
  apply map_ext; intros v; apply Ropp_involutive.
Qed.

(* ------------------------------------------------------------------ *)
(** ** [spacial_softmax] and [SoftArgMax] do not see a common offset *)








(* ------------------------------------------------------------------ *)
(** ** Max-plus-min pooling of the negated input *)

Lemma zipM_swap {A B C D : Type} (f : B -> A -> option D) (g : A -> B -> option C)
      (h : C -> D) (l1 : list A) (l2 : list B) :
  (forall a b, f b a = option_map h (g a b)) ->
  zipM f l2 l1 = option_map (map h) (zipM g l1 l2).
Proof.
  intros E; revert l2; induction l1 as [|a l1 IH]; intros [|b l2]; simpl; auto.
  rewrite E; destruct (g a b); simpl; auto.
  rewrite IH; now destruct (zipM g l1 l2).
Qed.

Lemma bzip_swap {A B C D : Type} (f : B -> A -> option D) (g : A -> B -> option C)
      (h : C -> D) (l1 : list A) (l2 : list B) :
  (forall a b, f b a = option_map h (g a b)) ->
  bzip f l2 l1 = option_map (map h) (bzip g l1 l2).
Proof.
  intros E; unfold bzip; rewrite (Nat.eqb_sym (length l2)).
  destruct (Nat.eqb_spec (length l1) (length l2)) as [El | Nl];
    [now apply zipM_swap|].
  destruct l1 as [|a [|a' l1]], l2 as [|b [|b' l2]]; simpl in Nl; try lia; auto;
    rewrite mapM_option_map; apply mapM_ext; intros; apply E.
Qed.

Lemma bop1_swap (a b : tensor1) :
  bop1 Rminus b a = option_map (map Ropp) (bop1 Rminus a b).
Proof. apply bzip_swap; intros u v; simpl; f_equal; lra. Qed.

Lemma bop2_swap (a b : tensor2) :
  bop2 Rminus b a = option_map (map (map Ropp)) (bop2 Rminus a b).
Proof. apply bzip_swap; intros; apply bop1_swap. Qed.

Lemma bop3_swap (a b : tensor3) :
  bop3 Rminus b a = option_map (map (map (map Ropp))) (bop3 Rminus a b).
Proof. apply bzip_swap; intros; apply bop2_swap. Qed.

Lemma sub4_swap (a b : tensor4) : sub4 b a = option_map neg4 (sub4 a b).
Proof. apply bzip_swap; intros; apply bop3_swap. Qed.

(** X3: [MaxPlusMinPooling.forward] is odd: on the negated input it returns
    the negated output, and it raises on the one exactly when it raises on
    the other. *)
Theorem MaxPlusMinPooling_forward_neg (kernel_size stride padding : nat) (x : tensor4) :
  let self := MaxPlusMinPooling_init kernel_size stride padding in
  MaxPlusMinPooling_forward self (neg4 x) =
  option_map neg4 (MaxPlusMinPooling_forward self x).
Proof.
  intros self; unfold MaxPlusMinPooling_forward, self, MaxPlusMinPooling_init.
  cbn [mpm_maxpool mpm_minpool]; rewrite neg4_involutive.
  set (pool := {| mp_kernel_size := kernel_size; mp_stride := stride;
                  mp_padding := padding |}).
  destruct (MaxPool2d_forward pool x) as [a|],
           (MaxPool2d_forward pool (neg4 x)) as [b|]; simpl; auto.
  apply sub4_swap.
Qed.

(** X4: [GlobalMaxPlusMinPooling.forward] is odd as well. *)
Theorem GlobalMaxPlusMinPooling_forward_neg (x : tensor4) :
  GlobalMaxPlusMinPooling_forward (neg4 x) =
  option_map (map (map Ropp)) (GlobalMaxPlusMinPooling_forward x).
Proof.
  unfold GlobalMaxPlusMinPooling_forward; rewrite neg4_involutive.
  destruct (amax23 x) as [a|], (amax23 (neg4 x)) as [b|]; simpl; auto.
  apply bop2_swap.
Qed.

(* ------------------------------------------------------------------ *)
(** ** The output size of [MaxPlusMinPooling] *)

Lemma mapM_Forall_Some {A B : Type} (f : A -> option B) (P : B -> Prop) (l : list A) :
  Forall (fun a => exists b, f a = Some b /\ P b) l ->
  exists l', mapM f l = Some l' /\ length l' = length l /\ Forall P l'.
Proof.
  induction 1 as [|a l (b & Eb & Pb) _ (l' & El & Ll & Fl)]; simpl.
  - exists []; auto.
  - exists (b :: l'); rewrite Eb, El; simpl; auto.
Qed.

Lemma MaxPlusMinPooling_forward_eq (k s p : nat) (x : tensor4) :
  MaxPlusMinPooling_forward (MaxPlusMinPooling_init k s p) x =
  (a <- pool4d rmax_list k s p x ;;
   b <- pool4d rmin_list k s p x ;;
   add4 a b).
Proof.
  unfold MaxPlusMinPooling_forward, MaxPlusMinPooling_init, MaxPool2d_forward.
  cbn [mpm_maxpool mpm_minpool mp_kernel_size mp_stride mp_padding].
  destruct (pool4d rmax_list k s p x) as [a|]; simpl; auto.
  rewrite pool4d_neg.
  destruct (pool4d rmin_list k s p x) as [b|]; simpl; auto.
  apply sub4_neg4.
Qed.

Lemma pool2d_Some (red : list R -> R) (k s p H W : nat) (m : tensor2) :
  shape2 H W m -> 1 <= k -> 1 <= s -> p <= k / 2 -> 1 <= H -> 1 <= W ->
  k <= H + 2 * p -> k <= W + 2 * p ->
  exists y, pool2d red k s p m = Some y /\
            shape2 ((H + 2 * p - k) / s + 1) ((W + 2 * p - k) / s + 1) y.
Proof.
  intros [HlH F] Hk Hs Hp HH HW HkH HkW; unfold pool2d.
  assert (EW : length (hd [] m) = W).
  { rewrite hd_nth0; apply (Forall_nth_lt _ _ 0 [] F); lia. }
  rewrite HlH, EW, guard_true.
  - unfold pool_out.
    destruct (Nat.ltb_spec (H + 2 * p) k); [lia|].
    destruct (Nat.ltb_spec (W + 2 * p) k); [lia|].
    cbn [bind]; eexists; split; [reflexivity|].
    split; [now rewrite length_map, length_seq|].
    apply Forall_map, Forall_forall; intros i _.
    unfold shape1; now rewrite length_map, length_seq.
  - rewrite !andb_true_iff, !Nat.leb_le; auto.
Qed.

Lemma pool2d_None (red : list R -> R) (k s p H W : nat) (m : tensor2) :
  shape2 H W m ->
  k = 0 \/ s = 0 \/ k / 2 < p \/ H = 0 \/ W = 0 \/
    H + 2 * p < k \/ W + 2 * p < k ->
  pool2d red k s p m = None.
Proof.
  intros [HlH F] Hc; unfold pool2d.
  destruct ((1 <=? k) && (1 <=? s) && (p <=? k / 2) && (1 <=? length m)
            && (1 <=? length (hd [] m))) eqn:G; [|reflexivity].
  rewrite !andb_true_iff, !Nat.leb_le in G.
  destruct G as ((((Gk & Gs) & Gp) & GH) & GW).
  assert (EW : length (hd [] m) = W).
  { rewrite hd_nth0; apply (Forall_nth_lt _ _ 0 [] F); lia. }
  rewrite HlH, EW in *; cbn [guard bind]; unfold pool_out.
  destruct (Nat.ltb_spec (H + 2 * p) k); [reflexivity|].
  destruct (Nat.ltb_spec (W + 2 * p) k); [reflexivity|]. lia.
Qed.

Lemma pool4d_Some (red : list R -> R) (k s p B C H W : nat) (x : tensor4) :
  shape4 B C H W x -> 1 <= k -> 1 <= s -> p <= k / 2 ->
  1 <= C -> 1 <= H -> 1 <= W -> k <= H + 2 * p -> k <= W + 2 * p ->
  exists y, pool4d red k s p x = Some y /\
            shape4 B C ((H + 2 * p - k) / s + 1) ((W + 2 * p - k) / s + 1) y.
Proof.
  intros [HlB F] Hk Hs Hp HC HH HW HkH HkW; unfold pool4d.
  destruct (mapM_Forall_Some
              (fun xb => _ <- guard (1 <=? length xb) ;; mapM (pool2d red k s p) xb)
              (shape3 C ((H + 2 * p - k) / s + 1) ((W + 2 * p - k) / s + 1)) x)
    as (y & Ey & Ly & Fy).
  - eapply Forall_impl; [|exact F]. intros xb [HlC Fb].
    rewrite guard_true by (apply Nat.leb_le; lia).
    destruct (mapM_Forall_Some (pool2d red k s p)
                (shape2 ((H + 2 * p - k) / s + 1) ((W + 2 * p - k) / s + 1)) xb)
      as (yb & Eyb & Lyb & Fyb).
    + eapply Forall_impl; [|exact Fb]. intros m Hm.
      now apply (pool2d_Some red k s p H W).
    + exists yb; split; [exact Eyb|]. split; [congruence | exact Fyb].
  - exists y; split; [exact Ey|]. split; [congruence | exact Fy].
Qed.

Lemma pool4d_None (red : list R -> R) (k s p B C H W : nat) (x : tensor4) :
  shape4 B C H W x -> 1 <= B ->
  k = 0 \/ s = 0 \/ k / 2 < p \/ C = 0 \/ H = 0 \/ W = 0 \/
    H + 2 * p < k \/ W + 2 * p < k ->
  pool4d red k s p x = None.
Proof.
  intros [HlB F] HB Hc; unfold pool4d.
  destruct x as [|xb x]; [simpl in HlB; lia|].
  inversion F as [|? ? [HlC Fb] _]; subst.
  cbn [mapM].
  destruct xb as [|m xb]; [reflexivity|].
  cbn [length Nat.leb guard bind mapM].
  inversion Fb as [|? ? Hm _]; subst.
  rewrite (pool2d_None red k s p H W m Hm); [reflexivity|].
  simpl in Hc; intuition lia.
Qed.

(** X5: on a non-empty batch of [C] maps of size [H x W],
    [MaxPlusMinPooling.forward] raises exactly when the kernel size or the
    stride is 0, the padding exceeds half the kernel size, there is no
    channel, a map is empty, or the padded map is smaller than the kernel;
    otherwise its output is [B x C x ((H + 2p - k) / s + 1) x
    ((W + 2p - k) / s + 1)]. *)
Theorem MaxPlusMinPooling_forward_shape
        (kernel_size stride padding B C H W : nat) (x : tensor4) :
  let self := MaxPlusMinPooling_init kernel_size stride padding in
  shape4 B C H W x -> 1 <= B ->
  (MaxPlusMinPooling_forward self x = None <->
   kernel_size = 0 \/ stride = 0 \/ kernel_size / 2 < padding \/
   C = 0 \/ H = 0 \/ W = 0 \/
   H + 2 * padding < kernel_size \/ W + 2 * padding < kernel_size) /\
  forall y, MaxPlusMinPooling_forward self x = Some y ->
    shape4 B C ((H + 2 * padding - kernel_size) / stride + 1)
               ((W + 2 * padding - kernel_size) / stride + 1) y.
Proof.
  intros self Hx HB; unfold self; rewrite MaxPlusMinPooling_forward_eq.
  assert (D : (kernel_size = 0 \/ stride = 0 \/ kernel_size / 2 < padding \/
               C = 0 \/ H = 0 \/ W = 0 \/
               H + 2 * padding < kernel_size \/ W + 2 * padding < kernel_size) \/
              (1 <= kernel_size /\ 1 <= stride /\ padding <= kernel_size / 2 /\
               1 <= C /\ 1 <= H /\ 1 <= W /\
               kernel_size <= H + 2 * padding /\ kernel_size <= W + 2 * padding))
    by lia.
  destruct D as [Hc | (Hk & Hs & Hp & HC & HH & HW & HkH & HkW)].
  - rewrite (pool4d_None _ _ _ _ B C H W x Hx HB Hc); cbn [bind].
    split; [tauto | discriminate].
  - destruct (pool4d_Some rmax_list _ _ _ B C H W x Hx Hk Hs Hp HC HH HW HkH HkW)
      as (a & Ea & Sa).
    destruct (pool4d_Some rmin_list _ _ _ B C H W x Hx Hk Hs Hp HC HH HW HkH HkW)
      as (b & Eb & Sb).
    destruct (bop4_shape Rplus _ _ _ _ a b Sa Sb) as (y & Ey & Sy).
    rewrite Ea, Eb; cbn [bind]; unfold add4; rewrite Ey.
    split; [split; [discriminate | lia]|].
    now intros y' E; injection E as <-.
Qed.

(** X5 with the window of the action blocks, [kernel_size = 2] and
    [stride = 2], on a [1 x 1 x 2 x 2] input. *)
Lemma MaxPlusMinPooling_forward_shape_witness :
  (MaxPlusMinPooling_forward (MaxPlusMinPooling_init 2 2 0)
     [[[[1; 2]; [3; 4]]]]%R = None <->
   2 = 0 \/ 2 = 0 \/ 2 / 2 < 0 \/ 1 = 0 \/ 2 = 0 \/ 2 = 0 \/
   2 + 2 * 0 < 2 \/ 2 + 2 * 0 < 2) /\
  forall y, MaxPlusMinPooling_forward (MaxPlusMinPooling_init 2 2 0)
              [[[[1; 2]; [3; 4]]]]%R = Some y ->
    shape4 1 1 ((2 + 2 * 0 - 2) / 2 + 1) ((2 + 2 * 0 - 2) / 2 + 1) y.
Proof.
  apply (MaxPlusMinPooling_forward_shape 2 2 0 1 1 2 2);
    [repeat (constructor; simpl; auto) | lia].
Defined.

(* ------------------------------------------------------------------ *)
(** ** [SoftArgMax] on 3-D inputs *)

Lemma chunks_one {A : Type} (l : list A) :
  chunks (length l) 1 l = map (fun v => [v]) l.
Proof. induction l as [|a l IH]; simpl; auto. now rewrite IH. Qed.

Lemma flatten2_singletons {A : Type} (l : list A) :
  flatten2 (map (fun v => [v]) l) = l.
Proof. unfold flatten2; induction l as [|a l IH]; simpl; auto. now rewrite IH. Qed.

Lemma weighted_sum_column (H : nat) (r : tensor1) (wt : nat -> nat -> R) :
  length r = H ->
  weighted_sum H 1 (map (fun v => [v]) r) wt =
  rsum (map (fun h => (get1 r h * wt h 0%nat)%R) (seq 0 H)).
Proof.
  intros Hr; unfold weighted_sum; f_equal.
  apply map_ext_in; intros h Hh; apply in_seq in Hh; simpl.
  unfold get2; rewrite (nth_map_lt _ r _ 0%R) by lia.
  unfold get1; simpl; lra.
Qed.

(** X6: on a [B x C x H] input with [H >= 2], [SoftArgMax.forward] returns a
    [B x C x 1] tensor of finite numbers,
    [out[b, c, 0] = sum_h p[b, c, h] * (h / (H - 1))], where [p[b, c]] is
    the softmax of [x[b, c]] (or [x[b, c]] itself without the softmax): the
    width coordinate, a division by zero, is dropped. *)
Theorem SoftArgMax_forward_1D (B C H : nat) (x : tensor3) (apply_softmax : bool) :
  shape3 B C H x -> 1 <= B -> 1 <= C -> 2 <= H ->
  exists out,
    SoftArgMax_forward (Maps1D x) apply_softmax = Some out /\
    length out = B /\
    (forall b, b < B -> length (nth b out []) = C) /\
    forall b c, b < B -> c < C ->
      let r := nth c (nth b x []) [] in
      let p := if apply_softmax then softmax1 r else r in
      nth c (nth b out []) [] =
      [Finite (rsum (map (fun h => (get1 p h * (INR h / INR (H - 1)))%R)
                         (seq 0 H)))].
Proof.
  intros Hx HB HC HH.
  pose proof (unsqueeze_last_shape _ _ _ _ Hx) as Hx4.
  destruct (x_prob_shape _ _ _ _ _ apply_softmax Hx4 HB HC
              ltac:(lia) ltac:(lia)) as (p & Ep & Hp).
  pose proof (SoftArgMax_body B C H 1 (unsqueeze_last x) p apply_softmax
                (fun out => Some (map2d (fun e => [nth 1 e NonFinite]) out))
                Hx4 HB HC ltac:(lia) Ep Hp) as E.
  cbv beta in E. eexists; split; [exact E|].
  destruct Hx as [HlB Fx]; pose proof Hp as [HlBp Fp].
  assert (HlC : forall b, b < B -> length (nth b p []) = C)
    by (intros b Hb; apply (Forall_nth_lt _ _ b [] Fp); lia).
  unfold map2d; rewrite !map_map, !length_map.
  split; [exact HlBp|]. split.
  - intros b Hb; rewrite (nth_map_lt _ p _ []) by lia.
    rewrite !length_map; auto.
  - intros b c Hb Hc.
    set (r := nth c (nth b x []) []).
    set (q := if apply_softmax then softmax1 r else r).
    rewrite (nth_map_lt _ p _ []) by lia.
    rewrite map_map, (nth_map_lt _ _ _ []) by (rewrite HlC; lia).
    cbn [nth]; do 2 f_equal.
    pose proof (Forall_nth_lt _ _ b [] Fx ltac:(lia)) as [HlCx Fxb].
    pose proof (Forall_nth_lt _ _ c [] Fxb ltac:(lia)) as Hr.
    fold r in Hr; unfold shape1 in Hr.
    assert (Em : nth c (nth b p []) [] = map (fun v => [v]) q).
    { assert (Eu : nth c (nth b (unsqueeze_last x) []) [] = map (fun v => [v]) r).
      { unfold unsqueeze_last.
        rewrite (nth_map_lt _ x _ []) by lia.
        now rewrite (nth_map_lt _ _ _ []) by lia. }
      unfold q; destruct apply_softmax.
      - rewrite (spacial_softmax_eq _ _ _ _ _ Hx4) in Ep by lia.
        injection Ep as <-.
        rewrite (nth_map_lt _ _ _ []) by (destruct Hx4; lia).
        rewrite (nth_map_lt _ _ _ [])
          by (rewrite (proj1 (shape4_nth _ _ _ _ _ b Hx4 Hb)); lia).
        rewrite Eu, flatten2_singletons.
        rewrite <- Hr, <- (length_softmax1 r); apply chunks_one.
      - injection Ep as <-; exact Eu. }
    rewrite Em.
    assert (Lq : length q = H)
      by (unfold q; destruct apply_softmax; [rewrite length_softmax1|]; exact Hr).
    rewrite (xweighted_sum_ext H 1 _ _
               (fun h w => Finite (INR h / INR (H - 1))))
      by (intros; now apply div_int_Finite).
    rewrite xweighted_sum_Finite; f_equal.
    now apply weighted_sum_column.
Qed.

(** X6 on the 3-D input [[[0, 1]]], with the softmax applied. *)
Lemma SoftArgMax_forward_1D_witness :
  exists out,
    SoftArgMax_forward (Maps1D [[[0; 1]]]%R) true = Some out /\
    length out = 1 /\
    (forall b, b < 1 -> length (nth b out []) = 1) /\
    forall b c, b < 1 -> c < 1 ->
      let r := nth c (nth b [[[0; 1]]]%R []) [] in
      let p := if true then softmax1 r else r in
      nth c (nth b out []) [] =
      [Finite (rsum (map (fun h => (get1 p h * (INR h / INR (2 - 1)))%R)
                         (seq 0 2)))].
Proof.
  apply (SoftArgMax_forward_1D 1 1 2 [[[0; 1]]]%R true);
    [repeat (constructor; simpl; auto) | lia | lia | lia].
Defined.

(* ------------------------------------------------------------------ *)
(** ** The coordinates returned by [SoftArgMax] lie in the unit square *)



Lemma rsum_map_zero {A : Type} (l : list A) : rsum (map (fun _ => 0%R) l) = 0%R.
Proof. induction l as [|a l IH]; simpl; [|rewrite IH]; lra. Qed.



Lemma weighted_sum_one (H W : nat) (m : tensor2) :
  shape2 H W m -> weighted_sum H W m (fun _ _ => 1%R) = sum2 m.
Proof.
  intros [Hl F]; unfold weighted_sum, sum2.
  transitivity (rsum (map rsum (map (fun h => nth h m []) (seq 0 H))));
    [|now rewrite <- Hl, map_nth_seq].
  rewrite map_map; apply f_equal, map_ext_in; intros h Hh; apply in_seq in Hh.
  pose proof (Forall_nth_lt _ _ h [] F ltac:(lia)) as Hr; unfold shape1 in Hr.
  transitivity (rsum (map (fun w => nth w (nth h m []) 0%R) (seq 0 W)));
    [|now rewrite <- Hr, map_nth_seq].
  apply f_equal, map_ext; intros w; unfold get2, get1; lra.
Qed.





(* ------------------------------------------------------------------ *)
(** ** [SoftArgMax] of a one-hot map *)

Lemma rsum_single (f : nat -> R) (i0 a n : nat) :
  a <= i0 < a + n ->
  rsum (map (fun i => if i =? i0 then f i else 0%R) (seq a n)) = f i0.
Proof.
  revert a; induction n as [|n IH]; intros a Hi; [lia|].
  simpl; destruct (Nat.eqb_spec a i0) as [-> | Hne].
  - rewrite (map_ext_in _ (fun _ => 0%R)); [rewrite rsum_map_zero; lra|].
    intros i Hin; apply in_seq in Hin.
    destruct (Nat.eqb_spec i i0); [lia | reflexivity].
  - rewrite IH by lia; lra.
Qed.

Lemma weighted_sum_one_hot (H W h0 w0 : nat) (m : tensor2) (wt : nat -> nat -> R) :
  h0 < H -> w0 < W ->
  (forall h w, h < H -> w < W ->
     get2 m h w = if (h =? h0) && (w =? w0) then 1%R else 0%R) ->
  weighted_sum H W m wt = wt h0 w0.
Proof.
  intros Hh0 Hw0 Hm; unfold weighted_sum.
  rewrite (map_ext_in _ (fun h => if h =? h0 then wt h w0 else 0%R)).
  - apply (rsum_single (fun h => wt h w0)); lia.
  - intros h Hh; apply in_seq in Hh.
    destruct (Nat.eqb_spec h h0) as [-> | Hne].
    + rewrite (map_ext_in _ (fun w => if w =? w0 then wt h0 w else 0%R)).
      * apply (rsum_single (wt h0)); lia.
      * intros w Hw; apply in_seq in Hw.
        rewrite Hm, Nat.eqb_refl by lia; simpl.
        destruct (w =? w0); lra.
    + rewrite (map_ext_in _ (fun _ => 0%R)); [apply rsum_map_zero|].
      intros w Hw; apply in_seq in Hw.
      rewrite Hm by lia.
      destruct (Nat.eqb_spec h h0); [lia|]; simpl; lra.
Qed.

(** X8: without the softmax, on a non-empty [B x C x H x W] input with
    [H, W >= 2], [SoftArgMax.forward] returns, and where the map at [b, c]
    is one-hot, 1 at [(h0, w0)] and 0 elsewhere, the returned pair is the
    position of the 1 in normalised [(x, y)] order,
    [(w0 / (W - 1), h0 / (H - 1))]. *)
Theorem SoftArgMax_forward_one_hot (B C H W : nat) (x : tensor4) :
  shape4 B C H W x -> 1 <= B -> 1 <= C -> 2 <= H -> 2 <= W ->
  exists out,
    SoftArgMax_forward (Maps2D x) false = Some out /\
    forall b c h0 w0, b < B -> c < C -> h0 < H -> w0 < W ->
      (forall h w, h < H -> w < W ->
         get4 x b c h w = if (h =? h0) && (w =? w0) then 1%R else 0%R) ->
      nth c (nth b out []) [] =
      [Finite (INR w0 / INR (W - 1)); Finite (INR h0 / INR (H - 1))].
Proof.
  intros Hx HB HC HH HW.
  pose proof (SoftArgMax_body B C H W x x false (fun out => Some out)
                Hx HB HC ltac:(lia) eq_refl Hx) as E.
  cbv beta in E. eexists; split; [exact E|].
  intros b c h0 w0 Hb Hc Hh0 Hw0 Hm.
  pose proof (shape4_nth _ _ _ _ _ b Hx Hb) as [HlC _].
  destruct Hx as [HlB _].
  rewrite (nth_map_lt _ x _ []) by lia.
  rewrite (nth_map_lt _ _ _ []) by lia.
  f_equal; [|f_equal];
    (erewrite xweighted_sum_ext; [|intros; now apply div_int_Finite]);
    rewrite xweighted_sum_Finite; f_equal;
    now apply (weighted_sum_one_hot H W h0 w0).
Qed.

(** X8 on a [1 x 1 x 2 x 2] input with its 1 in row 1, column 0. *)
Lemma SoftArgMax_forward_one_hot_witness :
  exists out,
    SoftArgMax_forward (Maps2D [[[[0; 0]; [1; 0]]]]%R) false = Some out /\
    nth 0 (nth 0 out []) [] =
    [Finite (INR 0 / INR (2 - 1)); Finite (INR 1 / INR (2 - 1))].
Proof.
  destruct (SoftArgMax_forward_one_hot 1 1 2 2 [[[[0; 0]; [1; 0]]]]%R)
    as (out & E & Hout);
    [repeat (constructor; simpl; auto) | lia | lia | lia | lia |].
  exists out; split; [exact E|].
  apply (Hout 0 0 1 0); try lia.
  intros [|[|h]] [|[|w]] Hh Hw; try lia; reflexivity.
Defined.

(* ------------------------------------------------------------------ *)
(** ** [ConvBlock] *)

Lemma relu_nonneg (x : tensor4) : nonneg4 (relu x).
Proof.
  unfold nonneg4, relu, map4d.
  apply Forall_map, Forall_forall; intros xb _.
  apply Forall_map, Forall_forall; intros m _.
  apply Forall_map, Forall_forall; intros r _.
  apply Forall_map, Forall_forall; intros v _.
  apply Rmax_l.
Qed.


(** A convolution block accepts what its convolution and its batch
    normalisation accept; its output has the size of the convolution's and
    no negative entry. *)
Lemma ConvBlock_forward_Some (cb : ConvBlock) (B H W oh pt ow pl : nat) (x : tensor4) :
  shape4 B (in_channels (cb_conv cb)) H W x ->
  1 <= B -> 1 <= in_channels (cb_conv cb) -> 1 <= H ->
  groups (cb_conv cb) = 1 ->
  1 <= fst (kernel_size (cb_conv cb)) -> 1 <= snd (kernel_size (cb_conv cb)) ->
  1 <= stride (cb_conv cb) ->
  conv_out (padding (cb_conv cb)) true H (fst (kernel_size (cb_conv cb)))
    (stride (cb_conv cb)) = Some (oh, pt) ->
  conv_out (padding (cb_conv cb)) false W (snd (kernel_size (cb_conv cb)))
    (stride (cb_conv cb)) = Some (ow, pl) ->
  num_features (cb_batch_norm cb) = out_channels (cb_conv cb) ->
  (training (cb_batch_norm cb) = true -> B * (oh * ow) <> 1) ->
  exists y, ConvBlock_forward cb x = Some y /\
            shape4 B (out_channels (cb_conv cb)) oh ow y /\ nonneg4 y.
Proof.
  intros Hx HB HC HH Hg Hkh Hkw Hs Eh Ew Ef Ht.
  destruct (Conv2d_forward_Some (cb_conv cb) B H W oh pt ow pl x)
    as (y1 & E1 & S1); auto; try (rewrite Hg; auto using Nat.mod_1_r).
  rewrite <- Ef in S1.
  destruct (BatchNorm2d_forward_Some (cb_batch_norm cb) B oh ow y1 S1 Ht)
    as (y2 & E2).
  pose proof (BatchNorm2d_forward_shape _ _ _ _ _ _ _ S1 E2) as S2.
  exists (relu y2); unfold ConvBlock_forward; rewrite E1; cbn [bind].
  rewrite E2; cbn [bind]. rewrite <- Ef.
  split; [reflexivity|]. split; [now apply relu_shape | apply relu_nonneg].
Qed.

Lemma ConvBlock_same_Some (n_in n_out kh kw B H W : nat) (p : ConvBlock_params)
      (x : tensor4) :
  shape4 B n_in H W x ->
  1 <= B -> 1 <= n_in -> 1 <= H -> 1 <= W -> 1 <= kh -> 1 <= kw ->
  (bp_training (snd p) = true -> B * (H * W) <> 1) ->
  exists y, ConvBlock_forward (ConvBlock_init n_in n_out (kh, kw) 1 PadSame p) x
              = Some y /\
            shape4 B n_out H W y /\ nonneg4 y.
Proof.
  intros Hx HB Hn HH HW Hkh Hkw Ht.
  apply (ConvBlock_forward_Some
           (ConvBlock_init n_in n_out (kh, kw) 1 PadSame p)
           B H W H ((kh - 1) / 2) W ((kw - 1) / 2) x); auto.
  - now apply conv_out_same.
  - now apply conv_out_same.
Qed.



Lemma Conv2d_forward_channels_None (c : Conv2d) (B C H W : nat) (x : tensor4) :
  shape4 B C H W x -> 1 <= B -> C <> in_channels c -> Conv2d_forward c x = None.
Proof.
  intros [HlB F] HB HC; unfold Conv2d_forward.
  destruct (kernel_size c) as [kh kw].
  destruct (guard _) as [[]|]; [cbn [bind] | reflexivity].
  destruct x as [|xb x]; [simpl in HlB; lia|].
  inversion F as [|? ? [HlC _] _]; subst.
  cbn [forallb].
  destruct (Nat.eqb_spec (length xb) (in_channels c)); [congruence|].
  reflexivity.
Qed.

(** X10: a [ConvBlock] raises on every non-empty batch whose number of
    channels is not its [input_dim], whatever its other arguments. *)
Theorem ConvBlock_forward_wrong_channels
        (input_dim output_dim stride B C H W : nat) (kernel_size : nat * nat)
        (padding : padding_mode) (p : ConvBlock_params) (x : tensor4) :
  shape4 B C H W x -> 1 <= B -> C <> input_dim ->
  ConvBlock_forward
    (ConvBlock_init input_dim output_dim kernel_size stride padding p) x = None.
Proof.
  intros Hx HB HC; unfold ConvBlock_forward.
  now rewrite (Conv2d_forward_channels_None
                 (cb_conv (ConvBlock_init input_dim output_dim kernel_size stride
                             padding p)) B C H W x Hx HB HC).
Qed.

(** X10 on a two-channel input of a block built for one channel. *)
Lemma ConvBlock_forward_wrong_channels_witness :
  ConvBlock_forward
    (ConvBlock_init 1 1 (3, 3) 1 PadSame unit_ConvBlock_params)
    [[[[1]]; [[2]]]]%R = None.
Proof.
  apply (ConvBlock_forward_wrong_channels 1 1 1 1 2 1 1);
    [repeat (constructor; simpl; auto) | lia | lia].
Defined.

(* ------------------------------------------------------------------ *)
(** ** [SRBlock]: shapes and the residual connection *)

Lemma bop3_entries (f : R -> R -> R) (c h w : nat) (a b y : tensor3) :
  shape3 c h w a -> shape3 c h w b -> bop3 f a b = Some y ->
  forall i j k, i < c -> j < h -> k < w ->
    get3 y i j k = f (get3 a i j k) (get3 b i j k).
Proof.
  intros [La Fa] [Lb Fb] E i j k Hi Hj Hk.
  assert (Lab : length a = length b) by congruence.
  destruct (bzip_nth _ _ _ _ Lab E) as [_ Hy].
  specialize (Hy i [] [] [] ltac:(lia)).
  pose proof (Forall_nth_lt _ _ i [] Fa ltac:(lia)) as Sa.
  pose proof (Forall_nth_lt _ _ i [] Fb ltac:(lia)) as Sb.
  unfold get3; now apply (bop2_entries f h w _ _ _ Sa Sb Hy).
Qed.

Lemma bop4_entries (f : R -> R -> R) (n c h w : nat) (a b y : tensor4) :
  shape4 n c h w a -> shape4 n c h w b -> bop4 f a b = Some y ->
  forall m i j k, m < n -> i < c -> j < h -> k < w ->
    get4 y m i j k = f (get4 a m i j k) (get4 b m i j k).
Proof.
  intros [La Fa] [Lb Fb] E m i j k Hm Hi Hj Hk.
  assert (Lab : length a = length b) by congruence.
  destruct (bzip_nth _ _ _ _ Lab E) as [_ Hy].
  specialize (Hy m [] [] [] ltac:(lia)).
  pose proof (Forall_nth_lt _ _ m [] Fa ltac:(lia)) as Sa.
  pose proof (Forall_nth_lt _ _ m [] Fb ltac:(lia)) as Sb.
  unfold get4; now apply (bop3_entries f c h w _ _ _ Sa Sb Hy).
Qed.

Lemma pointwise_conv_Some (n_in n_out B H W : nat) (p : conv_params) (x : tensor4) :
  shape4 B n_in H W x -> 1 <= B -> 1 <= n_in -> 1 <= H -> 1 <= W ->
  exists y,
    Conv2d_forward (Conv2d_init n_in n_out (square 1) 1 (PadZeros 0 0) 1 p) x
      = Some y /\
    shape4 B n_out H W y.
Proof.
  intros Hx HB Hn HH HW.
  apply (Conv2d_forward_Some
           (Conv2d_init n_in n_out (square 1) 1 (PadZeros 0 0) 1 p)
           B H W H 0 W 0 x); auto; try apply Nat.mod_1_r.
  - now apply conv_out_unit.
  - now apply conv_out_unit.
Qed.




(** X12: with [n_in = n_out] and [include_batch_relu] off, [SRBlock.forward]
    returns the residual sum: each entry of its output is the entry of the
    input plus the entry of the [1 x 1] convolution of the input. *)
Theorem SRBlock_forward_residual
        (n s B H W : nat) (p : SRBlock_params) (x : tensor4) :
  let self := SRBlock_init n n s false p in
  shape4 B n H W x -> 1 <= B -> 1 <= n -> 1 <= H -> 1 <= W ->
  exists out1 y,
    Conv2d_forward (sr_conv self) x = Some out1 /\
    SRBlock_forward self x = Some y /\
    shape4 B n H W y /\
    forall b c h w, b < B -> c < n -> h < H -> w < W ->
      get4 y b c h w = (get4 x b c h w + get4 out1 b c h w)%R.
Proof.
  intros self Hx HB Hn HH HW.
  destruct (pointwise_conv_Some n n B H W (srp_conv p) x Hx)
    as (out1 & E1 & S1); auto.
  destruct (bop4_shape Rplus B n H W x out1 Hx S1) as (out & Eo & So).
  exists out1, out; split; [exact E1|]. split; [|split; [exact So|]].
  - unfold SRBlock_forward, self.
    cbn [sr_conv sr_n_in sr_n_out sr_include_batch_relu SRBlock_init].
    rewrite E1, Nat.eqb_refl; cbn [bind].
    unfold add4; now rewrite Eo.
  - now apply (bop4_entries Rplus B n H W x out1 out).
Qed.

(** X12 on one [1 x 1] map. *)
Lemma SRBlock_forward_residual_witness :
  exists out1 y,
    Conv2d_forward (sr_conv (SRBlock_init 1 1 3 false unit_SRBlock_params))
      [[[[5%R]]]] = Some out1 /\
    SRBlock_forward (SRBlock_init 1 1 3 false unit_SRBlock_params) [[[[5%R]]]]
      = Some y /\
    shape4 1 1 1 1 y /\
    forall b c h w, b < 1 -> c < 1 -> h < 1 -> w < 1 ->
      get4 y b c h w = (get4 [[[[5%R]]]] b c h w + get4 out1 b c h w)%R.
Proof.
  apply (SRBlock_forward_residual 1 3 1 1 1 unit_SRBlock_params);
    try lia; repeat (constructor; simpl; auto).
Defined.

(* ------------------------------------------------------------------ *)
(** ** [appearance_extract] *)

Lemma sum2_grid (H W : nat) (m : tensor2) :
  shape2 H W m ->
  sum2 m = rsum (map (fun h => rsum (map (fun w => get2 m h w) (seq 0 W)))
                     (seq 0 H)).
Proof.
  intros Hs; rewrite <- (weighted_sum_one H W m Hs); unfold weighted_sum.
  apply f_equal, map_ext; intros h.
  apply f_equal, map_ext; intros w; lra.
Qed.

Lemma shape5_size2 (B T C H W : nat) (a : tensor5) :
  shape5 B T C H W a -> 1 <= B -> 1 <= T -> size2 a = C.
Proof.
  intros [HlB F] HB HT; unfold size2, size1; rewrite !hd_nth0.
  pose proof (Forall_nth_lt _ _ 0 [] F ltac:(lia)) as H0.
  apply (shape4_nth _ _ _ _ _ 0 H0); lia.
Qed.

Lemma kronecker_prod5_eq (a b : tensor5) :
  kronecker_prod5 a b =
  bzip mul5 (map (map (map (fun m => repeat m (size2 b)))) a)
            (map (map (fun bn => repeat bn (size2 a))) b).
Proof.
  unfold kronecker_prod5, tile6, mul6; rewrite !tile_dim_one.
  change (map (map (map (fun m : tensor2 => [m]))) a) with (map unsqueeze_m3 a).
  change (map (map (fun bn : tensor3 => [bn])) b) with (map unsqueeze_m4 b).
  rewrite !map_map; f_equal; apply map_ext; intros x.
  - apply tile5_unsqueeze_m3.
  - apply tile5_unsqueeze_m4.
Qed.

(** The 6-D product inside [appearance_extract], item by item. *)
Lemma appearance_extract_eq (B T C1 C2 H W : nat) (a b : tensor5) :
  shape5 B T C1 H W a -> shape5 B T C2 H W b -> 1 <= B -> 1 <= T ->
  exists k,
    appearance_extract a b = Some (map4d sum2 k) /\
    length k = B /\
    forall n, n < B ->
      prod5 T C1 C2 H W
        (map (map (fun m => repeat m C2)) (nth n a []))
        (map (fun bn => repeat bn C1) (nth n b []))
        (nth n k []).
Proof.
  intros Ha Hb HB HT; unfold appearance_extract.
  rewrite kronecker_prod5_eq.
  rewrite (shape5_size2 _ _ _ _ _ _ Ha), (shape5_size2 _ _ _ _ _ _ Hb) by lia.
  pose proof Ha as [La Fa]; pose proof Hb as [Lb Fb].
  destruct (bzip_same _ _ _ mul5 (shape5 T C1 C2 H W) (shape5 T C1 C2 H W)
              (prod5 T C1 C2 H W) (mul5_same T C1 C2 H W)
              (map (map (map (fun m => repeat m C2))) a)
              (map (map (fun bn => repeat bn C1)) b))
    as (k & Ek & Lk & Hk).
  - rewrite !length_map; congruence.
  - apply Forall_map; eapply Forall_impl; [|exact Fa].
    intros an Han; now apply kron_left_shape.
  - apply Forall_map; eapply Forall_impl; [|exact Fb].
    intros bn Hbn; now apply kron_right_shape.
  - rewrite Ek; cbn [bind]; exists k; split; [reflexivity|].
    rewrite length_map in Lk; split; [lia|].
    intros n Hn.
    specialize (Hk n [] [] [] ltac:(rewrite length_map; lia)).
    rewrite (nth_map_lt _ a _ []), (nth_map_lt _ b _ []) in Hk by lia.
    exact Hk.
Qed.

Lemma appearance_extract_shape (B T C1 C2 H W : nat) (a b : tensor5) :
  shape5 B T C1 H W a -> shape5 B T C2 H W b -> 1 <= B -> 1 <= T ->
  exists out, appearance_extract a b = Some out /\ shape4 B T C1 C2 out.
Proof.
  intros Ha Hb HB HT.
  destruct (appearance_extract_eq B T C1 C2 H W a b Ha Hb HB HT)
    as (k & Ek & Lk & Hkn).
  eexists; split; [exact Ek|].
  split; [unfold map4d; rewrite length_map; lia|].
  apply Forall_of_nth with (d := []); intros n Hn.
  unfold map4d in *; rewrite length_map in Hn.
  rewrite (nth_map_lt _ k _ []) by lia.
  split; [rewrite length_map; apply (Hkn n); lia|].
  apply Forall_of_nth with (d := []); intros t Ht.
  rewrite length_map in Ht.
  rewrite (nth_map_lt _ _ _ []) by lia.
  destruct (Hkn n ltac:(lia)) as [[L5 F5] _]; rewrite L5 in Ht.
  pose proof (Forall_nth_lt _ _ t [] F5 ltac:(lia)) as [L4 F4].
  split; [now rewrite length_map|].
  apply Forall_map; eapply Forall_impl; [|exact F4].
  intros r [L3 _]; unfold shape1; now rewrite length_map.
Qed.

(** X13: on 5-D arguments [a : B x T x C1 x H x W] and
    [b : B x T x C2 x H x W], [appearance_extract] returns the
    [B x T x C1 x C2] tensor of the sums over each map of the channel-wise
    products: [out[n, t, i, j] = sum_(h,w) a[n, t, i, h, w] * b[n, t, j, h, w]]. *)
Theorem appearance_extract_entries (B T C1 C2 H W : nat) (a b : tensor5) :
  shape5 B T C1 H W a -> shape5 B T C2 H W b -> 1 <= B -> 1 <= T ->
  exists out,
    appearance_extract a b = Some out /\
    shape4 B T C1 C2 out /\
    forall n t i j, n < B -> t < T -> i < C1 -> j < C2 ->
      get4 out n t i j =
      rsum (map (fun h =>
        rsum (map (fun w => (get5 a n t i h w * get5 b n t j h w)%R) (seq 0 W)))
        (seq 0 H)).
Proof.
  intros Ha Hb HB HT.
  destruct (appearance_extract_eq B T C1 C2 H W a b Ha Hb HB HT)
    as (k & Ek & Lk & Hkn).
  destruct (appearance_extract_shape B T C1 C2 H W a b Ha Hb HB HT)
    as (out & Eo & So).
  exists out; split; [exact Eo|]. split; [exact So|].
  assert (out = map4d sum2 k) by congruence; subst out.
  pose proof Ha as [La Fa]; pose proof Hb as [Lb Fb].
  intros n t i j Hn Ht Hi Hj.
  destruct (Hkn n Hn) as [S5 G].
  pose proof S5 as [L5 F5].
  pose proof (Forall_nth_lt _ _ t [] F5 ltac:(lia)) as S4.
  pose proof (shape4_nth _ _ _ _ _ i S4 Hi) as S3.
  pose proof (shape3_nth _ _ _ _ j S3 Hj) as S2.
  destruct S4 as [L4 _], S3 as [L3 _].
  unfold get4, get3, get2, get1, map4d.
  rewrite (nth_map_lt _ k _ []) by lia.
  rewrite (nth_map_lt _ _ _ []) by lia.
  rewrite (nth_map_lt _ _ _ []) by lia.
  rewrite (nth_map_lt _ _ _ []) by lia.
  rewrite (sum2_grid H W _ S2).
  apply f_equal, map_ext_in; intros h Hh; apply in_seq in Hh.
  apply f_equal, map_ext_in; intros w Hw; apply in_seq in Hw.
  specialize (G t i j h w ltac:(lia) ltac:(lia) ltac:(lia) ltac:(lia)
                ltac:(lia)).
  pose proof (Forall_nth_lt _ _ n [] Fa ltac:(lia)) as San.
  pose proof (Forall_nth_lt _ _ n [] Fb ltac:(lia)) as Sbn.
  destruct (kron_left_shape _ _ C2 _ _ _ San) as [_ Ga].
  destruct (kron_right_shape _ C1 _ _ _ _ Sbn) as [_ Gb].
  rewrite Ga, Gb in G by lia.
  exact G.
Qed.

(** X13 on arguments with two and one channel and a single [1 x 2] map. *)
Lemma appearance_extract_entries_witness :
  exists out,
    appearance_extract [[[[[1; 2]]; [[3; 4]]]]]%R [[[[[5; 6]]]]]%R = Some out /\
    shape4 1 1 2 1 out /\
    forall n t i j, n < 1 -> t < 1 -> i < 2 -> j < 1 ->
      get4 out n t i j =
      rsum (map (fun h =>
        rsum (map (fun w =>
          (get5 [[[[[1; 2]]; [[3; 4]]]]]%R n t i h w *
           get5 [[[[[5; 6]]]]]%R n t j h w)%R) (seq 0 2)))
        (seq 0 1)).
Proof.
  apply (appearance_extract_entries 1 1 2 1 1 2);
    try lia; repeat (constructor; simpl; auto).
Defined.

(* ------------------------------------------------------------------ *)
(** ** Shapes through concatenation, up-sampling and pooling *)

Lemma cat_dim1_Some (B C1 C2 H W : nat) (a b : tensor4) :
  shape4 B C1 H W a -> shape4 B C2 H W b ->
  1 <= B -> 1 <= C1 -> 1 <= C2 -> 1 <= H ->
  exists y, cat_dim1 a b = Some y /\ shape4 B (C1 + C2) H W y.
Proof.
  intros Ha Hb HB HC1 HC2 HH; unfold cat_dim1.
  rewrite (shape4_size2 _ _ _ _ _ Ha), (shape4_size2 _ _ _ _ _ Hb),
          (shape4_size3 _ _ _ _ _ Ha), (shape4_size3 _ _ _ _ _ Hb) by lia.
  rewrite !Nat.eqb_refl; cbn [andb guard bind].
  destruct Ha as [La Fa], Hb as [Lb Fb].
  destruct (zipM_same _ _ _ (fun xa xb : tensor3 => Some (xa ++ xb))
              (shape3 C1 H W) (shape3 C2 H W)
              (fun _ _ z => shape3 (C1 + C2) H W z)) with (l1 := a) (l2 := b)
    as (y & Ey & Ly & Hy); auto; [|congruence|].
  - intros xa xb [L1 F1] [L2 F2]; eexists; split; [reflexivity|].
    split; [rewrite length_app; lia | now apply Forall_app].
  - exists y; split; [exact Ey|]. split; [congruence|].
    destruct a as [|a0 a]; [simpl in La; lia|].
    apply Forall_of_nth with (d := a0); intros i Hi.
    apply (Hy i a0 a0 a0); simpl in *; lia.
Qed.




Lemma MaxPlusMinPooling_halves (B C H W : nat) (x : tensor4) :
  shape4 B C H W x -> 1 <= C -> 2 <= H -> 2 <= W ->
  exists y, MaxPlusMinPooling_forward (MaxPlusMinPooling_init 2 2 0) x = Some y /\
            shape4 B C (H / 2) (W / 2) y.
Proof.
  intros Hx HC HH HW; rewrite MaxPlusMinPooling_forward_eq.
  assert (Eh : (H + 2 * 0 - 2) / 2 + 1 = H / 2).
  { replace (H + 2 * 0 - 2) with (H - 2) by lia.
    replace H with ((H - 2) + 1 * 2) at 2 by lia.
    now rewrite Nat.div_add by lia. }
  assert (Ew : (W + 2 * 0 - 2) / 2 + 1 = W / 2).
  { replace (W + 2 * 0 - 2) with (W - 2) by lia.
    replace W with ((W - 2) + 1 * 2) at 2 by lia.
    now rewrite Nat.div_add by lia. }
  destruct (pool4d_Some rmax_list 2 2 0 B C H W x Hx) as (a & Ea & Sa);
    try lia; try (simpl; lia).
  destruct (pool4d_Some rmin_list 2 2 0 B C H W x Hx) as (b & Eb & Sb);
    try lia; try (simpl; lia).
  rewrite Eh, Ew in Sa, Sb.
  destruct (bop4_shape Rplus _ _ _ _ a b Sa Sb) as (y & Ey & Sy).
  exists y; rewrite Ea, Eb; cbn [bind]; unfold add4; auto.
Qed.


(* ------------------------------------------------------------------ *)
(** ** [ActionStart] *)

(** One step of a forward pass: the next layer returns, with a known shape. *)
Ltac conv_same_step :=
  match goal with
  | |- context [ConvBlock_forward
                  (ConvBlock_init ?ni ?no (?kh, ?kw) 1 PadSame ?q) ?x] =>
    match goal with
    | S : shape4 ?B ni ?H ?W x |- _ =>
      let y := fresh "y" in
      let E := fresh "E" in
      let Sy := fresh "S" in
      let Ny := fresh "N" in
      destruct (ConvBlock_same_Some ni no kh kw B H W q x S)
        as (y & E & Sy & Ny);
      [first [lia | intros _; nia | assumption] .. | rewrite E; cbn [bind]]
    end
  end.

Ltac cat_step :=
  match goal with
  | |- context [cat_dim1 ?a ?b] =>
    match goal with
    | Sa : shape4 ?B ?C1 ?H ?W a, Sb : shape4 ?B ?C2 ?H ?W b |- _ =>
      let y := fresh "y" in
      let E := fresh "E" in
      let Sy := fresh "S" in
      destruct (cat_dim1_Some B C1 C2 H W a b Sa Sb) as (y & E & Sy);
      [lia .. | rewrite E; cbn [bind]; cbn [Nat.add] in Sy]
    end
  end.

Lemma ActionStart_forward_Some (pose_rec : bool) (p : ActionStart_params)
      (B H W : nat) (x : tensor4) :
  shape4 B (if pose_rec then 3 else 576) H W x ->
  1 <= B -> 2 <= H -> 2 <= W ->
  exists y, ActionStart_forward (ActionStart_init pose_rec p) x = Some y /\
            shape4 B (if pose_rec then 112 else 224) (H / 2) (W / 2) y.
Proof.
  intros Hx HB HH HW.
  destruct pose_rec; unfold ActionStart_forward, ActionStart_init, square;
    cbn [as_conv_left1 as_conv_middle1 as_conv_right1 as_conv_left2
         as_conv_right2 as_maxplusmin fst snd];
    do 3 conv_same_step; do 2 cat_step; do 3 conv_same_step; cat_step;
    match goal with
    | S : shape4 B _ H W ?o |- context [MaxPlusMinPooling_forward _ ?o] =>
      destruct (MaxPlusMinPooling_halves _ _ _ _ o S) as (y' & E' & S');
        [lia .. | rewrite E'; cbn [bind]; eauto]
    end.
Qed.

(** What a returned value tells about the argument: a block with
    [padding='same'] returns only on non-empty maps of its [input_dim]
    channels, and keeps their size. *)
Lemma ConvBlock_same_shape (n_in n_out kh kw B C H W : nat) (p : ConvBlock_params)
      (x y : tensor4) :
  ConvBlock_forward (ConvBlock_init n_in n_out (kh, kw) 1 PadSame p) x = Some y ->
  shape4 B C H W x -> 1 <= B -> 1 <= n_in ->
  C = n_in /\ 1 <= H /\ 1 <= W /\ shape4 B n_out H W y /\ nonneg4 y.
Proof.
  intros E Hx HB Hn; unfold ConvBlock_forward in E.
  assert (HC : 1 <= C).
  { destruct (Nat.eq_dec C n_in) as [-> | Nc]; [exact Hn|].
    rewrite (Conv2d_forward_channels_None _ B C H W x Hx HB) in E;
      [discriminate | exact Nc]. }
  apply bind_Some in E as (y1 & E1 & E).
  apply bind_Some in E as (y2 & E2 & E); injection E as <-.
  assert (Ne : x <> [])
    by (destruct Hx as [Hl _]; intros ->; simpl in Hl; lia).
  destruct (Conv2d_forward_shape _ _ _ Ne E1)
    as (Fc & _ & oh & pt & ow & pl & Eh & Ew & S1).
  cbn [cb_conv ConvBlock_init Conv2d_init padding kernel_size stride
       in_channels out_channels fst snd] in *.
  assert (Ec : C = n_in).
  { pose proof (shape4_nth _ _ _ _ _ 0 Hx ltac:(lia)) as [HlC _].
    pose proof (Forall_nth_lt _ _ 0 [] Fc ltac:(destruct Hx; lia)) as Hc.
    simpl in Hc; congruence. }
  unfold conv_out in Eh, Ew.
  apply bind_Some in Eh as ([] & Gh & Eh); apply guard_Some in Gh.
  apply bind_Some in Ew as ([] & Gw & Ew); apply guard_Some in Gw.
  rewrite andb_true_iff, Nat.leb_le in Gh, Gw.
  injection Eh as <- _; injection Ew as <- _.
  assert (E2H : size2 x = H) by (apply (shape4_size2 B C H W); auto).
  assert (HH : 1 <= H) by lia.
  assert (E3W : size3 x = W) by (apply (shape4_size3 B C H W); auto).
  rewrite E2H, E3W in S1; destruct Hx as [Hl _]; rewrite Hl in S1.
  repeat split; try lia; try apply relu_nonneg; try apply relu_shape;
    try (eapply BatchNorm2d_forward_shape; eauto; apply S1);
    try (apply (relu_shape B n_out H W);
         eapply BatchNorm2d_forward_shape; eauto).
Qed.

Lemma cat_dim1_shape (B C1 C2 H W : nat) (a b y : tensor4) :
  cat_dim1 a b = Some y ->
  shape4 B C1 H W a -> shape4 B C2 H W b -> shape4 B (C1 + C2) H W y.
Proof.
  intros E [La Fa] [Lb Fb]; unfold cat_dim1 in E.
  apply bind_Some in E as ([] & _ & E).
  destruct (zipM_nth _ _ _ _ E) as (Ly & _ & Hy).
  split; [congruence|].
  apply Forall_of_nth with (d := []); intros i Hi.
  specialize (Hy i [] [] [] ltac:(lia)); injection Hy as <-.
  pose proof (Forall_nth_lt _ _ i [] Fa ltac:(lia)) as [L1 F1].
  pose proof (Forall_nth_lt _ _ i [] Fb ltac:(lia)) as [L2 F2].
  split; [rewrite length_app; lia | now apply Forall_app].
Qed.

Lemma MaxPlusMinPooling_halves_inv (B C H W : nat) (x y : tensor4) :
  MaxPlusMinPooling_forward (MaxPlusMinPooling_init 2 2 0) x = Some y ->
  shape4 B C H W x -> 1 <= B ->
  1 <= C /\ 2 <= H /\ 2 <= W /\ shape4 B C (H / 2) (W / 2) y.
Proof.
  intros E Hx HB.
  assert (D : (C = 0 \/ H < 2 \/ W < 2) \/ (1 <= C /\ 2 <= H /\ 2 <= W)) by lia.
  destruct D as [D | (HC & HH & HW)].
  - rewrite MaxPlusMinPooling_forward_eq in E.
    rewrite (pool4d_None rmax_list 2 2 0 B C H W x Hx HB) in E; [discriminate|].
    lia.
  - destruct (MaxPlusMinPooling_halves B C H W x Hx HC HH HW) as (y' & E' & S').
    rewrite E' in E; injection E as <-; auto.
Qed.

(** The same steps read backwards: the layer returned, so its argument had
    the shape it needs. *)
Ltac conv_inv_step E :=
  let y := fresh "y" in
  let Ey := fresh "E" in
  apply bind_Some in E as (y & Ey & E);
  match type of Ey with
  | ConvBlock_forward (ConvBlock_init ?ni ?no (?kh, ?kw) 1 PadSame ?q) ?x = _ =>
    match goal with
    | S : shape4 ?B ?C ?H ?W x |- _ =>
      let Hc := fresh "Hc" in
      destruct (ConvBlock_same_shape ni no kh kw B C H W q x y Ey S)
        as (Hc & ? & ? & ? & ?); [lia | lia |]; try subst C
    end
  end.

Ltac cat_inv_step E :=
  let y := fresh "y" in
  let Ey := fresh "E" in
  apply bind_Some in E as (y & Ey & E);
  match type of Ey with
  | cat_dim1 ?a ?b = _ =>
    match goal with
    | Sa : shape4 ?B ?C1 ?H ?W a, Sb : shape4 ?B ?C2 ?H ?W b |- _ =>
      pose proof (cat_dim1_shape B C1 C2 H W a b y Ey Sa Sb)
    end
  end.

Lemma ActionStart_forward_inv (pose_rec : bool) (p : ActionStart_params)
      (B C H W : nat) (x y : tensor4) :
  ActionStart_forward (ActionStart_init pose_rec p) x = Some y ->
  shape4 B C H W x -> 1 <= B ->
  C = (if pose_rec then 3 else 576) /\ 2 <= H /\ 2 <= W.
Proof.
  intros E Hx HB.
  destruct pose_rec; unfold ActionStart_forward, ActionStart_init, square in E;
    cbn [as_conv_left1 as_conv_middle1 as_conv_right1 as_conv_left2
         as_conv_right2 as_maxplusmin fst snd] in E;
    do 3 conv_inv_step E;
    (apply bind_Some in E as (out & Eo & E));
    cat_inv_step Eo;
    (match type of Eo with
     | cat_dim1 ?a ?b = _ =>
       match goal with
       | Sa : shape4 ?B' ?C1 ?H' ?W' a, Sb : shape4 ?B' ?C2 ?H' ?W' b |- _ =>
         pose proof (cat_dim1_shape B' C1 C2 H' W' a b out Eo Sa Sb) as So
       end
     end);
    cbn [Nat.add] in So;
    conv_inv_step E;
    (apply bind_Some in E as (r1 & Er & E));
    conv_inv_step Er;
    (match type of Er with
     | ConvBlock_forward (ConvBlock_init ?ni ?no (?kh, ?kw) 1 PadSame ?q) ?x' = _ =>
       match goal with
       | S : shape4 ?B' ?C' ?H' ?W' x' |- _ =>
         destruct (ConvBlock_same_shape ni no kh kw B' C' H' W' q x' r1 Er S)
           as (_ & _ & _ & Sr & _); [lia | lia |]
       end
     end);
    cat_inv_step E;
    (apply bind_Some in E as (o1 & Ep & E));
    (match type of Ep with
     | MaxPlusMinPooling_forward _ ?o = _ =>
       match goal with
       | S : shape4 ?B' ?C' ?H' ?W' o |- _ =>
         destruct (MaxPlusMinPooling_halves_inv B' C' H' W' o o1 Ep S)
           as (_ & ? & ? & _); [lia|]
       end
     end);
    auto.
Qed.

(** X14: on a non-empty batch of [C] maps of size [H x W],
    [ActionStart.forward] raises exactly when [C] is not the 3 (pose) or
    576 (appearance) channels it is built for or a map has fewer than two
    rows or columns; otherwise it returns a [B x 112 x H/2 x W/2] (pose) or
    [B x 224 x H/2 x W/2] (appearance) tensor, the number of channels the
    action blocks take. *)
Theorem ActionStart_forward_shape (pose_rec : bool) (p : ActionStart_params)
        (B C H W : nat) (x : tensor4) :
  let self := ActionStart_init pose_rec p in
  shape4 B C H W x -> 1 <= B ->
  (ActionStart_forward self x = None <->
   C <> (if pose_rec then 3 else 576) \/ H < 2 \/ W < 2) /\
  forall y, ActionStart_forward self x = Some y ->
    shape4 B (if pose_rec then 112 else 224) (H / 2) (W / 2) y.
Proof.
  intros self Hx HB; unfold self.
  destruct (ActionStart_forward (ActionStart_init pose_rec p) x) as [y|] eqn:E.
  - destruct (ActionStart_forward_inv _ _ _ _ _ _ _ _ E Hx HB) as (-> & HH & HW).
    split; [split; [discriminate | lia]|].
    destruct (ActionStart_forward_Some pose_rec p B H W x Hx HB HH HW)
      as (y' & E' & S').
    intros y0 E0; congruence.
  - split; [|discriminate]. split; [|reflexivity]. intros _.
    destruct (Nat.eq_dec C (if pose_rec then 3 else 576)) as [-> | Nc]; auto.
    right.
    destruct (le_lt_dec 2 H) as [HH|]; auto.
    destruct (le_lt_dec 2 W) as [HW|]; auto.
    destruct (ActionStart_forward_Some pose_rec p B H W x Hx HB HH HW)
      as (y' & E' & _); congruence.
Qed.

(** X14 on a pose input with one [2 x 2] map per coordinate. *)
Lemma ActionStart_forward_shape_witness :
  (ActionStart_forward (ActionStart_init true unit_ActionStart_params)
     (repeat (repeat [[0; 0]; [0; 0]]%R 3) 1) = None <->
   3 <> 3 \/ 2 < 2 \/ 2 < 2) /\
  forall y, ActionStart_forward (ActionStart_init true unit_ActionStart_params)
              (repeat (repeat [[0; 0]; [0; 0]]%R 3) 1) = Some y ->
    shape4 1 112 (2 / 2) (2 / 2) y.
Proof.
  apply (ActionStart_forward_shape true unit_ActionStart_params 1 3 2 2);
    [repeat (constructor; simpl; auto) | lia].
Defined.

(* ------------------------------------------------------------------ *)
(** ** [ActionBlock] *)




(** A broadcasting operation that returns combined the first items of its
    arguments, whose lengths are equal unless one of them is 1. *)
Lemma bzip_first {A B C : Type} (f : A -> B -> option C)
      (l1 : list A) (l2 : list B) (l : list C) (d1 : A) (d2 : B) :
  bzip f l1 l2 = Some l -> 1 <= length l1 -> 1 <= length l2 ->
  (length l1 = length l2 \/ length l1 = 1 \/ length l2 = 1) /\
  exists z, f (nth 0 l1 d1) (nth 0 l2 d2) = Some z.
Proof.
  unfold bzip; intros E H1 H2.
  destruct (Nat.eqb_spec (length l1) (length l2)) as [El | Nl].
  - split; [auto|].
    destruct l1 as [|a l1], l2 as [|b l2]; simpl in *; try lia.
    apply bind_Some in E as (z & Ez & _); eauto.
  - destruct l1 as [|a [|a' l1]], l2 as [|b [|b' l2]];
      simpl in *; try lia; try discriminate.
    + split; [auto|]. apply bind_Some in E as (z & Ez & _); eauto.
    + split; [auto|]. apply bind_Some in E as (z & Ez & _); eauto.
Qed.







(* ------------------------------------------------------------------ *)
(** ** [ActionCombined]: which inputs it accepts *)







(* ------------------------------------------------------------------ *)
(** ** [ActionRecognition] *)



Lemma ActionCombined_forward_no_block (pose_rec : bool) (N_a : nat)
      (ps : ActionStart_params) (pb : nat -> ActionBlock_params)
      (x : tensor4) (all_actions : tensor2) (out : tensor4) :
  ActionCombined_forward (ActionCombined_init pose_rec N_a 0 ps pb) x
    = Some (all_actions, out) ->
  all_actions = [].
Proof.
  unfold ActionCombined_forward, ActionCombined_forward_calls, enumerate.
  cbn [ac_action_start ac_action_blocks ac_N_a ac_K ActionCombined_init
       seq map length combine foldM repeat].
  destruct (ActionStart_forward _ x); cbn [bind option_map fst ls_all_actions];
    [|discriminate].
  now intros E; injection E as <- _.
Qed.

(** X17: built with [K = 0] blocks, [ActionRecognition.forward] raises on
    every input: there is no last row of predictions to read. *)
Theorem ActionRecognition_forward_no_block
        (N_a : nat) (p : ActionRecognition_params)
        (pose_input : tensor4) (entry_input prob_maps : tensor5) :
  ActionRecognition_forward (ActionRecognition_init N_a 0 p)
    pose_input entry_input prob_maps = None.
Proof.
  unfold ActionRecognition_forward.
  cbn [ar_pose_rec ar_action_rec ar_fc ActionRecognition_init].
  destruct (appearance_extract entry_input prob_maps) as [ai|];
    [cbn [bind] | reflexivity].
  destruct (ActionCombined_forward _ pose_input) as [[pa po]|] eqn:Ep;
    [cbn [bind] | reflexivity].
  apply ActionCombined_forward_no_block in Ep; subst pa.
  destruct (ActionCombined_forward _ ai) as [[aa ao]|];
    [cbn [bind] | reflexivity].
  reflexivity.
Qed.



(* ------------------------------------------------------------------ *)
(** ** [kronecker_prod] on arguments of different sizes *)

Lemma mul5_dims (B1 B2 C D H1 H2 W1 W2 : nat) (x y z : tensor5) :
  mul5 x y = Some z ->
  shape5 B1 C D H1 W1 x -> shape5 B2 C D H2 W2 y ->
  1 <= B1 -> 1 <= B2 -> 1 <= C -> 1 <= D -> 1 <= H1 -> 1 <= H2 ->
  (B1 = B2 \/ B1 = 1 \/ B2 = 1) /\ (H1 = H2 \/ H1 = 1 \/ H2 = 1) /\
  (W1 = W2 \/ W1 = 1 \/ W2 = 1).
Proof.
  intros E [Lx Fx] [Ly Fy] HB1 HB2 HC HD HH1 HH2.
  pose proof (Forall_nth_lt _ _ 0 [] Fx ltac:(lia)) as Sx0.
  pose proof (Forall_nth_lt _ _ 0 [] Fy ltac:(lia)) as Sy0.
  pose proof (shape4_nth _ _ _ _ _ 0 Sx0 ltac:(lia)) as Sx1.
  pose proof (shape4_nth _ _ _ _ _ 0 Sy0 ltac:(lia)) as Sy1.
  pose proof (shape3_nth _ _ _ _ 0 Sx1 ltac:(lia)) as Sx2.
  pose proof (shape3_nth _ _ _ _ 0 Sy1 ltac:(lia)) as Sy2.
  pose proof (shape2_nth _ _ _ 0 Sx2 ltac:(lia)) as Sx3.
  pose proof (shape2_nth _ _ _ 0 Sy2 ltac:(lia)) as Sy3.
  unfold shape1 in Sx3, Sy3.
  destruct Sx0 as [Lx0 _], Sy0 as [Ly0 _], Sx1 as [Lx1 _], Sy1 as [Ly1 _],
           Sx2 as [Lx2 _], Sy2 as [Ly2 _].
  destruct (bzip_first _ _ _ _ [] [] E ltac:(lia) ltac:(lia)) as (DB & z0 & E0).
  destruct (bzip_first _ _ _ _ [] [] E0 ltac:(lia) ltac:(lia)) as (_ & z1 & E1).
  destruct (bzip_first _ _ _ _ [] [] E1 ltac:(lia) ltac:(lia)) as (_ & z2 & E2).
  destruct (bzip_first _ _ _ _ [] [] E2 ltac:(lia) ltac:(lia)) as (DH & z3 & E3).
  split; [lia|]. split; [lia|].
  unfold mul1, bzip in E3.
  destruct (Nat.eqb_spec
              (length (nth 0 (nth 0 (nth 0 (nth 0 x []) []) []) []))
              (length (nth 0 (nth 0 (nth 0 (nth 0 y []) []) []) [])))
    as [El|Nl]; [lia|].
  destruct (nth 0 (nth 0 (nth 0 (nth 0 x []) []) []) []) as [|u [|u' ru]],
           (nth 0 (nth 0 (nth 0 (nth 0 y []) []) []) []) as [|v [|v' rv]];
    simpl in *; try lia; discriminate.
Qed.

(** X19: [kronecker_prod] raises when its arguments, with at least one
    channel and one row each, differ in batch size, height or width and
    neither of the two differing sizes is 1. *)
Theorem kronecker_prod_size_mismatch
        (B1 B2 C1 C2 H1 H2 W1 W2 : nat) (a b : tensor4) :
  shape4 B1 C1 H1 W1 a -> shape4 B2 C2 H2 W2 b ->
  1 <= B1 -> 1 <= B2 -> 1 <= C1 -> 1 <= C2 -> 1 <= H1 -> 1 <= H2 ->
  (B1 <> B2 /\ B1 <> 1 /\ B2 <> 1) \/ (H1 <> H2 /\ H1 <> 1 /\ H2 <> 1) \/
  (W1 <> W2 /\ W1 <> 1 /\ W2 <> 1) ->
  kronecker_prod a b = None.
Proof.
  intros Ha Hb HB1 HB2 HC1 HC2 HH1 HH2 Hd.
  destruct (kronecker_prod a b) as [k|] eqn:E; [exfalso | reflexivity].
  unfold kronecker_prod in E.
  rewrite tile5_unsqueeze_m3, tile5_unsqueeze_m4 in E.
  rewrite (shape4_dim1 _ _ _ _ _ Ha), (shape4_dim1 _ _ _ _ _ Hb) in E by lia.
  destruct (kron_left_shape _ _ C2 _ _ _ Ha) as [Sa _].
  destruct (kron_right_shape _ C1 _ _ _ _ Hb) as [Sb _].
  destruct (mul5_dims _ _ _ _ _ _ _ _ _ _ _ E Sa Sb) as (DB & DH & DW); lia.
Qed.

(** X19 on two one-channel arguments of heights 2 and 3. *)
Lemma kronecker_prod_size_mismatch_witness :
  kronecker_prod [[[[1]; [2]]]]%R [[[[1]; [2]; [3]]]]%R = None.
Proof.
  apply (kronecker_prod_size_mismatch 1 1 1 1 2 3 1 1);
    try lia; repeat (constructor; simpl; auto).
Defined.

(* ------------------------------------------------------------------ *)
(** ** A window over the whole map *)

Lemma flat_map_nth_error {A : Type} (l : list A) :
  flat_map (fun d => match nth_error l d with
                     | Some a => [a]
                     | None => []
                     end) (seq 0 (length l)) = l.
Proof.
  induction l as [|a l IH]; [reflexivity|].
  cbn [length seq flat_map nth_error app].
  rewrite <- IH at 2; f_equal.
  rewrite <- seq_shift, !flat_map_concat_map, map_map; reflexivity.
Qed.

Lemma window_whole {A : Type} (s : nat) (l : list A) :
  window (length l) s 0 0 l = l.
Proof.
  unfold window.
  transitivity (flat_map (fun d => match nth_error l d with
                                   | Some a => [a]
                                   | None => []
                                   end) (seq 0 (length l)));
    [|apply flat_map_nth_error].
  apply flat_map_ext; intros d; cbn [Nat.mul Nat.add Nat.leb].
  now rewrite Nat.sub_0_r.
Qed.

Lemma window_cells_whole (k s : nat) (m : tensor2) :
  shape2 k k m -> window_cells k s 0 m 0 0 = flatten2 m.
Proof.
  intros [Hl F]; unfold window_cells; subst k.
  rewrite window_whole; f_equal.
  transitivity (map (fun r : tensor1 => r) m); [|apply map_id].
  apply map_ext_in; intros r Hr.
  rewrite Forall_forall in F; rewrite <- (F r Hr); apply window_whole.
Qed.

Lemma pool2d_whole (red : list R -> R) (k s : nat) (m : tensor2) :
  shape2 k k m -> 1 <= k -> 1 <= s ->
  pool2d red k s 0 m = Some [[red (flatten2 m)]].
Proof.
  intros Hm Hk Hs; unfold pool2d.
  pose proof Hm as [Hl F].
  assert (EW : length (hd [] m) = k).
  { rewrite hd_nth0; apply (Forall_nth_lt _ _ 0 [] F); lia. }
  rewrite Hl, EW, guard_true
    by (rewrite !andb_true_iff, !Nat.leb_le; repeat split; lia).
  unfold pool_out.
  destruct (Nat.ltb_spec (k + 2 * 0) k); [lia|].
  replace (k + 2 * 0 - k) with 0 by lia.
  rewrite Nat.Div0.div_0_l; cbn [bind Nat.add seq map].
  now rewrite (window_cells_whole k s m Hm).
Qed.

(** X20: [MaxPlusMinPooling] with a window over the whole map and no
    padding is [GlobalMaxPlusMinPooling]: on [B x C x k x k] maps with at
    least one channel both return, and the [1 x 1] map pooled at [b, c]
    holds the global entry [b, c]. *)
Theorem MaxPlusMinPooling_forward_global (B C k s : nat) (x : tensor4) :
  shape4 B C k k x -> 1 <= C -> 1 <= k -> 1 <= s ->
  exists y g,
    MaxPlusMinPooling_forward (MaxPlusMinPooling_init k s 0) x = Some y /\
    GlobalMaxPlusMinPooling_forward x = Some g /\
    forall b c, b < B -> c < C -> nth c (nth b y []) [] = [[get2 g b c]].
Proof.
  intros Hx HC Hk Hs.
  assert (Ep : forall red,
            pool4d red k s 0 x =
            Some (map (map (fun m => [[red (flatten2 m)]])) x)).
  { intros red; unfold pool4d.
    apply mapM_map_Some, Forall_forall; intros xb Hxb.
    destruct Hx as [_ F]; rewrite Forall_forall in F.
    destruct (F xb Hxb) as [LC Fb].
    rewrite guard_true by (apply Nat.leb_le; lia).
    apply mapM_map_Some; eapply Forall_impl; [|exact Fb].
    intros m Hm; now apply pool2d_whole. }
  rewrite MaxPlusMinPooling_forward_eq, (Ep rmax_list), (Ep rmin_list).
  cbn [bind].
  rewrite (GlobalMaxPlusMinPooling_forward_Some B C k k x Hx) by (right; right; lia).
  assert (Ea : add4 (map (map (fun m => [[rmax_list (flatten2 m)]])) x)
                    (map (map (fun m => [[rmin_list (flatten2 m)]])) x) =
               Some (map (map (fun m : tensor2 =>
                 [[(rmax_list (flatten2 m) + rmin_list (flatten2 m))%R]])) x)).
  { unfold add4, bop4; rewrite bzip_diag.
    apply mapM_map_Some, Forall_forall; intros xb _.
    unfold bop3; rewrite bzip_diag.
    apply mapM_map_Some, Forall_forall; intros m _.
    reflexivity. }
  rewrite Ea; do 2 eexists; split; [reflexivity|]. split; [reflexivity|].
  intros b c Hb Hc.
  pose proof (shape4_nth _ _ _ _ _ b Hx Hb) as [LC _].
  destruct Hx as [LB _].
  unfold get2, get1.
  rewrite !(nth_map_lt _ x _ []) by lia.
  rewrite !(nth_map_lt _ _ _ []) by lia.
  do 2 f_equal; lra.
Qed.

(** X20 on one [2 x 2] map. *)
Lemma MaxPlusMinPooling_forward_global_witness :
  exists y g,
    MaxPlusMinPooling_forward (MaxPlusMinPooling_init 2 1 0)
      [[[[1; 2]; [3; 4]]]]%R = Some y /\
    GlobalMaxPlusMinPooling_forward [[[[1; 2]; [3; 4]]]]%R = Some g /\
    forall b c, b < 1 -> c < 1 -> nth c (nth b y []) [] = [[get2 g b c]].
Proof.
  apply (MaxPlusMinPooling_forward_global 1 1 2 1);
    try lia; repeat (constructor; simpl; auto).
Defined.

(* ------------------------------------------------------------------ *)
(** ** [ConvBlock] with a numeric padding *)



